(** * youtube-playlist-analyzer: the scrape-playlist route and its page

    A shallow embedding of [src/app/api/scrape-playlist/route.ts]:
    the in-page extraction callback with its view-count parsing, the
    scroll loop, the crawler run with its dataset, and the [POST]
    handler around them; and of [src/app/page.tsx]: the submit
    handler, the view formatter and the test that shows the results. *)

From Stdlib Require Import ZArith NArith List Bool Lia String Ascii.
From Stdlib Require Import SpecFloat DecimalString DecimalNat ZifyBool.
Import ListNotations.
Open Scope Z_scope.

(* ================================================================== *)
(** * JavaScript strings *)
(* ================================================================== *)

(** A JavaScript string is a sequence of UTF-16 code units. *)
Definition code_unit := Z.
Definition jsstring := list code_unit.

(** String literals of the source, written as Rocq strings. *)
Definition js (s : string) : jsstring :=
  map (fun c => Z.of_N (N_of_ascii c)) (list_ascii_of_string s).

Arguments js s%_string.

Definition jsstring_eqb (a b : jsstring) : bool :=
  if list_eq_dec Z.eq_dec a b then true else false.

(** WhiteSpace and LineTerminator code points of ECMAScript: what
    [String.prototype.trim], the regular-expression class [\s] and the
    leading trim of [parseInt] / [parseFloat] all use. *)
Definition is_space (c : code_unit) : bool :=
  (c =? 9) || (c =? 10) || (c =? 11) || (c =? 12) || (c =? 13) ||
  (c =? 32) || (c =? 160) || (c =? 5760) ||
  ((8192 <=? c) && (c <=? 8202)) ||
  (c =? 8232) || (c =? 8233) || (c =? 8239) || (c =? 8287) ||
  (c =? 12288) || (c =? 65279).

Definition is_digit (c : code_unit) : bool := (48 <=? c) && (c <=? 57).

(** Longest prefix whose units satisfy [p], and the rest. *)
Fixpoint span (p : code_unit -> bool) (s : jsstring) : jsstring * jsstring :=
  match s with
  | c :: t => if p c then let '(a, b) := span p t in (c :: a, b) else ([], s)
  | [] => ([], [])
  end.

Definition trim_start (s : jsstring) : jsstring := snd (span is_space s).
Definition trim_end (s : jsstring) : jsstring := rev (trim_start (rev s)).

(** [String.prototype.trim]. *)
Definition trim (s : jsstring) : jsstring := trim_end (trim_start s).

(** [String.prototype.toUpperCase] on the ASCII range, where it maps
    [a-z] to [A-Z] and nothing else.  The route applies it to the first
    capture group of the view pattern only, which is ASCII
    ([viewsMatch_group_shape] below). *)
Definition upper_unit (c : code_unit) : code_unit :=
  if (97 <=? c) && (c <=? 122) then c - 32 else c.
Definition toUpperCase (s : jsstring) : jsstring := map upper_unit s.

(** [s.replace(/,/g, "")]. *)
Definition remove_commas (s : jsstring) : jsstring :=
  filter (fun c => negb (c =? 44)) s.

(** [s.endsWith(c)] for a one-unit search string. *)
Definition endsWith (s : jsstring) (c : code_unit) : bool :=
  match rev s with
  | d :: _ => d =? c
  | [] => false
  end.

Fixpoint starts_with (pre s : jsstring) : bool :=
  match pre, s with
  | [], _ => true
  | p :: pre', c :: s' => (p =? c) && starts_with pre' s'
  | _ :: _, [] => false
  end.

(* ================================================================== *)
(** * JavaScript numbers *)
(* ================================================================== *)

(** A Number is an IEEE 754 binary64 value; the arithmetic is the
    Standard Library's specification of it. *)
Definition number := spec_float.
Definition prec : Z := 53.
Definition emax : Z := 1024.

Definition NaN : number := S754_nan.
Definition num_mul (x y : number) : number := SFmul prec emax x y.

(** The Number nearest to [(-1)^neg * n * 10^k] (ties to even). *)
Definition decimal_value (neg : bool) (n : Z) (k : Z) : number :=
  match n with
  | Zpos p =>
      if 0 <=? k
      then binary_round prec emax neg (p * Z.to_pos (10 ^ k)) 0
      else SFdiv prec emax (S754_finite neg p 0)
                           (S754_finite false (Z.to_pos (10 ^ (- k))) 0)
  | _ => S754_zero neg
  end.

(** An integer literal of the source ([0], [1000], ...). *)
Definition of_Z (n : Z) : number := binary_normalize prec emax n 0 false.

(** The Number [x] is the integer [n], with no rounding. *)
Definition number_is (x : number) (n : Z) : bool :=
  match x with
  | S754_zero _ => n =? 0
  | S754_finite s m e =>
      (if s then - n else n) * 2 ^ Z.max (- e) 0 =? Zpos m * 2 ^ Z.max e 0
  | _ => false
  end.

(** The sign bit is clear and the value is not NaN: [0], a positive
    finite value or [+Infinity]. *)
Definition nonnegative (x : number) : bool :=
  match x with
  | S754_zero s | S754_infinity s | S754_finite s _ _ => negb s
  | S754_nan => false
  end.

(** [x] is NaN or carries the sign bit [s]. *)
Definition has_sign (s : bool) (x : number) : Prop :=
  match x with
  | S754_nan => True
  | S754_zero b | S754_infinity b | S754_finite b _ _ => b = s
  end.

(** [x > 0] in JavaScript. *)
Definition positive_number (x : number) : bool :=
  match x with
  | S754_infinity false | S754_finite false _ _ => true
  | _ => false
  end.

(** The shape of a positive Number whose exponent is at least [lo]. *)
Definition positive_above (lo : Z) (x : number) : Prop :=
  x = S754_infinity false \/
  exists m e, x = S754_finite false m e /\ lo <= e.

(** The value is a mathematical integer (in particular finite). *)
Definition is_integer (x : number) : bool :=
  match x with
  | S754_zero _ => true
  | S754_finite _ m e =>
      if 0 <=? e then true else (Zpos m) mod 2 ^ (- e) =? 0
  | _ => false
  end.

Definition nonneg_integer (x : number) : bool := nonnegative x && is_integer x.

(** Value of a digit string in a radix ([a-z] / [A-Z] count from 10). *)
Definition digit_of (c : code_unit) : Z :=
  if is_digit c then c - 48
  else if (97 <=? c) && (c <=? 122) then c - 87
  else if (65 <=? c) && (c <=? 90) then c - 55
  else 36.

Definition is_radix_digit (radix : Z) (c : code_unit) : bool :=
  digit_of c <? radix.

Definition radix_value (radix : Z) (ds : jsstring) : Z :=
  fold_left (fun acc c => radix * acc + digit_of c) ds 0.

Definition strip_sign (s : jsstring) : bool * jsstring :=
  match s with
  | c :: t => if c =? 45 then (true, t) else if c =? 43 then (false, t) else (false, s)
  | [] => (false, [])
  end.

(** [parseInt(string)] with no radix argument.  (For more than 20
    significant digits ECMAScript lets an implementation approximate;
    the model rounds the exact value.) *)
Definition parseInt (input : jsstring) : number :=
  let '(neg, s1) := strip_sign (trim_start input) in
  let '(radix, s2) :=
    match s1 with
    | c0 :: c1 :: t =>
        if (c0 =? 48) && ((c1 =? 120) || (c1 =? 88)) then (16, t) else (10, s1)
    | _ => (10, s1)
    end in
  match fst (span (is_radix_digit radix) s2) with
  | [] => NaN
  | z => decimal_value neg (radix_value radix z) 0
  end.

(** The exponent part [e[+-]ddd] of a decimal literal, 0 when absent. *)
Definition exponent_part (s : jsstring) : Z :=
  match s with
  | c :: t =>
      if (c =? 101) || (c =? 69) then
        let '(neg, t1) := strip_sign t in
        match fst (span is_digit t1) with
        | [] => 0
        | ds => if neg then - radix_value 10 ds else radix_value 10 ds
        end
      else 0
  | [] => 0
  end.

(** [parseFloat(string)]: the longest prefix that is a StrDecimalLiteral
    (sign, then [Infinity], or digits with an optional fraction and
    exponent), [NaN] when there is none. *)
Definition parseFloat (input : jsstring) : number :=
  let '(neg, s1) := strip_sign (trim_start input) in
  if starts_with (js "Infinity") s1 then S754_infinity neg else
  let '(ip, r1) := span is_digit s1 in
  let '(fp, r2) :=
    match r1 with
    | c :: t => if c =? 46 then span is_digit t else ([], r1)
    | [] => ([], [])
    end in
  match ip ++ fp with
  | [] => NaN
  | ds => decimal_value neg (radix_value 10 ds)
                        (exponent_part r2 - Z.of_nat (List.length fp))
  end.

(* ================================================================== *)
(** * The view-count pattern *)
(* ================================================================== *)

(** [/^([\d,.]+[KMB]?)\s*views?$/i], as a backtracking matcher: every
    quantifier is greedy and hands what it consumed and the rest to its
    continuation, falling back to a shorter match when that fails. *)
Section Regex.
Context {R : Type}.

  (** [c*] for a class [c]: [acc] is what the quantifier has consumed. *)
Fixpoint class_star (p : code_unit -> bool) (acc s : jsstring)
           (k : jsstring -> jsstring -> option R) : option R :=
    match s with
    | c :: t =>
        if p c then
          match class_star p (acc ++ [c]) t k with
          | Some r => Some r
          | None => k acc s
          end
        else k acc s
    | [] => k acc s
    end.

  (** [c+]. *)
Definition class_plus (p : code_unit -> bool) (s : jsstring)
             (k : jsstring -> jsstring -> option R) : option R :=
    match s with
    | c :: t => if p c then class_star p [c] t k else None
    | [] => None
    end.

  (** [c?]. *)
Definition class_opt (p : code_unit -> bool) (s : jsstring)
             (k : jsstring -> jsstring -> option R) : option R :=
    match s with
    | c :: t =>
        if p c then
          match k [c] t with
          | Some r => Some r
          | None => k [] s
          end
        else k [] s
    | [] => k [] s
    end.

  (** A literal, compared ignoring case (the [i] flag); [lit] is given
      in upper case. *)
Fixpoint literal_ci (lit s : jsstring) (k : jsstring -> option R) : option R :=
    match lit, s with
    | [], _ => k s
    | l :: lit', c :: t => if upper_unit c =? l then literal_ci lit' t k else None
    | _ :: _, [] => None
    end.
End Regex.

(** [[\d,.]] *)
Definition is_count_char (c : code_unit) : bool :=
  is_digit c || (c =? 44) || (c =? 46).

(** [[KMB]] under the [i] flag. *)
Definition is_suffix_char (c : code_unit) : bool :=
  let u := upper_unit c in (u =? 75) || (u =? 77) || (u =? 66).

(** [s] under the [i] flag. *)
Definition is_s_char (c : code_unit) : bool := upper_unit c =? 83.

(** The units [viewString] can hold: digits, the dot and [K], [M], [B]. *)
Definition is_view_char (c : code_unit) : bool :=
  is_digit c || (c =? 46) || (c =? 75) || (c =? 77) || (c =? 66).

(** The digits [1] to [9]. *)
Definition is_nonzero_digit (c : code_unit) : bool := (49 <=? c) && (c <=? 57).

(** [viewsText.match(...)]: the first capture group on a match, [None]
    for the [null] of a failed match. *)
Definition viewsMatch (viewsText : jsstring) : option jsstring :=
  class_plus is_count_char viewsText (fun g1 r1 =>
    class_opt is_suffix_char r1 (fun g2 r2 =>
      class_star is_space [] r2 (fun _ r3 =>
        literal_ci (js "VIEW") r3 (fun r4 =>
          class_opt is_s_char r4 (fun _ r5 =>
            match r5 with
            | [] => Some (g1 ++ g2)
            | _ :: _ => None
            end))))).

(* ================================================================== *)
(** * The view-count normalizer (route.ts, lines 78-89) *)
(* ================================================================== *)

Definition normalize (viewsText : jsstring) : number :=
  match viewsMatch viewsText with
  | Some g1 =>
      let viewString := remove_commas (toUpperCase g1) in
      if endsWith viewString 75 (* K *) then
        num_mul (parseFloat viewString) (of_Z 1000)
      else if endsWith viewString 77 (* M *) then
        num_mul (parseFloat viewString) (of_Z 1000000)
      else if endsWith viewString 66 (* B *) then
        num_mul (parseFloat viewString) (of_Z 1000000000)
      else parseInt viewString
  | None => of_Z 0
  end.

(* ================================================================== *)
(** * The in-page extraction callback (route.ts, lines 67-95) *)
(* ================================================================== *)

Record VideoData := {
  title : jsstring;
  views : number;
  thumbnail : jsstring
}.

(** What the callback reads of one [ytd-playlist-video-renderer]
    element.  Each field is [None] when the optional chain yields
    [undefined]: no [#video-title] node, no [#video-info span] node, no
    [img] node. *)
Record Container := {
  video_title_text : option jsstring;   (* el.querySelector("#video-title")?.textContent *)
  video_info_text : option jsstring;    (* el.querySelector("#video-info span")?.textContent *)
  img_src : option jsstring             (* el.querySelector("img")?.src *)
}.

(** [x || ""] for [x] a string or [undefined]: the empty string is falsy. *)
Definition or_empty (x : option jsstring) : jsstring :=
  match x with
  | Some (c :: t) => c :: t
  | _ => []
  end.

(** The body of [elements.map((el) => ...)]. *)
Definition extract_video (el : Container) : VideoData :=
  let title := or_empty (option_map trim (video_title_text el)) in
  let viewsText := or_empty (option_map trim (video_info_text el)) in
  let thumbnail := or_empty (img_src el) in
  let views := normalize viewsText in
  {| title := title; views := views; thumbnail := thumbnail |}.

(** The callback of [page.$$eval]: it receives the matched elements in
    document order. *)
Definition extract_videos (elements : list Container) : list VideoData :=
  map extract_video elements.

(* ================================================================== *)
(** * The scroll loop (route.ts, lines 57-64) *)
(* ================================================================== *)

(** What the in-page script does to the page. *)
Inductive PageEvent :=
| ReadHeight (h : Z)          (* document.body.scrollHeight *)
| ScrollTo (x y : Z)          (* window.scrollTo(x, y) *)
| Sleep (ms : Z).             (* setTimeout(resolve, ms), awaited *)

(** The page as the loop sees it: [height k] is
    [document.body.scrollHeight] once [k] rounds of scrolling to the
    bottom and waiting have passed.  Within a round the script reads the
    height twice without yielding, so both reads agree. *)
Definition Heights := nat -> Z.

(** One pass through the body of [while (true)], in round [k]: the page
    events, and whether the [break] is taken. *)
Definition scroll_round (height : Heights) (k : nat) : list PageEvent * bool :=
  let oldHeight := height k in
  ([ReadHeight oldHeight;
    ReadHeight (height k); ScrollTo 0 (height k);
    Sleep 2000;
    ReadHeight (height (S k))],
   height (S k) =? oldHeight).

(** The loop from round [k] on.  It has no bound of its own: [fuel]
    bounds the rounds the model runs, and [None] says the loop was
    still going when the fuel ran out. *)
Fixpoint scroll_loop (fuel : nat) (height : Heights) (k : nat)
  : option (list PageEvent * nat) :=
  match fuel with
  | O => None
  | S fuel' =>
      let '(evs, stop) := scroll_round height k in
      if stop then Some (evs, S k)
      else
        match scroll_loop fuel' height (S k) with
        | Some (evs', n) => Some (evs ++ evs', n)
        | None => None
        end
  end.

(** The page events of rounds [k], [k+1], ..., [k+n-1]. *)
Fixpoint rounds_events (height : Heights) (k n : nat) : list PageEvent :=
  match n with
  | O => []
  | S n' => fst (scroll_round height k) ++ rounds_events height (S k) n'
  end.

(* ================================================================== *)
(** * The response (route.ts, lines 11-14 and 120-129) *)
(* ================================================================== *)

Record GraphPoint := {
  name : jsstring;
  graph_views : number
}.

(** [`${n}`] for a non-negative integer [n]. *)
Definition number_to_string (n : nat) : jsstring :=
  js (NilEmpty.string_of_uint (Nat.to_uint n)).

(** [videos.map((video, index) => ({ name: `Video ${index + 1}`,
    views: video.views }))], from position [index] on. *)
Fixpoint graph_points (index : nat) (videos : list VideoData) : list GraphPoint :=
  match videos with
  | [] => []
  | video :: rest =>
      {| name := js "Video " ++ number_to_string (index + 1);
         graph_views := views video |}
      :: graph_points (S index) rest
  end.

Definition graphData_of (videos : list VideoData) : list GraphPoint :=
  graph_points 0 videos.

Record PlaylistData := {
  videoList : list VideoData;
  graphData : list GraphPoint
}.

(** What [NextResponse.json] is given. *)
Inductive Response :=
| Success (data : PlaylistData)                  (* status 200 *)
| ErrorResponse (status : Z) (error : jsstring).

(* ================================================================== *)
(** * Effects: the dataset, the logs and thrown errors *)
(* ================================================================== *)

Inductive Error :=
| InvalidURL            (* TypeError of [new URL(...)] *)
| StorageError          (* a rejected dataset operation *)
| CrawlerError          (* [crawler.run] itself rejected *)
| NavigationError       (* the page could not be loaded *)
| TimeoutError          (* [page.waitForSelector]: 30000 ms exceeded *)
| EvaluateError         (* [page.evaluate] / [page.$$eval] rejected *)
| HandlerTimeout.       (* the crawler's time limit on a request handler *)

(** A dataset item: the [videos] property of what [pushData] was given.
    (The dataset keeps its items as JSON, which has no NaN and no
    Infinity; the model keeps the Numbers as they were pushed.) *)
Definition Batch := list VideoData.

Inductive Event :=
| DatasetOpen (name : jsstring)
| DatasetPush (videos : Batch)
| DatasetGetData
| DatasetDrop
| Navigate (url : jsstring)
| WaitForSelector (selector : jsstring) (timeout : Z)
| InPage (e : PageEvent)
| LogInfo (msg : jsstring)
| LogError (msg : jsstring)
| ConsoleError (msg : jsstring) (e : Error).

(** The request's view of the world: the items of its dataset and what
    has happened so far, oldest event first. *)
Record State := {
  items : list Batch;
  trace : list Event
}.

Definition initial_state : State := {| items := []; trace := [] |}.

Inductive Outcome (A : Type) :=
| Returned (a : A)
| Threw (e : Error).
Arguments Returned {A} a.
Arguments Threw {A} e.

(** A computation that may throw; the state survives a throw, as the
    dataset does in the [catch] block. *)
Definition M (A : Type) := State -> Outcome A * State.

Definition ret {A} (a : A) : M A := fun st => (Returned a, st).
Definition throw {A} (e : Error) : M A := fun st => (Threw e, st).
Definition bind {A B} (c : M A) (k : A -> M B) : M B :=
  fun st =>
    match c st with
    | (Returned a, st') => k a st'
    | (Threw e, st') => (Threw e, st')
    end.
Definition try_catch {A} (c : M A) (handler : Error -> M A) : M A :=
  fun st =>
    match c st with
    | (Returned a, st') => (Returned a, st')
    | (Threw e, st') => handler e st'
    end.
Definition emit (e : Event) : M unit :=
  fun st => (Returned tt, {| items := items st; trace := trace st ++ [e] |}).
Definition emit_all (es : list Event) : M unit :=
  fun st => (Returned tt, {| items := items st; trace := trace st ++ es |}).

Declare Scope route_scope.
Delimit Scope route_scope with route.
Notation "x <- c ;; k" := (bind c (fun x => k))
  (at level 61, c at next level, right associativity) : route_scope.
Notation "c ;; k" := (bind c (fun _ => k))
  (at level 61, right associativity) : route_scope.
Open Scope route_scope.

(* ================================================================== *)
(** * The collaborators *)
(* ================================================================== *)

(** What one attempt at the request finds in the browser. *)
Record Page := {
  navigation_fails : bool;      (* the crawler could not load the URL *)
  selector_appears : bool;      (* an item container shows up within 30 s *)
  height : Heights;             (* [document.body.scrollHeight] per round *)
  evaluate_fails : bool;        (* the page context is lost under [$$eval] *)
  elements : list Container     (* the item containers, in document order *)
}.

(** How the collaborators behave during one call of [POST]. *)
Record Scenario := {
  playlistUrl : option jsstring;       (* [playlistUrl] of the request body *)
  url_searchParams : option (list (jsstring * jsstring));
                                       (* [new URL(playlistUrl).searchParams],
                                          [None] when the constructor throws *)
  uuid : jsstring;                     (* [uuidv4()] *)
  open_fails : bool;                   (* [Dataset.open] rejects *)
  run_rejects : bool;                  (* [crawler.run] rejects *)
  attempt : nat -> Page;               (* the page of the n-th attempt *)
  handler_rounds : nat;                (* scroll rounds that fit in the
                                          crawler's time limit on a
                                          request handler *)
  getData_fails : bool;                (* [dataset.getData] rejects *)
  drop_fails : bool;                   (* [dataset.drop] of line 132 rejects *)
  drop_in_catch_fails : bool           (* [dataset.drop] of line 140 rejects *)
}.

(** [searchParams.get(name)]: the first value under [name]. *)
Fixpoint searchParams_get (name : jsstring) (params : list (jsstring * jsstring))
  : option jsstring :=
  match params with
  | [] => None
  | (k, v) :: rest => if jsstring_eqb k name then Some v else searchParams_get name rest
  end.

Definition new_URL (sc : Scenario) : M (list (jsstring * jsstring)) :=
  match url_searchParams sc with
  | Some params => ret params
  | None => throw InvalidURL
  end.

(** [Dataset.open(name)]: a dataset under a fresh name starts empty. *)
Definition Dataset_open (sc : Scenario) (name : jsstring) : M unit :=
  if open_fails sc then throw StorageError
  else fun st => (Returned tt, {| items := []; trace := trace st ++ [DatasetOpen name] |}).

(** [dataset.pushData({ videos })] appends one item. *)
Definition Dataset_pushData (videos : Batch) : M unit :=
  fun st => (Returned tt, {| items := items st ++ [videos];
                            trace := trace st ++ [DatasetPush videos] |}).

(** [dataset.getData()], of which the route uses [.items]. *)
Definition Dataset_getData (sc : Scenario) : M (list Batch) :=
  if getData_fails sc then throw StorageError
  else fun st => (Returned (items st),
                  {| items := items st; trace := trace st ++ [DatasetGetData] |}).

(** [dataset.drop()] removes the dataset and its items; a call that
    rejects leaves them where they are. *)
Definition Dataset_drop (rejects : bool) : M unit :=
  fun st =>
    if rejects
    then (Threw StorageError,
          {| items := items st; trace := trace st ++ [DatasetDrop] |})
    else (Returned tt, {| items := []; trace := trace st ++ [DatasetDrop] |}).

Definition item_selector : jsstring := js "#contents ytd-playlist-video-renderer".

(** [requestHandler] (route.ts, lines 47-101) on the page of one attempt. *)
Definition requestHandler (sc : Scenario) (url : jsstring) (page : Page) : M unit :=
  emit (LogInfo (js "Processing " ++ url ++ js "...")) ;;
  emit (WaitForSelector item_selector 30000) ;;
  (if selector_appears page then ret tt else throw TimeoutError) ;;
  match scroll_loop (handler_rounds sc) (height page) 0 with
  | None => throw HandlerTimeout
  | Some (evs, _) =>
      emit_all (map InPage evs) ;;
      videos <- (if evaluate_fails page then throw EvaluateError
                 else ret (extract_videos (elements page))) ;;
      emit (LogInfo (js "Found " ++ number_to_string (List.length videos)
                     ++ js " videos in the playlist")) ;;
      Dataset_pushData videos
  end.

(** [failedRequestHandler] (route.ts, lines 104-106): it logs. *)
Definition failedRequestHandler (url : jsstring) : M unit :=
  emit (LogError (js "Request " ++ url ++ js " failed too many times.")).

(** The crawler's default for [maxRequestRetries]; the route sets none.
    (Its [maxRequestsPerCrawl: 50] counts requests, and there is one.) *)
Definition maxRequestRetries : nat := 3.

(** The crawler working on its one request: it loads the page and calls
    [requestHandler]; an attempt that throws is retried while retries
    are left, and after the last one the crawler calls
    [failedRequestHandler] and carries on.  [n] is the attempt's number. *)
Fixpoint process_request (sc : Scenario) (url : jsstring)
         (retries_left n : nat) : M unit :=
  try_catch
    (emit (Navigate url) ;;
     (if navigation_fails (attempt sc n) then throw NavigationError else ret tt) ;;
     requestHandler sc url (attempt sc n))
    (fun _ =>
       match retries_left with
       | O => failedRequestHandler url
       | S r => process_request sc url r (S n)
       end).

(** [crawler.run([{ url, uniqueKey }])]. *)
Definition crawler_run (sc : Scenario) (url : jsstring) : M unit :=
  if run_rejects sc then throw CrawlerError
  else process_request sc url maxRequestRetries 0.

(* ================================================================== *)
(** * The route handler (route.ts, lines 17-146) *)
(* ================================================================== *)

Definition required_message : jsstring := js "Playlist URL is required".
Definition invalid_message : jsstring := js "Invalid playlist URL".
Definition scraping_message : jsstring :=
  js "An error occurred while scraping the playlist".

(** Lines 116-135: read the dataset back, build the response, drop the
    dataset. *)
Definition respond (sc : Scenario) : M Response :=
  results <- Dataset_getData sc ;;
  let videos := match results with
                | item :: _ => item
                | [] => []
                end in
  let graphData := graphData_of videos in
  let playlistData := {| videoList := videos; graphData := graphData |} in
  Dataset_drop (drop_fails sc) ;;
  ret (Success playlistData).

(** Lines 136-145. *)
Definition on_error (sc : Scenario) (error : Error) : M Response :=
  emit (ConsoleError (js "Crawling failed:") error) ;;
  Dataset_drop (drop_in_catch_fails sc) ;;
  ret (ErrorResponse 500 scraping_message).

Definition POST (sc : Scenario) : M Response :=
  match playlistUrl sc with
  | None | Some [] => ret (ErrorResponse 400 required_message)
  | Some url =>
      params <- new_URL sc ;;
      match searchParams_get (js "list") params with
      | None | Some [] => ret (ErrorResponse 400 invalid_message)
      | Some (_ :: _) =>
          Dataset_open sc (js "playlist-" ++ uuid sc) ;;
          try_catch (crawler_run sc url ;; respond sc) (on_error sc)
      end
  end.

(** A call of the route from a fresh state. *)
Definition run (sc : Scenario) : Outcome Response * State := POST sc initial_state.

(** Counting the dataset's events of a run. *)
Definition is_open (e : Event) : bool :=
  match e with DatasetOpen _ => true | _ => false end.
Definition is_drop (e : Event) : bool :=
  match e with DatasetDrop => true | _ => false end.
Definition opens (st : State) : nat := List.length (filter is_open (trace st)).
Definition drops (st : State) : nat := List.length (filter is_drop (trace st)).

(* ================================================================== *)
(** * Scenarios *)
(* ================================================================== *)

(** A page on which no item container ever shows up. *)
Definition page_without_items : Page :=
  {| navigation_fails := false; selector_appears := false;
     height := fun _ => 0; evaluate_fails := false; elements := [] |}.

(** A page with the given view texts, one container each, with neither
    title nor thumbnail, whose height settles after [settle] rounds. *)
Definition page_with_views (settle : nat) (texts : list jsstring) : Page :=
  {| navigation_fails := false; selector_appears := true;
     height := fun k => 1000 * Z.of_nat (Nat.min k settle);
     evaluate_fails := false;
     elements := map (fun t => {| video_title_text := None;
                                  video_info_text := Some t;
                                  img_src := None |}) texts |}.

(** [{ playlistUrl: "not a url" }]: [new URL] throws on it. *)
Definition scenario_unparseable_url : Scenario :=
  {| playlistUrl := Some (js "not a url");
     url_searchParams := None;
     uuid := js "6f1c2a9e-3b7d-4c58-9a10-2d4e8f0b7c11";
     open_fails := false; run_rejects := false;
     attempt := fun _ => page_without_items;
     handler_rounds := 25; getData_fails := false;
     drop_fails := false; drop_in_catch_fails := false |}.

(** [{ playlistUrl: "https://example.com/watch?v=x" }]. *)
Definition scenario_no_list_parameter : Scenario :=
  {| playlistUrl := Some (js "https://example.com/watch?v=x");
     url_searchParams := Some [(js "v", js "x")];
     uuid := js "6f1c2a9e-3b7d-4c58-9a10-2d4e8f0b7c11";
     open_fails := false; run_rejects := false;
     attempt := fun _ => page_without_items;
     handler_rounds := 25; getData_fails := false;
     drop_fails := false; drop_in_catch_fails := false |}.

(** A well-formed playlist URL whose every attempt finds [page]. *)
Definition scenario_on_page (page : Page) : Scenario :=
  {| playlistUrl := Some (js "https://www.youtube.com/playlist?list=PL123");
     url_searchParams := Some [(js "list", js "PL123")];
     uuid := js "6f1c2a9e-3b7d-4c58-9a10-2d4e8f0b7c11";
     open_fails := false; run_rejects := false;
     attempt := fun _ => page;
     handler_rounds := 25; getData_fails := false;
     drop_fails := false; drop_in_catch_fails := false |}.

(** No item container ever shows up: every attempt ends in the 30 s
    selector timeout. *)
Definition scenario_selector_timeout : Scenario :=
  scenario_on_page page_without_items.

(** A page of three items that settles after one round. *)
Definition scenario_three_videos : Scenario :=
  scenario_on_page (page_with_views 1 [js "1,000,000 views";
                                       js "500K views";
                                       js "10 views"]).

(** Three videos are found and read back, and the [drop] that follows
    the read-back rejects; [again] says whether the [drop] of the
    [catch] block rejects too. *)
Definition scenario_drop_rejects (again : bool) : Scenario :=
  {| playlistUrl := Some (js "https://www.youtube.com/playlist?list=PL123");
     url_searchParams := Some [(js "list", js "PL123")];
     uuid := js "6f1c2a9e-3b7d-4c58-9a10-2d4e8f0b7c11";
     open_fails := false; run_rejects := false;
     attempt := fun _ => page_with_views 1 [js "1,000,000 views";
                                            js "500K views";
                                            js "10 views"];
     handler_rounds := 25; getData_fails := false;
     drop_fails := true; drop_in_catch_fails := again |}.

(** The page does not load, shows no item container in time, or loses
    its context under the in-page script. *)
Definition page_fails (page : Page) : bool :=
  navigation_fails page || negb (selector_appears page) || evaluate_fails page.

(** A page height that grows for [n] rounds and then stays. *)
Definition ramp (n : nat) : Heights := fun k => Z.of_nat (Nat.min k n).

(** An event that neither opens nor drops a dataset. *)
Definition neutral (e : Event) : bool := negb (is_open e || is_drop e).

(** The state right after [Dataset.open] in a fresh call of the route. *)
Definition opened_state (sc : Scenario) : State :=
  {| items := []; trace := [DatasetOpen (js "playlist-" ++ uuid sc)] |}.

(** A dataset that holds two items at read-back. *)
Definition state_with_two_batches : State :=
  {| items := [ [ {| title := js "a"; views := of_Z 7; thumbnail := [] |} ];
                [ {| title := js "b"; views := of_Z 8; thumbnail := [] |};
                  {| title := js "c"; views := of_Z 9; thumbnail := [] |} ] ];
     trace := [DatasetOpen (js "playlist-6f1c2a9e-3b7d-4c58-9a10-2d4e8f0b7c11")] |}.

(** The data of a success response (empty for anything else). *)
Definition success_data (o : Outcome Response) : PlaylistData :=
  match o with
  | Returned (Success data) => data
  | _ => {| videoList := []; graphData := [] |}
  end.

(** A computation that only adds events which neither open nor drop a
    dataset. *)
Definition quiet {A} (c : M A) : Prop :=
  forall st, exists evs,
    trace (snd (c st)) = trace st ++ evs /\ forallb neutral evs = true.

(* ================================================================== *)
(** * Reading the numeral (route.ts, lines 81-88) *)
(* ================================================================== *)

(** The factor the suffix letter stands for. *)
Definition multiplier (c : code_unit) : Z :=
  let u := upper_unit c in
  if u =? 75 then 1000
  else if u =? 77 then 1000000
  else if u =? 66 then 1000000000
  else 1.

(** A digit or a grouping comma. *)
Definition is_grouped_digit (c : code_unit) : bool := is_digit c || (c =? 44).

(** The numeral has no digit where it is read: at its head for
    [parseInt], at its head or right after a leading dot for
    [parseFloat] (the numeral before a suffix). *)
Definition reads_no_number (v : jsstring) : bool :=
  if endsWith v 75 || endsWith v 77 || endsWith v 66 then
    match v with
    | c :: t =>
        negb (is_digit c) &&
        negb ((c =? 46) && match t with d :: _ => is_digit d | [] => false end)
    | [] => true
    end
  else
    match v with
    | c :: _ => negb (is_digit c)
    | [] => true
    end.

(** Whether [viewString] is read as a Number above zero.  Under a
    suffix [parseFloat] reads the digits, and the digits after a dot,
    as a decimal; it is above zero when it does not round to zero,
    which is when it exceeds 2^-1075, half the least positive Number.
    Without a suffix [parseInt] reads the leading digits. *)
Definition reads_positive (v : jsstring) : bool :=
  if endsWith v 75 || endsWith v 77 || endsWith v 66
  then let '(ip, r1) := span is_digit v in
       let fp := match r1 with
                 | c :: t => if c =? 46 then fst (span is_digit t) else []
                 | [] => []
                 end in
       10 ^ Z.of_nat (List.length fp) <? radix_value 10 (ip ++ fp) * 2 ^ 1075
  else existsb is_nonzero_digit (fst (span is_digit v)).

(* ================================================================== *)
(** * Measures of a run *)
(* ================================================================== *)

Definition is_scroll (e : PageEvent) : bool :=
  match e with ScrollTo _ _ => true | _ => false end.

(** The milliseconds the in-page script spent waiting. *)
Fixpoint slept (evs : list PageEvent) : Z :=
  match evs with
  | [] => 0
  | Sleep ms :: rest => ms + slept rest
  | _ :: rest => slept rest
  end.

(** The height the page was last scrolled to. *)
Fixpoint last_scroll (evs : list PageEvent) : option Z :=
  match evs with
  | [] => None
  | e :: rest =>
      match last_scroll rest, e with
      | Some y, _ => Some y
      | None, ScrollTo _ y => Some y
      | None, _ => None
      end
  end.

Definition is_push (e : Event) : bool :=
  match e with DatasetPush _ => true | _ => false end.
Definition is_navigate (e : Event) : bool :=
  match e with Navigate _ => true | _ => false end.
Definition pushes (evs : list Event) : nat := List.length (filter is_push evs).
Definition navigations (evs : list Event) : nat := List.length (filter is_navigate evs).

(** An attempt gets through [requestHandler]: the page loads, an item
    container shows up, the scroll loop ends within the handler's time
    and the extraction script runs. *)
Definition attempt_succeeds (sc : Scenario) (page : Page) : bool :=
  negb (navigation_fails page) && selector_appears page &&
  match scroll_loop (handler_rounds sc) (height page) 0 with
  | Some _ => true
  | None => false
  end &&
  negb (evaluate_fails page).

(** The number of the first attempt that succeeds, among attempt [n]
    and the [retries_left] after it. *)
Fixpoint first_success (sc : Scenario) (retries_left n : nat) : option nat :=
  if attempt_succeeds sc (attempt sc n) then Some n
  else match retries_left with
       | O => None
       | S r => first_success sc r (S n)
       end.

(** The locator passes lines 19-37: [playlistUrl] is a non-empty string
    that [new URL] accepts and whose first [list] parameter is not
    empty. *)
Definition valid_locator (sc : Scenario) : bool :=
  match playlistUrl sc, url_searchParams sc with
  | Some (_ :: _), Some params =>
      match searchParams_get (js "list") params with
      | Some (_ :: _) => true
      | _ => false
      end
  | _, _ => false
  end.

(** The items of the dataset after a crawl that resolved: the batch of
    the first successful attempt, none when all fail. *)
Definition crawled_items (sc : Scenario) : list Batch :=
  match first_success sc maxRequestRetries 0 with
  | Some k => [extract_videos (elements (attempt sc k))]
  | None => []
  end.

(** The videos of the first successful attempt, none when all fail. *)
Definition crawled_videos (sc : Scenario) : list VideoData :=
  match first_success sc maxRequestRetries 0 with
  | Some k => extract_videos (elements (attempt sc k))
  | None => []
  end.


(* ================================================================== *)
(** * The page (page.tsx) *)
(* ================================================================== *)

(** What is left of a Number after [JSON.stringify] and [JSON.parse],
    the way it travels in the body of a reply: NaN and the infinities
    are written as [null], -0 as [0], and every other Number is read
    back as it was. *)
Definition json_number (x : number) : option number :=
  match x with
  | S754_nan | S754_infinity _ => None
  | S754_zero _ => Some (S754_zero false)
  | S754_finite _ _ _ => Some x
  end.

(** ** Numbers as text: what [formatViews] builds on *)

(** [x / y] on Numbers. *)
Definition num_div (x y : number) : number := SFdiv prec emax x y.

(** [x >= y] on Numbers: false when either is NaN. *)
Definition num_ge (x y : number) : bool := SFleb y x.

(** The decimal digits of a non-negative integer, most significant
    first; [fuel] bounds their number. *)
Fixpoint digits_from (fuel : nat) (n : Z) (acc : jsstring) : jsstring :=
  match fuel with
  | O => acc
  | S fuel' =>
      let acc' := (48 + n mod 10) :: acc in
      if n <? 10 then acc' else digits_from fuel' (n / 10) acc'
  end.

Definition digits_of (n : Z) : jsstring :=
  digits_from (S (Z.to_nat (Z.log2 n))) n [].

Definition zeros (n : Z) : jsstring := repeat 48 (Z.to_nat n).

(** The positive value [m * 2^e] divided by [10^q], as a fraction. *)
Definition scaled (m : positive) (e q : Z) : Z * Z :=
  (Zpos m * 2 ^ Z.max e 0 * 10 ^ Z.max (- q) 0,
   2 ^ Z.max (- e) 0 * 10 ^ Z.max q 0).

(** The [p] with [10^(p-1) <= m * 2^e < 10^p]: the number of digits
    before the decimal point.  It is looked for next to the estimate
    that the binary exponent gives. *)
Definition decimal_exponent (m : positive) (e : Z) : Z :=
  let estimate := (Zpos (digits2_pos m) + e) * 30103 / 100000 in
  let fits p := let '(num, den) := scaled m e (p - 1) in
                (den <=? num) && (num <? 10 * den) in
  match find fits [estimate - 1; estimate; estimate + 1; estimate + 2] with
  | Some p => p
  | None => estimate
  end.

(** A candidate [s * 10^q] for the digits of [m * 2^e]: [s] has [k]
    digits and the candidate reads back as the same Number. *)
Definition reads_back (m : positive) (e : Z) (k s q : Z) : bool :=
  (10 ^ (k - 1) <=? s) && (s <? 10 ^ k) &&
  SFeqb (decimal_value false s q) (S754_finite false m e).

(** The candidates with [k] digits, each with its distance to
    [m * 2^e] in units of [10^(p-k)] over a common denominator. *)
Definition candidates (m : positive) (e : Z) (p k : Z) : list (Z * Z * Z) :=
  let q := p - k in
  let '(num, den) := scaled m e q in
  let low := num / den in
  let near := [(low, q, Z.abs (low * den - num));
               (low + 1, q, Z.abs ((low + 1) * den - num))] in
  let '(num', den') := scaled m e (q + 1) in
  let low' := num' / den' in
  let far := [(low', q + 1, Z.abs (low' * 10 * den - num));
              (low' + 1, q + 1, Z.abs ((low' + 1) * 10 * den - num))] in
  filter (fun c => let '(s, q', _) := c in reads_back m e k s q') (near ++ far).

(** Of two candidates the closer one, and the even one when they are
    as close. *)
Definition closer (a b : Z * Z * Z) : Z * Z * Z :=
  let '(sa, _, da) := a in
  let '(sb, _, db) := b in
  if da <? db then a
  else if db <? da then b
  else if Z.even sa then a else b.

(** The shortest digits that read back as [m * 2^e]: [(s, k, n)] with
    [s] of [k] digits and the value [s * 10^(n-k)], [k] as small as
    possible and then [s] as close to the value as possible. *)
Fixpoint shortest_from (fuel : nat) (m : positive) (e p k : Z) : Z * Z * Z :=
  match candidates m e p k with
  | c :: rest =>
      let '(s, q, _) := fold_left closer rest c in (s, k, q + k)
  | [] =>
      match fuel with
      | O => (0, k, p)
      | S fuel' => shortest_from fuel' m e p (k + 1)
      end
  end.

Definition shortest (m : positive) (e : Z) : Z * Z * Z :=
  shortest_from 17 m e (decimal_exponent m e) 1.

(** [Number::toString] in radix 10. *)
Definition Number_toString (x : number) : jsstring :=
  match x with
  | S754_nan => js "NaN"
  | S754_zero _ => js "0"
  | S754_infinity s => (if s then js "-" else []) ++ js "Infinity"
  | S754_finite s m e =>
      let '(digits, k, n) := shortest m e in
      let d := digits_of digits in
      (if s then js "-" else []) ++
      (if (-5 <=? n) && (n <=? 21)
       then if k <=? n then d ++ zeros (n - k)
            else if 0 <? n
                 then firstn (Z.to_nat n) d ++ js "." ++ skipn (Z.to_nat n) d
                 else js "0." ++ zeros (- n) ++ d
       else let exponent := (if n - 1 <? 0 then js "-" else js "+")
                            ++ digits_of (Z.abs (n - 1)) in
            if k =? 1 then d ++ js "e" ++ exponent
            else firstn 1 d ++ js "." ++ skipn 1 d ++ js "e" ++ exponent)
  end.

(** The digits of [n] with a point before the last [f] of them, zeros
    put in front when there are not more than [f]. *)
Definition point_before (f : Z) (n : Z) : jsstring :=
  let m := digits_of n in
  if f =? 0 then m
  else
    let k := Z.of_nat (List.length m) in
    let m := if k <=? f then zeros (f + 1 - k) ++ m else m in
    let k := Z.of_nat (List.length m) in
    firstn (Z.to_nat (k - f)) m ++ js "." ++ skipn (Z.to_nat (k - f)) m.

(** The integer nearest to [m * 2^e * 10^f], the larger one of two. *)
Definition nearest_scaled (m : positive) (e f : Z) : Z :=
  let '(num, den) := scaled m e (- f) in
  (2 * num + den) / (2 * den).

(** [Number.prototype.toFixed] for [0 <= fractionDigits <= 100]. *)
Definition toFixed (fractionDigits : Z) (x : number) : jsstring :=
  match x with
  | S754_finite s m e =>
      (if s then js "-" else []) ++
      (let '(num, den) := scaled m e 21 in
       if den <=? num
       then Number_toString (S754_finite false m e)
       else point_before fractionDigits (nearest_scaled m e fractionDigits))
  | S754_zero _ => point_before fractionDigits 0
  | _ => Number_toString x
  end.

Module Home.

(** The interfaces of lines 25-35, with [views] as it comes out of the
    JSON body: [None] is [null]. *)
Record VideoData := {
  title : jsstring;
  views : option number;
  thumbnail : jsstring
}.

Record GraphData := {
  name : jsstring;
  graph_views : option number
}.

(** The four [useState] cells of lines 40-49.  [data] of line 73 is
    untyped, so the two lists hold whatever the body had under
    [videoList] and [graphData]: [None] is [undefined]. *)
Record State := {
  playlistUrl : jsstring;
  videoData : option (list VideoData);
  graphData : option (list GraphData);
  isLoading : bool
}.

Definition initial : State :=
  {| playlistUrl := []; videoData := Some []; graphData := Some [];
     isLoading := false |}.










(** [ToNumber] of what the body gave for [views]: [null] counts as 0. *)
Definition to_number (views : option number) : number :=
  match views with
  | Some x => x
  | None => S754_zero false
  end.

(** Lines 85-93.  [None] is the [TypeError] of [null.toString()]. *)
Definition formatViews (views : option number) : option jsstring :=
  if num_ge (to_number views) (of_Z 1000000)
  then Some (toFixed 1 (num_div (to_number views) (of_Z 1000000)) ++ js "M")
  else if num_ge (to_number views) (of_Z 1000)
       then Some (toFixed 1 (num_div (to_number views) (of_Z 1000)) ++ js "K")
       else option_map Number_toString views.




End Home.

(** ** The page against the route *)

(** A video and a graph point as the page reads them out of the body. *)
Definition receive_video (v : VideoData) : Home.VideoData :=
  {| Home.title := title v; Home.views := json_number (views v);
     Home.thumbnail := thumbnail v |}.






(* ================================================================== *)
(** * Facts about strings and the pattern *)
(* ================================================================== *)

Lemma span_app (p : code_unit -> bool) (s : jsstring) :
  fst (span p s) ++ snd (span p s) = s.
Proof.
  induction s as [|c t IH]; simpl; [reflexivity|].
  destruct (p c); simpl; [|reflexivity].
  destruct (span p t) as [a b]; simpl in *. now rewrite IH.
Qed.

Section RegexFacts.
Context {R : Type}.
Implicit Types (k : jsstring -> jsstring -> option R).

  (** What a successful [c*] has done. *)
Lemma class_star_sound p acc s k r :
    class_star p acc s k = Some r ->
    exists a rest, s = a ++ rest /\ forallb p a = true /\ k (acc ++ a) rest = Some r.
Proof.
    revert acc. induction s as [|c t IH]; intros acc H; simpl in H.
    - exists [], []. repeat split; rewrite ?app_nil_r; auto.
    - destruct (p c) eqn:Hc.
      + destruct (class_star p (acc ++ [c]) t k) as [r'|] eqn:Hs.
        * injection H as <-.
          destruct (IH _ Hs) as (a & rest & -> & Ha & Hk).
          exists (c :: a), rest. simpl. rewrite Hc, Ha.
          rewrite <- app_assoc in Hk. simpl in Hk.
          repeat split. exact Hk.
        * exists [], (c :: t). repeat split; rewrite ?app_nil_r; auto.
      + exists [], (c :: t). repeat split; rewrite ?app_nil_r; auto.
Qed.

Lemma class_plus_sound p s k r :
    class_plus p s k = Some r ->
    exists a rest, s = a ++ rest /\ a <> [] /\ forallb p a = true /\ k a rest = Some r.
Proof.
    destruct s as [|c t]; simpl; [discriminate|].
    destruct (p c) eqn:Hc; [|discriminate].
    intros H. destruct (class_star_sound _ _ _ _ _ H) as (a & rest & -> & Ha & Hk).
    exists (c :: a), rest. simpl in *. rewrite Hc, Ha. repeat split; congruence.
Qed.

Lemma class_opt_sound p s k r :
    class_opt p s k = Some r ->
    exists a rest, s = a ++ rest /\
                   (a = [] \/ exists c, a = [c] /\ p c = true) /\
                   k a rest = Some r.
Proof.
    destruct s as [|c t]; simpl.
    - intros H. exists [], []. auto.
    - destruct (p c) eqn:Hc.
      + destruct (k [c] t) as [r'|] eqn:Hk.
        * intros [= <-]. exists [c], t. repeat split; eauto.
        * intros H. exists [], (c :: t). auto.
      + intros H. exists [], (c :: t). auto.
Qed.

  (** The greedy [c*] takes the whole run of the class when what
      follows the run lets the rest of the pattern match. *)
Lemma class_star_greedy p acc a rest k r :
    forallb p a = true ->
    k (acc ++ a) rest = Some r ->
    match rest with [] => True | c :: _ => p c = false end ->
    class_star p acc (a ++ rest) k = Some r.
Proof.
    revert acc. induction a as [|c a IH]; intros acc Ha Hk Hrest; simpl.
    - rewrite app_nil_r in Hk. destruct rest as [|c t]; simpl; [exact Hk|].
      now rewrite Hrest.
    - simpl in Ha. apply andb_prop in Ha as [Hc Ha]. rewrite Hc.
      rewrite (IH (acc ++ [c]) Ha); [reflexivity| |exact Hrest].
      rewrite <- app_assoc. exact Hk.
Qed.

Lemma class_plus_greedy p a rest k r :
    a <> [] ->
    forallb p a = true ->
    k a rest = Some r ->
    match rest with [] => True | c :: _ => p c = false end ->
    class_plus p (a ++ rest) k = Some r.
Proof.
    destruct a as [|c a]; [congruence|]. intros _ Ha Hk Hrest. simpl in *.
    apply andb_prop in Ha as [Hc Ha]. rewrite Hc.
    now apply class_star_greedy.
Qed.
End RegexFacts.

(** The shape of the first capture group: a non-empty run of digits,
    commas and dots, then at most one of [KMB] in either case. *)
Lemma viewsMatch_group_shape (text g : jsstring) :
  viewsMatch text = Some g ->
  exists ds sfx,
    g = ds ++ sfx /\ ds <> [] /\ forallb is_count_char ds = true /\
    (sfx = [] \/ exists c, sfx = [c] /\ is_suffix_char c = true).
Proof.
  unfold viewsMatch. intros H.
  apply class_plus_sound in H as (ds & r1 & _ & Hne & Hds & H).
  apply class_opt_sound in H as (sfx & r2 & _ & Hsfx & H).
  apply class_star_sound in H as (sp & r3 & _ & _ & H).
  assert (Hg : g = ds ++ sfx).
  { revert H. generalize (js "VIEW"). intros lit. revert r3.
    induction lit as [|l lit IH]; intros r3 H; simpl in H.
    - apply class_opt_sound in H as (a & r5 & _ & _ & H).
      destruct r5; [congruence|discriminate].
    - destruct r3 as [|c t]; [discriminate|].
      destruct (upper_unit c =? l); [eauto|discriminate]. }
  exists ds, sfx. auto.
Qed.

(* ================================================================== *)
(** * Facts about rounding *)
(* ================================================================== *)

Lemma has_sign_false (x : number) :
  has_sign false x <-> x = NaN \/ nonnegative x = true.
Proof.
  destruct x as [b|b| |b m e]; simpl; unfold NaN;
    try (destruct b; simpl); split; intros; auto; try discriminate;
    try (destruct H; discriminate).
Qed.

Lemma round_aux_sign s m e l : has_sign s (binary_round_aux prec emax s m e l).
Proof.
  unfold binary_round_aux.
  destruct (shr_fexp prec emax m e l) as [mrs' e'].
  destruct (shr_fexp prec emax _ e' loc_Exact) as [mrs'' e''].
  destruct (shr_m mrs''); simpl; auto.
  all: destruct (_ <=? _); simpl; auto.
Qed.

Lemma shr_exponent mrs e n : e <= snd (shr mrs e n).
Proof. destruct n; simpl; lia. Qed.

(** Rounding never lowers the exponent it is given. *)
Lemma round_aux_exponent s m e l s' m' e' :
  binary_round_aux prec emax s m e l = S754_finite s' m' e' -> e <= e'.
Proof.
  unfold binary_round_aux, shr_fexp.
  set (n1 := fexp prec emax (Zdigits2 m + e) - e).
  pose proof (shr_exponent (shr_record_of_loc m l) e n1) as H1.
  destruct (shr (shr_record_of_loc m l) e n1) as [mrs' e1]. simpl in H1.
  set (m1 := round_nearest_even (shr_m mrs') (loc_of_shr_record mrs')).
  set (n2 := fexp prec emax (Zdigits2 m1 + e1) - e1).
  pose proof (shr_exponent (shr_record_of_loc m1 loc_Exact) e1 n2) as H2.
  destruct (shr (shr_record_of_loc m1 loc_Exact) e1 n2) as [mrs'' e2]. simpl in H2.
  destruct (shr_m mrs''); try discriminate.
  destruct (e2 <=? emax - prec); try discriminate.
  intros [= _ _ <-]. lia.
Qed.

(** A mantissa that already fits the format is kept as it is. *)
Lemma round_aux_canonical s m e :
  fexp prec emax (Zpos (digits2_pos m) + e) = e ->
  e <= emax - prec ->
  binary_round_aux prec emax s (Zpos m) e loc_Exact = S754_finite s m e.
Proof.
  intros Hc He. unfold binary_round_aux, shr_fexp.
  change (Zdigits2 (Zpos m)) with (Zpos (digits2_pos m)).
  rewrite Hc, Z.sub_diag. cbn [shr shr_record_of_loc shr_m loc_of_shr_record round_nearest_even].
  change (Zdigits2 (Zpos m)) with (Zpos (digits2_pos m)).
  rewrite Hc, Z.sub_diag. cbn [shr shr_record_of_loc shr_m].
  apply Z.leb_le in He. now rewrite He.
Qed.

Lemma iter_xO_value (p k : positive) :
  Zpos (Pos.iter xO p k) = Zpos p * 2 ^ Zpos k.
Proof.
  induction k as [|k IH] using Pos.peano_ind.
  - simpl. lia.
  - rewrite Pos.iter_succ. rewrite Pos2Z.inj_succ, Z.pow_succ_r by lia.
    rewrite Pos2Z.inj_xO, IH. lia.
Qed.

Lemma iter_xO_digits (p k : positive) :
  Zpos (digits2_pos (Pos.iter xO p k)) = Zpos (digits2_pos p) + Zpos k.
Proof.
  induction k as [|k IH] using Pos.peano_ind.
  - simpl. lia.
  - rewrite Pos.iter_succ. simpl digits2_pos. lia.
Qed.

Lemma digits2_pos_bounds (p : positive) :
  2 ^ (Zpos (digits2_pos p) - 1) <= Zpos p < 2 ^ Zpos (digits2_pos p).
Proof.
  induction p as [p IH|p IH|]; simpl digits2_pos.
  - rewrite Pos2Z.inj_succ, Z.pow_succ_r by lia.
    replace (Z.succ (Zpos (digits2_pos p)) - 1) with (Z.succ (Zpos (digits2_pos p) - 1)) by lia.
    rewrite Z.pow_succ_r by lia. lia.
  - rewrite Pos2Z.inj_succ, Z.pow_succ_r by lia.
    replace (Z.succ (Zpos (digits2_pos p)) - 1) with (Z.succ (Zpos (digits2_pos p) - 1)) by lia.
    rewrite Z.pow_succ_r by lia. lia.
  - simpl. lia.
Qed.

(** The Number of a positive integer is that integer, a larger
    integer-valued double, or [Infinity]. *)
Lemma round_integer s (p : positive) :
  let x := binary_round prec emax s p 0 in
  has_sign s x /\ (x = S754_infinity s \/ x = NaN \/ is_integer x = true).
Proof.
  unfold binary_round, shl_align. cbv zeta.
  destruct (fexp prec emax (Zpos (digits2_pos p) + 0) - 0) as [|d|d] eqn:Hd.
  - split; [apply round_aux_sign|].
    destruct (binary_round_aux prec emax s (Zpos p) 0 loc_Exact) as [b|b| |b m e] eqn:Hr;
      unfold NaN; auto.
    + pose proof (round_aux_sign s (Zpos p) 0 loc_Exact) as Hs. rewrite Hr in Hs.
      simpl in Hs. subst b. auto.
    + apply round_aux_exponent in Hr. right; right. simpl.
      apply Z.leb_le in Hr. now rewrite Hr.
  - split; [apply round_aux_sign|].
    destruct (binary_round_aux prec emax s (Zpos p) 0 loc_Exact) as [b|b| |b m e] eqn:Hr;
      unfold NaN; auto.
    + pose proof (round_aux_sign s (Zpos p) 0 loc_Exact) as Hs. rewrite Hr in Hs.
      simpl in Hs. subst b. auto.
    + apply round_aux_exponent in Hr. right; right. simpl.
      apply Z.leb_le in Hr. now rewrite Hr.
  - assert (Hf : fexp prec emax (Zpos (digits2_pos p) + 0) = Zneg d) by lia.
    rewrite Hf.
    assert (He : Zpos (digits2_pos p) - 53 = Zneg d)
      by (unfold fexp, emin, prec, emax in Hf; lia).
    rewrite round_aux_canonical.
    + split; [reflexivity|]. right; right.
      unfold is_integer. change (0 <=? Zneg d) with false. cbv iota.
      change (- Zneg d) with (Zpos d).
      rewrite iter_xO_value, Z.mod_mul by lia. reflexivity.
    + rewrite iter_xO_digits. unfold fexp, emin, prec, emax. lia.
    + unfold fexp, emin, prec, emax. lia.
Qed.

Lemma decimal_value_sign neg n k : has_sign neg (decimal_value neg n k).
Proof.
  unfold decimal_value. destruct n as [|p|p]; simpl; auto.
  destruct (0 <=? k).
  - apply round_integer.
  - unfold SFdiv.
    destruct (SFdiv_core_binary prec emax (Zpos p) 0 (Zpos (Z.to_pos (10 ^ (- k)))) 0)
      as [[mz ez] lz].
    rewrite xorb_false_r. apply round_aux_sign.
Qed.

Lemma num_mul_sign x m e :
  has_sign false x -> has_sign false (num_mul x (S754_finite false m e)).
Proof.
  destruct x as [b|b| |b mx ex]; simpl; auto; intros ->; simpl; auto.
  apply round_aux_sign.
Qed.

Lemma of_Z_literals :
  of_Z 0 = S754_zero false /\
  of_Z 1000 = S754_finite false 8796093022208000 (-43) /\
  of_Z 1000000 = S754_finite false 8589934592000000 (-33) /\
  of_Z 1000000000 = S754_finite false 8388608000000000 (-23).
Proof. repeat split; reflexivity. Qed.

(* ================================================================== *)
(** * Facts about the parsed numeral *)
(* ================================================================== *)

Lemma viewString_alphabet (text g : jsstring) :
  viewsMatch text = Some g ->
  forall c, In c (remove_commas (toUpperCase g)) -> is_view_char c = true.
Proof.
  intros H c Hc. apply viewsMatch_group_shape in H as (ds & sfx & -> & _ & Hds & Hsfx).
  unfold remove_commas, toUpperCase in Hc.
  apply filter_In in Hc as [Hc Hcomma]. apply in_map_iff in Hc as (c0 & <- & Hc0).
  apply in_app_or in Hc0 as [Hc0|Hc0].
  - rewrite forallb_forall in Hds. specialize (Hds _ Hc0).
    unfold is_count_char, is_digit in Hds.
    unfold is_view_char, is_digit, upper_unit in *.
    destruct ((97 <=? c0) && (c0 <=? 122)) eqn:Hl; lia.
  - destruct Hsfx as [->|(c1 & -> & Hc1)]; [destruct Hc0|].
    destruct Hc0 as [<-|[]]. unfold is_suffix_char in Hc1.
    unfold is_view_char. lia.
Qed.

Lemma view_char_head (c : code_unit) :
  is_view_char c = true ->
  is_space c = false /\ (c =? 45) = false /\ (c =? 43) = false /\
  (73 =? c) = false /\ (c =? 120) = false /\ (c =? 88) = false /\
  (c =? 101) = false /\ (c =? 69) = false.
Proof. unfold is_view_char, is_digit, is_space. lia. Qed.

Lemma parseFloat_sign (s : jsstring) :
  (forall c, In c s -> is_view_char c = true) -> has_sign false (parseFloat s).
Proof.
  intros Hs. unfold parseFloat, trim_start.
  destruct s as [|c t]; [simpl; exact I|].
  destruct (view_char_head c (Hs c (or_introl eq_refl)))
    as (Hsp & Hm & Hp & Hi & _).
  cbn [span]. rewrite Hsp. cbn [snd strip_sign]. rewrite Hm, Hp.
  change (starts_with (js "Infinity") (c :: t)) with
    ((73 =? c) && starts_with (js "nfinity") t).
  rewrite Hi. cbn [andb].
  destruct (span is_digit (c :: t)) as [ip r1].
  destruct (match r1 with
            | [] => ([], [])
            | c0 :: t0 => if c0 =? 46 then span is_digit t0 else ([], r1)
            end) as [fp r2].
  destruct (ip ++ fp); [exact I|]. apply decimal_value_sign.
Qed.

Lemma parseInt_view (s : jsstring) :
  (forall c, In c s -> is_view_char c = true) ->
  parseInt s = match fst (span (is_radix_digit 10) s) with
               | [] => NaN
               | z => decimal_value false (radix_value 10 z) 0
               end.
Proof.
  intros Hs. unfold parseInt, trim_start.
  destruct s as [|c t]; [reflexivity|].
  destruct (view_char_head c (Hs c (or_introl eq_refl)))
    as (Hsp & Hm & Hp & _).
  cbn [span]. rewrite Hsp. cbn [snd strip_sign]. rewrite Hm, Hp.
  destruct t as [|c1 t0]; [reflexivity|].
  destruct (view_char_head c1 (Hs c1 (or_intror (or_introl eq_refl))))
    as (_ & _ & _ & _ & Hx & HX & _).
  rewrite Hx, HX, andb_false_r. reflexivity.
Qed.

Lemma parseInt_shape (s : jsstring) :
  (forall c, In c s -> is_view_char c = true) ->
  parseInt s = NaN \/ parseInt s = S754_infinity false \/
  nonneg_integer (parseInt s) = true.
Proof.
  intros Hs. rewrite (parseInt_view s Hs).
  destruct (fst (span (is_radix_digit 10) s)) as [|d ds]; [now left|].
  unfold decimal_value.
  destruct (radix_value 10 (d :: ds)) as [|p|p]; [now right; right| |now right; right].
  change (0 <=? 0) with true. cbv iota.
  destruct (round_integer false (p * Z.to_pos (10 ^ 0))) as [Hsg [Hi|[Hi|Hi]]]; auto.
  right; right. unfold nonneg_integer. rewrite Hi, andb_true_r.
  destruct (binary_round prec emax false (p * Z.to_pos (10 ^ 0)) 0) as [b|b| |b m e];
    simpl in *; subst; try reflexivity; discriminate.
Qed.

(* ================================================================== *)
(** * The normalizer *)
(* ================================================================== *)

Lemma normalize_sign (text : jsstring) : has_sign false (normalize text).
Proof.
  unfold normalize. destruct (viewsMatch text) as [g|] eqn:Hm; [|exact eq_refl].
  pose proof (viewString_alphabet _ _ Hm) as Hv.
  destruct of_Z_literals as (_ & -> & -> & ->).
  repeat match goal with
         | |- context [if ?b then _ else _] => destruct b
         end;
    try (apply num_mul_sign, parseFloat_sign, Hv).
  destruct (parseInt_shape _ Hv) as [->|[->|H]]; simpl; auto.
  unfold nonneg_integer in H. apply andb_prop in H as [H _].
  apply has_sign_false. now right.
Qed.

(** C1. The documented examples of the view-count normalizer:
    "1,234 views" gives 1234, "1.5M views" gives 1500000, "200K views"
    gives 200000 and "3 VIEWS" gives 3; "no data" and the empty string
    do not match the pattern and give 0; and every text the pattern
    does not match gives 0.  The normalizer is a total function: there
    is no input on which it fails. *)
Theorem normalize_examples_and_fallback :
  normalize (js "1,234 views") = of_Z 1234 /\
  normalize (js "1.5M views") = of_Z 1500000 /\
  normalize (js "200K views") = of_Z 200000 /\
  normalize (js "3 VIEWS") = of_Z 3 /\
  (viewsMatch (js "no data") = None /\ normalize (js "no data") = of_Z 0) /\
  (viewsMatch (js "") = None /\ normalize (js "") = of_Z 0) /\
  (forall text, viewsMatch text = None -> normalize text = of_Z 0).
Proof.
  do 4 (split; [vm_compute; reflexivity|]).
  split; [split; vm_compute; reflexivity|].
  split; [split; vm_compute; reflexivity|].
  intros text H. unfold normalize. now rewrite H.
Qed.

Lemma normalize_examples_and_fallback_witness :
  viewsMatch (js "12 likes") = None /\ normalize (js "12 likes") = of_Z 0.
Proof.
  split; [reflexivity|].
  apply (proj2 (proj2 (proj2 (proj2 (proj2 (proj2
           normalize_examples_and_fallback)))))).
  reflexivity.
Defined.




(* ================================================================== *)
(** * Rounding a positive value *)
(* ================================================================== *)

Lemma shr_1_m mrs : 0 <= shr_m mrs -> shr_m (shr_1 mrs) = shr_m mrs / 2.
Proof.
  destruct mrs as [m r s]. cbn [shr_m]. intros Hm.
  rewrite <- Z.div2_div.
  destruct m as [|[p|p|]|p]; try reflexivity; lia.
Qed.

Lemma iter_shr_m (p : positive) :
  forall mrs, 0 <= shr_m mrs ->
              shr_m (iter_pos shr_1 p mrs) = shr_m mrs / 2 ^ Zpos p.
Proof.
  induction p as [p IH|p IH|]; intros mrs Hm; cbn [iter_pos].
  - assert (H1 : 0 <= shr_m (shr_1 mrs))
      by (rewrite shr_1_m by exact Hm; apply Z.div_pos; lia).
    assert (H2 : 0 <= shr_m (iter_pos shr_1 p (shr_1 mrs)))
      by (rewrite IH by exact H1; apply Z.div_pos; lia).
    rewrite IH, IH, shr_1_m by assumption.
    rewrite !Z.div_div by lia. f_equal.
    replace (Zpos p~1) with (Zpos p + Zpos p + 1) by lia.
    rewrite !Z.pow_add_r by lia. change (2 ^ 1) with 2. ring.
  - assert (H2 : 0 <= shr_m (iter_pos shr_1 p mrs))
      by (rewrite IH by exact Hm; apply Z.div_pos; lia).
    rewrite IH, IH by assumption.
    rewrite Z.div_div by lia. f_equal.
    replace (Zpos p~0) with (Zpos p + Zpos p) by lia.
    rewrite Z.pow_add_r by lia. ring.
  - rewrite shr_1_m by exact Hm. reflexivity.
Qed.

Lemma shr_m_of_loc m l : shr_m (shr_record_of_loc m l) = m.
Proof. destruct l as [|[]]; reflexivity. Qed.

Lemma round_nearest_even_ge m l : m <= round_nearest_even m l.
Proof.
  destruct l as [|[]]; cbn [round_nearest_even]; try lia.
  destruct (Z.even m); lia.
Qed.

(** Above the smallest exponent, shifting a positive mantissa into the
    format keeps it positive. *)
Lemma shr_fexp_positive (m : positive) e l :
  -1074 <= e ->
  0 < shr_m (fst (shr_fexp prec emax (Zpos m) e l)) /\
  e <= snd (shr_fexp prec emax (Zpos m) e l).
Proof.
  intros He. unfold shr_fexp, shr.
  change (Zdigits2 (Zpos m)) with (Zpos (digits2_pos m)).
  destruct (fexp prec emax (Zpos (digits2_pos m) + e) - e) as [|n|n] eqn:Hn;
    cbn [fst snd]; rewrite ?shr_m_of_loc; try lia.
  split; [|lia].
  rewrite iter_shr_m by (rewrite shr_m_of_loc; lia). rewrite shr_m_of_loc.
  assert (Hd : Zpos n = Zpos (digits2_pos m) - 53)
    by (unfold fexp, emin, prec, emax in Hn; lia).
  pose proof (digits2_pos_bounds m) as [Hlo _].
  apply Z.lt_le_trans with (2 ^ 52); [reflexivity|].
  apply Z.div_le_lower_bound; [lia|].
  rewrite <- Z.pow_add_r by lia.
  now replace (Zpos n + 52) with (Zpos (digits2_pos m) - 1) by lia.
Qed.

(** Rounding a positive mantissa at an exponent above the smallest one
    gives a positive finite Number, of no lower exponent, or Infinity. *)
Lemma round_aux_positive (m : positive) e l :
  -1074 <= e ->
  binary_round_aux prec emax false (Zpos m) e l = S754_infinity false \/
  exists m' e', binary_round_aux prec emax false (Zpos m) e l = S754_finite false m' e'
                /\ e <= e'.
Proof.
  intros He. unfold binary_round_aux.
  pose proof (shr_fexp_positive m e l He) as [Hm1 He1].
  destruct (shr_fexp prec emax (Zpos m) e l) as [mrs' e1]. cbn [fst snd] in *.
  pose proof (round_nearest_even_ge (shr_m mrs') (loc_of_shr_record mrs')) as Hr.
  destruct (round_nearest_even (shr_m mrs') (loc_of_shr_record mrs')) as [|m1|m1];
    try lia.
  pose proof (shr_fexp_positive m1 e1 loc_Exact ltac:(lia)) as [Hm2 He2].
  destruct (shr_fexp prec emax (Zpos m1) e1 loc_Exact) as [mrs'' e2].
  cbn [fst snd] in *.
  destruct (shr_m mrs'') as [|m2|m2]; try lia.
  destruct (e2 <=? emax - prec); [right|left; reflexivity].
  exists m2, e2. split; [reflexivity|lia].
Qed.

Lemma positive_above_positive lo x : positive_above lo x -> positive_number x = true.
Proof. intros [->|(m & e & -> & _)]; reflexivity. Qed.

Lemma round_positive_integer (p : positive) :
  positive_above (-52) (binary_round prec emax false p 0).
Proof.
  unfold binary_round, shl_align.
  assert (Hf : -52 <= fexp prec emax (Zpos (digits2_pos p) + 0))
    by (unfold fexp, emin, prec, emax; lia).
  destruct (fexp prec emax (Zpos (digits2_pos p) + 0) - 0) as [|d|d] eqn:Hd.
  - destruct (round_aux_positive p 0 loc_Exact ltac:(lia)) as [H|(m & e & H & He)];
      [now left|right]. exists m, e. split; [exact H|lia].
  - destruct (round_aux_positive p 0 loc_Exact ltac:(lia)) as [H|(m & e & H & He)];
      [now left|right]. exists m, e. split; [exact H|lia].
  - destruct (round_aux_positive (Pos.iter xO p d)
                (fexp prec emax (Zpos (digits2_pos p) + 0)) loc_Exact ltac:(lia))
      as [H|(m & e & H & He)]; [now left|right].
    exists m, e. split; [exact H|lia].
Qed.

Lemma digits2_pos_monotone (a b : positive) :
  (a <= b)%positive -> Zpos (digits2_pos a) <= Zpos (digits2_pos b).
Proof.
  intros Hab. pose proof (digits2_pos_bounds a) as [Ha _].
  pose proof (digits2_pos_bounds b) as [_ Hb].
  assert (H : 2 ^ (Zpos (digits2_pos a) - 1) < 2 ^ Zpos (digits2_pos b)) by lia.
  apply Z.pow_lt_mono_r_iff in H; lia.
Qed.

(** A quotient of at least 1 rounds to a positive Number. *)
Lemma div_positive (p q : positive) :
  (q <= p)%positive ->
  positive_above (-53)
    (SFdiv prec emax (S754_finite false p 0) (S754_finite false q 0)).
Proof.
  intros Hqp. unfold SFdiv, SFdiv_core_binary.
  change (Zdigits2 (Zpos p)) with (Zpos (digits2_pos p)).
  change (Zdigits2 (Zpos q)) with (Zpos (digits2_pos q)).
  pose proof (digits2_pos_monotone q p Hqp) as Hd.
  pose proof (digits2_pos_bounds p) as [Hp _].
  pose proof (digits2_pos_bounds q) as [_ Hq].
  set (e' := Z.min (fexp prec emax (Zpos (digits2_pos p) + 0 - (Zpos (digits2_pos q) + 0)))
                   (0 - 0)).
  assert (He' : -53 <= e' <= 0 /\
                (e' < 0 -> e' = Zpos (digits2_pos p) - Zpos (digits2_pos q) - 53))
    by (unfold e', fexp, emin, prec, emax; lia).
  destruct He' as [Hrange Hneg].
  set (m' := match 0 - 0 - e' with
             | 0 => Zpos p
             | Zpos _ => Z.shiftl (Zpos p) (0 - 0 - e')
             | Zneg _ => 0
             end).
  assert (Hm' : Zpos q <= m').
  { unfold m'. destruct (0 - 0 - e') as [|s|s] eqn:Hs; try lia.
    rewrite Z.shiftl_mul_pow2 by lia.
    apply Z.le_trans with (2 ^ Zpos (digits2_pos q)); [lia|].
    apply Z.le_trans with (2 ^ (Zpos (digits2_pos p) - 1) * 2 ^ Zpos s).
    - rewrite <- Z.pow_add_r by lia. apply Z.pow_le_mono_r; lia.
    - apply Z.mul_le_mono_nonneg_r; lia. }
  pose proof (Z_div_mod m' (Zpos q) ltac:(lia)) as Hdm.
  destruct (Z.div_eucl m' (Zpos q)) as [quo r]. destruct Hdm as [Hdm Hr].
  assert (Hquo : 0 < quo) by nia.
  destruct quo as [|quo|quo]; try lia.
  cbn [xorb].
  destruct (round_aux_positive quo e' (new_location (Zpos q) r) ltac:(lia))
    as [H|(m & e & H & He)]; [now left|right].
  exists m, e. split; [exact H|lia].
Qed.

(* ================================================================== *)
(** * Numerals with a non-zero integer part *)
(* ================================================================== *)

Lemma digit_of_nonneg (c : code_unit) : 0 <= digit_of c.
Proof.
  unfold digit_of, is_digit.
  destruct ((48 <=? c) && (c <=? 57)) eqn:Hd; [lia|].
  destruct ((97 <=? c) && (c <=? 122)) eqn:Hl; [lia|].
  destruct ((65 <=? c) && (c <=? 90)) eqn:Hu; lia.
Qed.

Lemma nonzero_digit_value (c : code_unit) :
  is_nonzero_digit c = true -> 0 < digit_of c.
Proof.
  unfold is_nonzero_digit, digit_of, is_digit. intros H.
  destruct ((48 <=? c) && (c <=? 57)) eqn:Hd; lia.
Qed.

Lemma fold_digits_lower (ds : jsstring) (acc : Z) :
  0 <= acc ->
  acc * 10 ^ Z.of_nat (List.length ds)
  <= fold_left (fun a c => 10 * a + digit_of c) ds acc.
Proof.
  revert acc. induction ds as [|c ds IH]; intros acc Ha.
  - cbn. lia.
  - cbn [fold_left List.length]. pose proof (digit_of_nonneg c) as Hc.
    specialize (IH (10 * acc + digit_of c) ltac:(lia)).
    rewrite Nat2Z.inj_succ, Z.pow_succ_r by lia.
    assert (0 <= 10 ^ Z.of_nat (List.length ds)) by (apply Z.pow_nonneg; lia).
    nia.
Qed.

Lemma fold_digits_positive (ds : jsstring) (acc : Z) :
  0 <= acc ->
  0 < acc \/ existsb is_nonzero_digit ds = true ->
  0 < fold_left (fun a c => 10 * a + digit_of c) ds acc.
Proof.
  revert acc. induction ds as [|c ds IH]; intros acc Ha H; cbn [fold_left].
  - destruct H as [H|H]; [exact H|discriminate].
  - pose proof (digit_of_nonneg c) as Hc. apply IH; [lia|].
    destruct H as [H|H]; [left; lia|].
    cbn [existsb] in H. apply orb_prop in H as [H|H]; [|now right].
    left. apply nonzero_digit_value in H. lia.
Qed.

Lemma span_ext_in (p q : code_unit -> bool) (s : jsstring) :
  (forall c, In c s -> p c = q c) -> span p s = span q s.
Proof.
  induction s as [|c t IH]; intros H; [reflexivity|]. cbn [span].
  rewrite (H c (or_introl eq_refl)), IH; [reflexivity|].
  intros d Hd. apply H. now right.
Qed.

Lemma radix_digit_view (c : code_unit) :
  is_view_char c = true -> is_radix_digit 10 c = is_digit c.
Proof.
  unfold is_view_char, is_radix_digit, digit_of, is_digit. intros H.
  destruct ((48 <=? c) && (c <=? 57)) eqn:Hd; [lia|].
  destruct ((97 <=? c) && (c <=? 122)) eqn:Hl; [lia|].
  destruct ((65 <=? c) && (c <=? 90)) eqn:Hu; lia.
Qed.

Lemma exponent_part_view (r : jsstring) :
  (forall c, In c r -> is_view_char c = true) -> exponent_part r = 0.
Proof.
  destruct r as [|c t]; [reflexivity|]. intros H.
  destruct (view_char_head c (H c (or_introl eq_refl)))
    as (_ & _ & _ & _ & _ & _ & He & HE).
  cbn [exponent_part]. now rewrite He, HE.
Qed.

Lemma parseFloat_view (v : jsstring) :
  (forall c, In c v -> is_view_char c = true) ->
  parseFloat v =
    let '(ip, r1) := span is_digit v in
    let '(fp, r2) :=
      match r1 with
      | c :: t => if c =? 46 then span is_digit t else ([], r1)
      | [] => ([], [])
      end in
    match ip ++ fp with
    | [] => NaN
    | ds => decimal_value false (radix_value 10 ds)
                          (exponent_part r2 - Z.of_nat (List.length fp))
    end.
Proof.
  intros Hs. unfold parseFloat, trim_start.
  destruct v as [|c t]; [reflexivity|].
  destruct (view_char_head c (Hs c (or_introl eq_refl)))
    as (Hsp & Hm & Hp & Hi & _).
  cbn [span]. rewrite Hsp. cbn [snd strip_sign]. rewrite Hm, Hp.
  change (starts_with (js "Infinity") (c :: t)) with
    ((73 =? c) && starts_with (js "nfinity") t).
  rewrite Hi. reflexivity.
Qed.

(** The Number of [p / 10^k] when that is at least 1. *)
Lemma decimal_value_positive (p : positive) (k : nat) :
  10 ^ Z.of_nat k <= Zpos p ->
  positive_above (-53) (decimal_value false (Zpos p) (- Z.of_nat k)).
Proof.
  intros Hk. unfold decimal_value.
  destruct (0 <=? - Z.of_nat k) eqn:H0.
  - destruct (round_positive_integer (p * Z.to_pos (10 ^ (- Z.of_nat k))))
      as [H|(m & e & H & He)]; [now left|right].
    exists m, e. split; [exact H|lia].
  - apply div_positive. rewrite Z.opp_involutive.
    assert (0 < 10 ^ Z.of_nat k) by (apply Z.pow_pos_nonneg; lia).
    pose proof (Z2Pos.id (10 ^ Z.of_nat k) ltac:(lia)) as Hid. lia.
Qed.

(* ================================================================== *)
(** * Texts the pattern accepts *)
(* ================================================================== *)

Section RegexAccepts.
Context {R : Type}.
Implicit Types (k : jsstring -> jsstring -> option R).

Lemma class_opt_skip p s k :
  match s with [] => True | c :: _ => p c = false end ->
  class_opt p s k = k [] s.
Proof. destruct s as [|c t]; [reflexivity|]. cbn. now intros ->. Qed.

Lemma class_opt_take p c t k r :
  p c = true -> k [c] t = Some r -> class_opt p (c :: t) k = Some r.
Proof. intros Hc Hk. cbn. now rewrite Hc, Hk. Qed.

Lemma literal_ci_app (w rest : jsstring) (kl : jsstring -> option R) :
  literal_ci (map upper_unit w) (w ++ rest) kl = kl rest.
Proof.
  induction w as [|c w IH]; [reflexivity|]. cbn. now rewrite Z.eqb_refl.
Qed.
End RegexAccepts.

(** Every text made of a numeral, at most one suffix letter, white
    space and the word "view" or "views" in any case matches, and the
    numeral with its suffix is the first capture group. *)
Lemma viewsMatch_accepts (ds sfx sp w tail : jsstring) :
  ds <> [] -> forallb is_count_char ds = true ->
  (sfx = [] \/ exists c, sfx = [c] /\ is_suffix_char c = true) ->
  forallb is_space sp = true ->
  map upper_unit w = js "VIEW" ->
  (tail = [] \/ exists c, tail = [c] /\ is_s_char c = true) ->
  viewsMatch (ds ++ sfx ++ sp ++ w ++ tail) = Some (ds ++ sfx).
Proof.
  intros Hne Hds Hsfx Hsp Hw Htail.
  destruct w as [|w0 [|w1 [|w2 [|w3 [|? ?]]]]]; try discriminate.
  injection Hw as H0 H1 H2 H3.
  assert (Hv : is_count_char w0 = false /\ is_suffix_char w0 = false /\
               is_space w0 = false).
  { unfold is_count_char, is_suffix_char, is_space, is_digit, upper_unit in *.
    destruct ((97 <=? w0) && (w0 <=? 122)) eqn:Hl; lia. }
  destruct Hv as (Hv1 & Hv2 & Hv3).
  assert (Hword : forall g1 g2 : jsstring,
             literal_ci (js "VIEW") ([w0; w1; w2; w3] ++ tail)
               (fun r4 => class_opt is_s_char r4 (fun _ r5 =>
                  match r5 with [] => Some (g1 ++ g2) | _ :: _ => None end))
             = Some (g1 ++ g2)).
  { intros g1 g2.
    replace (js "VIEW") with (map upper_unit [w0; w1; w2; w3])
      by (cbn [map]; now rewrite H0, H1, H2, H3).
    rewrite literal_ci_app.
    destruct Htail as [->|(c & -> & Hc)]; [reflexivity|].
    now apply class_opt_take. }
  assert (Hspace : forall g1 g2 : jsstring,
             class_star is_space [] (sp ++ [w0; w1; w2; w3] ++ tail)
               (fun _ r3 => literal_ci (js "VIEW") r3
                  (fun r4 => class_opt is_s_char r4 (fun _ r5 =>
                     match r5 with [] => Some (g1 ++ g2) | _ :: _ => None end)))
             = Some (g1 ++ g2)).
  { intros g1 g2. apply class_star_greedy; [exact Hsp|apply Hword|exact Hv3]. }
  unfold viewsMatch. apply class_plus_greedy; [exact Hne|exact Hds| |].
  - destruct Hsfx as [->|(c & -> & Hc)].
    + rewrite class_opt_skip; [apply Hspace|].
      cbn [app]. destruct sp as [|s0 sp']; cbn [app]; [exact Hv2|].
      cbn [forallb] in Hsp. apply andb_prop in Hsp as [Hs0 _].
      unfold is_suffix_char, is_space, upper_unit in *.
      destruct ((97 <=? s0) && (s0 <=? 122)) eqn:Hl; lia.
    + cbn [app]. apply class_opt_take; [exact Hc|apply Hspace].
  - destruct Hsfx as [->|(c & -> & Hc)]; cbn [app].
    + destruct sp as [|s0 sp']; cbn [app]; [exact Hv1|].
      cbn [forallb] in Hsp. apply andb_prop in Hsp as [Hs0 _].
      unfold is_count_char, is_space, is_digit in *. lia.
    + unfold is_count_char, is_suffix_char, is_digit, upper_unit in *.
      destruct ((97 <=? c) && (c <=? 122)) eqn:Hl; lia.
Qed.

Lemma count_chars_upper (ds : jsstring) :
  forallb is_count_char ds = true -> toUpperCase ds = ds.
Proof.
  unfold toUpperCase. induction ds as [|c ds IH]; [reflexivity|].
  cbn [forallb map]. intros H. apply andb_prop in H as [Hc H].
  rewrite (IH H). f_equal.
  unfold is_count_char, is_digit, upper_unit in *.
  destruct ((97 <=? c) && (c <=? 122)) eqn:Hl; lia.
Qed.

Lemma span_app_prefix (p : code_unit -> bool) (a b : jsstring) :
  exists x, fst (span p (a ++ b)) = fst (span p a) ++ x.
Proof.
  induction a as [|c a [x IH]]; cbn [app span].
  - now exists (fst (span p b)).
  - destruct (p c); [|now exists []].
    destruct (span p (a ++ b)) as [u v], (span p a) as [u' v'].
    cbn [fst] in *. exists x. now rewrite IH.
Qed.

(** [trim] leaves a text alone that neither starts nor ends with white
    space. *)
Lemma trim_unpadded (c l : code_unit) (body : jsstring) :
  is_space c = false -> is_space l = false ->
  trim (c :: body ++ [l]) = c :: body ++ [l].
Proof.
  intros Hc Hl.
  assert (Hts : forall x t, is_space x = false -> trim_start (x :: t) = x :: t)
    by (intros x t Hx; unfold trim_start; cbn [span]; now rewrite Hx).
  unfold trim, trim_end. rewrite (Hts c _ Hc).
  replace (rev (c :: body ++ [l])) with (l :: rev (c :: body))
    by (change (c :: body ++ [l]) with ((c :: body) ++ [l]);
        now rewrite rev_app_distr).
  rewrite (Hts l _ Hl).
  change (l :: rev (c :: body)) with (rev [l] ++ rev (c :: body)).
  rewrite <- rev_app_distr. apply rev_involutive.
Qed.

(** The texts of [viewsMatch_accepts] are unpadded. *)
Lemma trim_count_text (ds sfx sp w tail : jsstring) :
  ds <> [] -> forallb is_count_char ds = true ->
  map upper_unit w = js "VIEW" ->
  (tail = [] \/ exists c, tail = [c] /\ is_s_char c = true) ->
  trim (ds ++ sfx ++ sp ++ w ++ tail) = ds ++ sfx ++ sp ++ w ++ tail.
Proof.
  intros Hne Hds Hw Htail.
  destruct ds as [|d ds]; [congruence|].
  cbn [forallb] in Hds. apply andb_prop in Hds as [Hd _].
  assert (Hsd : is_space d = false)
    by (unfold is_count_char, is_space, is_digit in *; lia).
  destruct w as [|w0 [|w1 [|w2 [|w3 [|? ?]]]]]; try discriminate.
  injection Hw as _ _ _ H3.
  assert (Hs3 : is_space w3 = false).
  { unfold is_space, upper_unit in *.
    destruct ((97 <=? w3) && (w3 <=? 122)) eqn:Hl; lia. }
  destruct Htail as [->|(c & -> & Hc)].
  - replace ((d :: ds) ++ sfx ++ sp ++ [w0; w1; w2; w3] ++ [])
      with (d :: (ds ++ sfx ++ sp ++ [w0; w1; w2]) ++ [w3])
      by (cbn [app]; rewrite <- !app_assoc; reflexivity).
    now apply trim_unpadded.
  - replace ((d :: ds) ++ sfx ++ sp ++ [w0; w1; w2; w3] ++ [c])
      with (d :: (ds ++ sfx ++ sp ++ [w0; w1; w2; w3]) ++ [c])
      by (cbn [app]; rewrite <- !app_assoc; reflexivity).
    apply trim_unpadded; [exact Hsd|].
    unfold is_s_char, is_space, upper_unit in *.
    destruct ((97 <=? c) && (c <=? 122)) eqn:Hl; lia.
Qed.

(* ================================================================== *)
(** * The extraction callback *)
(* ================================================================== *)

(** C7, as the claim has it, fails in its last part: "0 views" is a
    view-count string the pattern accepts, and the record made of it
    with no title and no thumbnail has views 0, not more; ", views" is
    accepted too and gives NaN. *)
Lemma zero_count_gives_zero_views :
  viewsMatch (js "0 views") = Some (js "0") /\
  extract_video {| video_title_text := None;
                   video_info_text := Some (js "0 views");
                   img_src := None |}
  = {| title := []; views := of_Z 0; thumbnail := [] |} /\
  positive_number
    (views (extract_video {| video_title_text := None;
                             video_info_text := Some (js "0 views");
                             img_src := None |})) = false /\
  viewsMatch (js ", views") = Some (js ",") /\
  views (extract_video {| video_title_text := None;
                          video_info_text := Some (js ", views");
                          img_src := None |}) = NaN.
Proof. repeat split; vm_compute; reflexivity. Qed.

(* ================================================================== *)
(** * The scroll loop *)
(* ================================================================== *)

(** What a finished loop has done, from round [k] on. *)
Lemma scroll_loop_sound (height : Heights) (fuel k : nat) evs n :
  scroll_loop fuel height k = Some (evs, n) ->
  (k < n)%nat /\
  height n = height (n - 1)%nat /\
  (forall i, (k <= i)%nat -> (S i < n)%nat -> height (S i) <> height i) /\
  evs = rounds_events height k (n - k).
Proof.
  revert k evs n. induction fuel as [|fuel IH]; intros k evs n H; [discriminate|].
  cbn [scroll_loop] in H. unfold scroll_round in H.
  destruct (height (S k) =? height k) eqn:Hs.
  - injection H as <- <-. apply Z.eqb_eq in Hs.
    replace (S k - 1)%nat with k by lia. replace (S k - k)%nat with 1%nat by lia.
    repeat split; try lia; auto;
      cbn [rounds_events scroll_round fst]; now rewrite app_nil_r.
  - destruct (scroll_loop fuel height (S k)) as [[evs' n']|] eqn:Hl; [|discriminate].
    injection H as <- <-. apply Z.eqb_neq in Hs.
    destruct (IH _ _ _ Hl) as (Hlt & Hst & Hne & ->).
    repeat split; try lia; auto.
    + intros i Hi Hin. destruct (Nat.eq_dec i k) as [->|]; [exact Hs|].
      apply Hne; lia.
    + replace (n' - k)%nat with (S (n' - S k)) by lia. reflexivity.
Qed.

(** Enough fuel lets the loop reach the first round at which the
    height stays. *)
Lemma scroll_loop_complete (height : Heights) (d k fuel : nat) :
  height (S (k + d)) = height (k + d)%nat ->
  (forall i, (k <= i < k + d)%nat -> height (S i) <> height i) ->
  (d < fuel)%nat ->
  scroll_loop fuel height k =
    Some (rounds_events height k (S d), S (k + d)).
Proof.
  revert k fuel. induction d as [|d IH]; intros k fuel Hst Hne Hf;
    (destruct fuel as [|fuel]; [lia|]); cbn [scroll_loop]; unfold scroll_round.
  - rewrite Nat.add_0_r in Hst. apply Z.eqb_eq in Hst. rewrite Hst.
    rewrite Nat.add_0_r. cbn [rounds_events scroll_round fst].
    now rewrite app_nil_r.
  - assert (Hk : height (S k) <> height k) by (apply Hne; lia).
    apply Z.eqb_neq in Hk. rewrite Hk.
    rewrite (IH (S k) fuel).
    + replace (S k + d)%nat with (k + S d)%nat by lia. reflexivity.
    + now replace (S k + d)%nat with (k + S d)%nat by lia.
    + intros i Hi. apply Hne. lia.
    + lia.
Qed.

(** While the height keeps changing the loop goes on, whatever the fuel. *)
Lemma scroll_loop_diverges (height : Heights) (fuel k : nat) :
  (forall i, (k <= i)%nat -> height (S i) <> height i) ->
  scroll_loop fuel height k = None.
Proof.
  revert k. induction fuel as [|fuel IH]; intros k Hne; [reflexivity|].
  cbn [scroll_loop]. unfold scroll_round.
  assert (Hk : height (S k) <> height k) by (apply Hne; lia).
  apply Z.eqb_neq in Hk. rewrite Hk.
  rewrite IH; [reflexivity|]. intros i Hi. apply Hne. lia.
Qed.

(** The first round at which the height stays, when there is one. *)
Lemma first_stable_round (height : Heights) (n : nat) :
  height (S n) = height n ->
  exists m, (m <= n)%nat /\ height (S m) = height m /\
            forall i, (i < m)%nat -> height (S i) <> height i.
Proof.
  induction n as [n IH] using (well_founded_induction Wf_nat.lt_wf). intros Hn.
  destruct (existsb (fun i => height (S i) =? height i) (seq 0 n)) eqn:He.
  - apply existsb_exists in He as (i & Hi & Hs).
    apply in_seq in Hi. apply Z.eqb_eq in Hs.
    destruct (IH i ltac:(lia) Hs) as (m & Hm & Hms & Hmin).
    exists m. repeat split; auto; lia.
  - exists n. repeat split; auto. intros i Hi Hs.
    assert (existsb (fun i => height (S i) =? height i) (seq 0 n) = true);
      [|congruence].
    apply existsb_exists. exists i. split; [apply in_seq; lia|].
    now apply Z.eqb_eq.
Qed.

(** C8. The scroll loop: each round reads the height, scrolls to the
    bottom, sleeps 2000 ms and reads the height again; the loop stops
    at the first round whose second reading equals its first; it ends
    exactly when the height of some round stays (and never when it
    keeps changing); and no bound on the rounds exists: for every [N] a
    page makes a terminating loop run more than [N] rounds. *)
Theorem scroll_loop_stops_iff_stable (height : Heights) :
  (forall k, scroll_round height k =
             ([ReadHeight (height k); ReadHeight (height k);
               ScrollTo 0 (height k); Sleep 2000; ReadHeight (height (S k))],
              height (S k) =? height k)) /\
  (forall fuel evs n, scroll_loop fuel height 0 = Some (evs, n) ->
     (0 < n)%nat /\ height n = height (n - 1)%nat /\
     (forall i, (S i < n)%nat -> height (S i) <> height i) /\
     evs = rounds_events height 0 n) /\
  ((exists fuel r, scroll_loop fuel height 0 = Some r) <->
   (exists n, height (S n) = height n)) /\
  ((forall n, height (S n) <> height n) ->
   forall fuel, scroll_loop fuel height 0 = None) /\
  (forall N, exists fuel evs n,
     scroll_loop fuel (ramp N) 0 = Some (evs, n) /\ (N < n)%nat).
Proof.
  split; [reflexivity|]. split; [|split; [|split]].
  - intros fuel evs n H.
    destruct (scroll_loop_sound _ _ _ _ _ H) as (Hlt & Hst & Hne & Hev).
    rewrite Nat.sub_0_r in Hev. repeat split; auto.
    intros i Hi. apply Hne; lia.
  - split.
    + intros (fuel & [evs n] & H).
      destruct (scroll_loop_sound _ _ _ _ _ H) as (Hlt & Hst & _).
      exists (n - 1)%nat. now replace (S (n - 1)) with n by lia.
    + intros (n & Hn).
      destruct (first_stable_round height n Hn) as (m & _ & Hm & Hmin).
      exists (S m). eexists. apply (scroll_loop_complete height m 0).
      * exact Hm.
      * intros i Hi. apply Hmin. lia.
      * lia.
  - intros Hne fuel. apply scroll_loop_diverges. intros i _. apply Hne.
  - intros N. exists (S N). eexists. exists (S (0 + N)). split; [|lia].
    apply (scroll_loop_complete (ramp N) N 0).
    + unfold ramp. lia.
    + intros i Hi. unfold ramp. lia.
    + lia.
Qed.

Lemma scroll_loop_stops_iff_stable_witness :
  scroll_loop 5 (ramp 2) 0 = Some (rounds_events (ramp 2) 0 3, 3%nat) /\
  ramp 2 3%nat = ramp 2 2%nat.
Proof.
  split; [reflexivity|].
  exact (proj1 (proj2 (proj1 (proj2 (scroll_loop_stops_iff_stable (ramp 2)))
                         5%nat _ 3%nat eq_refl))).
Defined.

(* ================================================================== *)
(** * The graph data *)
(* ================================================================== *)

Lemma js_injective (a b : string) : js a = js b -> a = b.
Proof.
  unfold js. intros H.
  rewrite <- (string_of_list_ascii_of_string a), <- (string_of_list_ascii_of_string b).
  f_equal. revert H. generalize (list_ascii_of_string a) (list_ascii_of_string b).
  intros la. induction la as [|x la IH]; intros [|y lb]; simpl;
    try discriminate; auto.
  intros [= Hxy Hl]. f_equal; auto.
  apply N2Z.inj in Hxy.
  rewrite <- (ascii_N_embedding x), <- (ascii_N_embedding y). now f_equal.
Qed.

Lemma number_to_string_injective (m n : nat) :
  number_to_string m = number_to_string n -> m = n.
Proof.
  unfold number_to_string. intros H. apply js_injective in H.
  assert (Hu : Nat.to_uint m = Nat.to_uint n).
  { pose proof (NilEmpty.usu (Nat.to_uint m)) as Hm.
    pose proof (NilEmpty.usu (Nat.to_uint n)) as Hn.
    rewrite H in Hm. congruence. }
  now apply Unsigned.to_uint_inj.
Qed.

Lemma graph_points_length index videos :
  List.length (graph_points index videos) = List.length videos.
Proof.
  revert index. induction videos as [|v vs IH]; intros index; simpl; auto.
Qed.

Lemma graph_points_nth index videos i :
  nth_error (graph_points index videos) i =
  option_map (fun video => {| name := js "Video " ++ number_to_string (index + i + 1);
                              graph_views := views video |})
             (nth_error videos i).
Proof.
  revert index i. induction videos as [|v vs IH]; intros index [|i]; simpl; auto.
  - now rewrite Nat.add_0_r.
  - rewrite IH. now replace (S index + i)%nat with (index + S i)%nat by lia.
Qed.

(* ================================================================== *)
(** * The route handler *)
(* ================================================================== *)

Lemma quiet_ret {A} (a : A) : quiet (ret a).
Proof. intros st. exists []. now rewrite app_nil_r. Qed.

Lemma quiet_throw {A} (e : Error) : quiet (@throw A e).
Proof. intros st. exists []. now rewrite app_nil_r. Qed.

Lemma quiet_emit_all (es : list Event) :
  forallb neutral es = true -> quiet (emit_all es).
Proof. intros H st. now exists es. Qed.

Lemma quiet_emit (e : Event) : neutral e = true -> quiet (emit e).
Proof. intros H st. exists [e]. simpl. now rewrite H. Qed.

Lemma quiet_bind {A B} (c : M A) (k : A -> M B) :
  quiet c -> (forall a, quiet (k a)) -> quiet (bind c k).
Proof.
  intros Hc Hk st. unfold bind. destruct (Hc st) as (e1 & H1 & N1).
  destruct (c st) as [[a|e] st1]; simpl in *.
  - destruct (Hk a st1) as (e2 & H2 & N2). exists (e1 ++ e2).
    rewrite H2, H1, app_assoc, forallb_app, N1, N2. auto.
  - now exists e1.
Qed.

Lemma quiet_try_catch {A} (c : M A) (h : Error -> M A) :
  quiet c -> (forall e, quiet (h e)) -> quiet (try_catch c h).
Proof.
  intros Hc Hh st. unfold try_catch. destruct (Hc st) as (e1 & H1 & N1).
  destruct (c st) as [[a|e] st1]; simpl in *.
  - now exists e1.
  - destruct (Hh e st1) as (e2 & H2 & N2). exists (e1 ++ e2).
    rewrite H2, H1, app_assoc, forallb_app, N1, N2. auto.
Qed.

Lemma quiet_pushData (videos : Batch) : quiet (Dataset_pushData videos).
Proof. intros st. now exists [DatasetPush videos]. Qed.

Lemma quiet_requestHandler sc url page : quiet (requestHandler sc url page).
Proof.
  unfold requestHandler.
  apply quiet_bind; [apply quiet_emit; reflexivity|intros _].
  apply quiet_bind; [apply quiet_emit; reflexivity|intros _].
  apply quiet_bind;
    [destruct (selector_appears page); [apply quiet_ret|apply quiet_throw]
    |intros _].
  destruct (scroll_loop _ _ _) as [[evs n]|]; [|apply quiet_throw].
  apply quiet_bind; [apply quiet_emit_all; now induction evs|intros _].
  apply quiet_bind;
    [destruct (evaluate_fails page); [apply quiet_throw|apply quiet_ret]
    |intros videos].
  apply quiet_bind; [apply quiet_emit; reflexivity|intros _].
  apply quiet_pushData.
Qed.

Lemma quiet_process_request sc url retries n :
  quiet (process_request sc url retries n).
Proof.
  revert n. induction retries as [|r IH]; intros n; cbn [process_request];
    (apply quiet_try_catch;
     [apply quiet_bind; [apply quiet_emit; reflexivity|intros _];
      apply quiet_bind;
      [destruct (navigation_fails _); [apply quiet_throw|apply quiet_ret]
      |intros _; apply quiet_requestHandler]
     |intros _]).
  - apply quiet_emit. reflexivity.
  - apply IH.
Qed.

Lemma quiet_crawler_run sc url : quiet (crawler_run sc url).
Proof.
  unfold crawler_run. destruct (run_rejects sc);
    [apply quiet_throw|apply quiet_process_request].
Qed.

Lemma count_neutral (evs : list Event) :
  forallb neutral evs = true ->
  filter is_open evs = [] /\ filter is_drop evs = [].
Proof.
  induction evs as [|e evs IH]; simpl; auto.
  intros H. apply andb_prop in H as [He H]. destruct (IH H) as [-> ->].
  unfold neutral in He. destruct (is_open e), (is_drop e); auto; discriminate.
Qed.

(** ** The crawl, attempt by attempt *)

Lemma in_page_events_neutral (evs : list PageEvent) :
  pushes (map InPage evs) = 0%nat /\ navigations (map InPage evs) = 0%nat.
Proof. unfold pushes, navigations. now induction evs. Qed.

Lemma pushes_app (a b : list Event) : pushes (a ++ b) = (pushes a + pushes b)%nat.
Proof. unfold pushes. now rewrite filter_app, length_app. Qed.

Lemma navigations_app (a b : list Event) :
  navigations (a ++ b) = (navigations a + navigations b)%nat.
Proof. unfold navigations. now rewrite filter_app, length_app. Qed.

(** One attempt: it navigates once; when it succeeds it commits the
    videos of its page, once, and when it fails it throws and commits
    nothing. *)
Lemma attempt_outcome sc url page st :
  exists evs,
    navigations evs = 1%nat /\
    if attempt_succeeds sc page then
      (emit (Navigate url) ;;
       (if navigation_fails page then throw NavigationError else ret tt) ;;
       requestHandler sc url page) st
      = (Returned tt, {| items := items st ++ [extract_videos (elements page)];
                         trace := trace st ++ evs |})
      /\ pushes evs = 1%nat
    else
      exists e,
        (emit (Navigate url) ;;
         (if navigation_fails page then throw NavigationError else ret tt) ;;
         requestHandler sc url page) st
        = (Threw e, {| items := items st; trace := trace st ++ evs |})
        /\ pushes evs = 0%nat.
Proof.
  unfold attempt_succeeds, requestHandler, bind, emit, emit_all, throw, ret,
    Dataset_pushData.
  destruct (navigation_fails page); cbn.
  { exists [Navigate url]. split; [reflexivity|]. eexists. split; reflexivity. }
  destruct (selector_appears page); cbn.
  2:{ eexists. split; [|eexists; split; [rewrite <- !app_assoc; reflexivity|]];
      reflexivity. }
  destruct (scroll_loop _ _ _) as [[evs k]|]; cbn.
  2:{ eexists. split; [|eexists; split; [rewrite <- !app_assoc; reflexivity|]];
      reflexivity. }
  destruct (in_page_events_neutral evs) as [Hp Hn].
  destruct (evaluate_fails page); cbn.
  - eexists. split; [|eexists; split; [rewrite <- !app_assoc; reflexivity|]].
    + rewrite !navigations_app, Hn. reflexivity.
    + rewrite !pushes_app, Hp. reflexivity.
  - eexists. split; [|split; [rewrite <- !app_assoc; reflexivity|]].
    + rewrite !navigations_app, Hn. reflexivity.
    + rewrite !pushes_app, Hp. reflexivity.
Qed.

Lemma first_success_bounds sc r n k :
  first_success sc r n = Some k -> (n <= k <= n + r)%nat.
Proof.
  revert n. induction r as [|r IH]; intros n; cbn [first_success];
    destruct (attempt_succeeds sc (attempt sc n)); try discriminate;
    try (intros [= <-]; lia).
  intros H. apply IH in H. lia.
Qed.

(** The crawler on its request: it resolves, having committed the
    videos of the first attempt that succeeds and tried no attempt
    after it; when every attempt fails it has committed nothing. *)
Lemma process_request_result sc url r n st :
  exists evs,
    process_request sc url r n st
    = (Returned tt,
       {| items := items st ++
                   match first_success sc r n with
                   | Some k => [extract_videos (elements (attempt sc k))]
                   | None => []
                   end;
          trace := trace st ++ evs |}) /\
    pushes evs = match first_success sc r n with Some _ => 1 | None => 0 end%nat /\
    navigations evs = match first_success sc r n with
                      | Some k => S (k - n)
                      | None => S r
                      end.
Proof.
  revert n st. induction r as [|r IH]; intros n st;
    cbn [process_request first_success]; unfold try_catch;
    destruct (attempt_outcome sc url (attempt sc n) st) as (evs & Hnav & H);
    destruct (attempt_succeeds sc (attempt sc n)).
  - destruct H as [-> Hp]. exists evs. rewrite Nat.sub_diag. auto.
  - destruct H as (e & -> & Hp). unfold failedRequestHandler, emit. cbn.
    exists (evs ++ [LogError (js "Request " ++ url ++ js " failed too many times.")]).
    rewrite app_nil_r, <- app_assoc, pushes_app, navigations_app, Hp, Hnav.
    auto.
  - destruct H as [-> Hp]. exists evs. rewrite Nat.sub_diag. auto.
  - destruct H as (e & -> & Hp).
    destruct (IH (S n) {| items := items st; trace := trace st ++ evs |})
      as (evs' & -> & Hp' & Hn').
    cbn [items trace]. exists (evs ++ evs').
    rewrite <- app_assoc, pushes_app, navigations_app, Hp, Hnav, Hp', Hn'.
    repeat split.
    destruct (first_success sc r (S n)) as [k|] eqn:Hk; [|reflexivity].
    apply first_success_bounds in Hk. lia.
Qed.

(** [crawler.run] on the opened dataset: it rejects, or it resolves
    with the batch of the first successful attempt, if any, as the
    dataset's only item. *)
Lemma crawler_run_result sc url :
  if run_rejects sc
  then crawler_run sc url (opened_state sc) = (Threw CrawlerError, opened_state sc)
  else exists evs,
      crawler_run sc url (opened_state sc)
      = (Returned tt,
         {| items := crawled_items sc;
            trace := DatasetOpen (js "playlist-" ++ uuid sc) :: evs |}) /\
      forallb neutral evs = true /\
      pushes evs = match first_success sc maxRequestRetries 0 with
                   | Some _ => 1 | None => 0 end%nat /\
      navigations evs = match first_success sc maxRequestRetries 0 with
                        | Some k => S k | None => S maxRequestRetries end.
Proof.
  unfold crawler_run. destruct (run_rejects sc); [reflexivity|].
  destruct (process_request_result sc url maxRequestRetries 0 (opened_state sc))
    as (evs & H & Hp & Hn).
  destruct (quiet_process_request sc url maxRequestRetries 0 (opened_state sc))
    as (evs' & Ht & Hq).
  rewrite H in Ht. cbn [snd trace] in Ht. apply app_inv_head in Ht. subst evs'.
  exists evs. rewrite H. repeat split; auto.
  rewrite Hn. destruct (first_success sc maxRequestRetries 0); [|reflexivity].
  now rewrite Nat.sub_0_r.
Qed.

(** The [catch] block of lines 136-145: it logs, drops the dataset and
    answers 500; when its drop rejects, the rejection leaves [POST]. *)
Lemma on_error_cases sc e st :
  on_error sc e st
  = if drop_in_catch_fails sc
    then (Threw StorageError,
          {| items := items st;
             trace := trace st ++ [ConsoleError (js "Crawling failed:") e;
                                   DatasetDrop] |})
    else (Returned (ErrorResponse 500 scraping_message),
          {| items := [];
             trace := trace st ++ [ConsoleError (js "Crawling failed:") e;
                                   DatasetDrop] |}).
Proof.
  unfold on_error, bind, emit, Dataset_drop, ret. cbn [items trace].
  destruct (drop_in_catch_fails sc); rewrite <- app_assoc; reflexivity.
Qed.

(** Lines 116-135 under the [catch] block: the read-back, the response
    and the drop, and what becomes of a rejection of either. *)
Lemma after_crawl_cases sc st :
  try_catch (respond sc) (on_error sc) st
  = if getData_fails sc
    then on_error sc StorageError st
    else if drop_fails sc
         then on_error sc StorageError
                {| items := items st;
                   trace := trace st ++ [DatasetGetData; DatasetDrop] |}
         else (Returned
                 (Success {| videoList := match items st with
                                          | item :: _ => item
                                          | [] => []
                                          end;
                             graphData := graphData_of match items st with
                                                       | item :: _ => item
                                                       | [] => []
                                                       end |}),
               {| items := [];
                  trace := trace st ++ [DatasetGetData; DatasetDrop] |}).
Proof.
  unfold try_catch, respond, Dataset_getData, bind, Dataset_drop, ret, throw.
  destruct (getData_fails sc); [reflexivity|]. cbn [items trace].
  destruct (drop_fails sc); rewrite <- app_assoc; reflexivity.
Qed.

(** A run with a valid locator, once the dataset is open. *)
Lemma run_opened sc :
  valid_locator sc = true -> open_fails sc = false ->
  exists url,
    playlistUrl sc = Some url /\
    run sc = try_catch (crawler_run sc url ;; respond sc) (on_error sc)
                       (opened_state sc).
Proof.
  unfold valid_locator, run, POST, new_URL, Dataset_open. intros Hv Ho.
  destruct (playlistUrl sc) as [[|c url]|]; try discriminate.
  destruct (url_searchParams sc) as [params|]; [|discriminate].
  cbn [bind ret].
  destruct (searchParams_get (js "list") params) as [[|i id]|]; try discriminate.
  rewrite Ho. exists (c :: url). split; reflexivity.
Qed.

(** The answer to a request whose locator is not valid, or whose
    dataset does not open: nothing has been touched. *)
Lemma run_unopened sc :
  valid_locator sc && negb (open_fails sc) = false ->
  run sc =
  match playlistUrl sc with
  | None | Some [] => (Returned (ErrorResponse 400 required_message), initial_state)
  | Some (_ :: _) =>
      match url_searchParams sc with
      | None => (Threw InvalidURL, initial_state)
      | Some _ =>
          if valid_locator sc then (Threw StorageError, initial_state)
          else (Returned (ErrorResponse 400 invalid_message), initial_state)
      end
  end.
Proof.
  unfold valid_locator, run, POST, new_URL, Dataset_open.
  destruct (playlistUrl sc) as [[|c url]|]; try reflexivity.
  destruct (url_searchParams sc) as [params|]; [|reflexivity].
  cbn [bind ret].
  destruct (searchParams_get (js "list") params) as [[|i id]|];
    try reflexivity.
  destruct (open_fails sc); [reflexivity|discriminate].
Qed.

(** The whole of a run past [Dataset.open]: what it answers and what it
    leaves, by what rejects.  [evs] are the events of the crawl. *)
Lemma run_opened_table sc :
  valid_locator sc = true -> open_fails sc = false ->
  exists evs,
    forallb neutral evs = true /\
    (if run_rejects sc then evs = []
     else pushes evs = match first_success sc maxRequestRetries 0 with
                       | Some _ => 1 | None => 0 end%nat /\
          navigations evs = match first_success sc maxRequestRetries 0 with
                            | Some k => S k | None => S maxRequestRetries end) /\
    run sc =
    let opened := DatasetOpen (js "playlist-" ++ uuid sc) in
    let held := if run_rejects sc then [] else crawled_items sc in
    let failure := if run_rejects sc then CrawlerError else StorageError in
    let caught :=
      [ConsoleError (js "Crawling failed:") failure; DatasetDrop] in
    if run_rejects sc || getData_fails sc
    then if drop_in_catch_fails sc
         then (Threw StorageError,
               {| items := held; trace := opened :: evs ++ caught |})
         else (Returned (ErrorResponse 500 scraping_message),
               {| items := []; trace := opened :: evs ++ caught |})
    else if drop_fails sc
         then if drop_in_catch_fails sc
              then (Threw StorageError,
                    {| items := held;
                       trace := opened :: evs ++ [DatasetGetData; DatasetDrop]
                                       ++ caught |})
              else (Returned (ErrorResponse 500 scraping_message),
                    {| items := [];
                       trace := opened :: evs ++ [DatasetGetData; DatasetDrop]
                                       ++ caught |})
         else (Returned (Success {| videoList := crawled_videos sc;
                                    graphData := graphData_of (crawled_videos sc) |}),
               {| items := [];
                  trace := opened :: evs ++ [DatasetGetData; DatasetDrop] |}).
Proof.
  intros Hv Ho. destruct (run_opened sc Hv Ho) as (url & _ & ->).
  pose proof (crawler_run_result sc url) as Hc.
  unfold try_catch at 1, bind at 1.
  destruct (run_rejects sc).
  - rewrite Hc. exists []. split; [reflexivity|]. split; [reflexivity|].
    cbv zeta. cbn [orb]. rewrite on_error_cases. reflexivity.
  - destruct Hc as (evs & -> & Hq & Hp & Hn).
    exists evs. split; [exact Hq|]. split; [split; assumption|].
    cbv zeta. cbn [orb].
    pose proof (after_crawl_cases sc
                  {| items := crawled_items sc;
                     trace := DatasetOpen (js "playlist-" ++ uuid sc) :: evs |})
      as Ha.
    unfold try_catch in Ha. rewrite Ha. rewrite !on_error_cases.
    cbn [items trace].
    destruct (getData_fails sc); [reflexivity|].
    destruct (drop_fails sc).
    + rewrite <- !app_assoc. reflexivity.
    + unfold crawled_videos, crawled_items.
      destruct (first_success sc maxRequestRetries 0); reflexivity.
Qed.

Lemma try_block_success sc url st data st' :
  try_catch (crawler_run sc url ;; respond sc) (on_error sc) st
  = (Returned (Success data), st') ->
  graphData data = graphData_of (videoList data).
Proof.
  unfold try_catch at 1, bind at 1.
  destruct (crawler_run sc url st) as [[[]|e] st1].
  - pose proof (after_crawl_cases sc st1) as Ha. unfold try_catch in Ha.
    rewrite Ha, !on_error_cases.
    destruct (getData_fails sc);
      [destruct (drop_in_catch_fails sc); discriminate|].
    destruct (drop_fails sc);
      [destruct (drop_in_catch_fails sc); discriminate|].
    intros [= <- _]. reflexivity.
  - rewrite on_error_cases. destruct (drop_in_catch_fails sc); discriminate.
Qed.

Lemma run_success_shape sc data st :
  run sc = (Returned (Success data), st) ->
  graphData data = graphData_of (videoList data).
Proof.
  unfold run, POST, new_URL, Dataset_open.
  destruct (playlistUrl sc) as [[|c url]|]; try discriminate.
  destruct (url_searchParams sc) as [params|]; [|discriminate].
  cbn [bind ret].
  destruct (searchParams_get (js "list") params) as [[|i id]|]; try discriminate.
  destruct (open_fails sc); [discriminate|].
  cbn [bind]. apply try_block_success.
Qed.

(** C3. Every successful run answers with a [graphData] as long as its
    [videoList], whose i-th point is named "Video " followed by i+1 and
    carries the views of the i-th video; points at different positions
    have different names, so the mapping from videos to points is
    total, keeps the order and is one-to-one by position. *)
Theorem graphData_follows_videoList sc data st :
  run sc = (Returned (Success data), st) ->
  List.length (graphData data) = List.length (videoList data) /\
  (forall i video,
      nth_error (videoList data) i = Some video ->
      nth_error (graphData data) i =
        Some {| name := js "Video " ++ number_to_string (i + 1);
                graph_views := views video |}) /\
  (forall i j p q,
      nth_error (graphData data) i = Some p ->
      nth_error (graphData data) j = Some q ->
      name p = name q -> i = j).
Proof.
  intros H. apply run_success_shape in H. rewrite H. unfold graphData_of.
  split; [apply graph_points_length|]. split.
  - intros i video Hv. now rewrite graph_points_nth, Hv.
  - intros i j p q. rewrite !graph_points_nth.
    destruct (nth_error (videoList data) i); [|discriminate].
    destruct (nth_error (videoList data) j); [|discriminate].
    cbn [option_map]. intros [= <-] [= <-]. cbn [name]. intros Hn.
    injection Hn as Hn. apply number_to_string_injective in Hn. lia.
Qed.

Lemma graphData_follows_videoList_witness :
  run scenario_three_videos =
    (Returned (Success (success_data (fst (run scenario_three_videos)))),
     snd (run scenario_three_videos)) /\
  nth_error (graphData (success_data (fst (run scenario_three_videos)))) 2 =
    Some {| name := js "Video 3"; graph_views := of_Z 10 |}.
Proof.
  assert (H : run scenario_three_videos =
              (Returned (Success (success_data (fst (run scenario_three_videos)))),
               snd (run scenario_three_videos))) by (vm_compute; reflexivity).
  split; [exact H|].
  apply (proj1 (proj2 (graphData_follows_videoList _ _ _ H))
           2%nat {| title := []; views := of_Z 10; thumbnail := [] |}).
  vm_compute. reflexivity.
Defined.

(** What the validation of lines 19-37 answers, before any dataset is
    opened. *)
Lemma validation_outcomes sc :
  (playlistUrl sc = None \/ playlistUrl sc = Some [] ->
   run sc = (Returned (ErrorResponse 400 required_message), initial_state)) /\
  (forall c url params,
      playlistUrl sc = Some (c :: url) ->
      url_searchParams sc = Some params ->
      searchParams_get (js "list") params = None \/
      searchParams_get (js "list") params = Some [] ->
      run sc = (Returned (ErrorResponse 400 invalid_message), initial_state)) /\
  (forall c url,
      playlistUrl sc = Some (c :: url) ->
      url_searchParams sc = None ->
      run sc = (Threw InvalidURL, initial_state)).
Proof.
  unfold run, POST, new_URL. repeat split.
  - intros [-> | ->]; reflexivity.
  - intros c url params -> -> Hl. cbn [bind ret].
    destruct Hl as [-> | ->]; reflexivity.
  - intros c url -> ->. reflexivity.
Qed.

(** C4, where the code departs from it.  The request
    [{ playlistUrl: "not a url" }] gets no 400 response: [new URL]
    throws and nothing catches it (no dataset is opened).  A URL
    without a [list] parameter does get the 400 "Invalid playlist URL". *)
Theorem unparseable_url_is_thrown :
  run scenario_unparseable_url = (Threw InvalidURL, initial_state) /\
  run scenario_no_list_parameter =
    (Returned (ErrorResponse 400 invalid_message), initial_state).
Proof. split; reflexivity. Qed.

(** C5, as the claim has it, fails where [dataset.drop] itself
    rejects.  The drop of line 132 stands inside the [try]: when it
    rejects, the [catch] block drops again, so the one run calls
    [drop] twice before it answers 500; and when the drop of the
    [catch] block rejects too, [POST] throws and the dataset is left
    with its batch. *)
Lemma rejected_drop_is_repeated :
  opens (snd (run (scenario_drop_rejects false))) = 1%nat /\
  drops (snd (run (scenario_drop_rejects false))) = 2%nat /\
  fst (run (scenario_drop_rejects false))
  = Returned (ErrorResponse 500 scraping_message) /\
  fst (run (scenario_drop_rejects true)) = Threw StorageError /\
  List.length (items (snd (run (scenario_drop_rejects true)))) = 1%nat.
Proof. vm_compute. repeat split. Qed.

(** C5, amended.  Every run opens its dataset at most once, and a run
    that opened none drops none.  A run that opened it calls [drop] on
    every path and ends with such a call: once, after the read-back or
    in the [catch] block, unless the drop after the read-back rejects,
    which sends the run through the [catch] block and its second
    [drop].  The run returns a response and leaves no item behind,
    whatever the crawl and the read-back did, unless the drop of the
    [catch] block rejects: then [POST] throws. *)
Theorem dataset_dropped_on_every_path sc :
  let st := snd (run sc) in
  (opens st <= 1)%nat /\
  (opens st = 0%nat -> drops st = 0%nat) /\
  ((1 <= opens st)%nat ->
     (exists mid,
         trace st = DatasetOpen (js "playlist-" ++ uuid sc) :: mid ++ [DatasetDrop]
         /\ forallb (fun e => negb (is_open e)) mid = true) /\
     drops st
     = (if negb (run_rejects sc || getData_fails sc) && drop_fails sc
        then 2 else 1)%nat /\
     (if (run_rejects sc || getData_fails sc || drop_fails sc)
         && drop_in_catch_fails sc
      then fst (run sc) = Threw StorageError
      else (exists resp, fst (run sc) = Returned resp) /\ items st = [])).
Proof.
  cbv zeta.
  destruct (valid_locator sc && negb (open_fails sc)) eqn:Hvo.
  - apply andb_prop in Hvo as [Hv Ho]. apply negb_true_iff in Ho.
    destruct (run_opened_table sc Hv Ho) as (evs & Hq & _ & ->).
    destruct (count_neutral _ Hq) as [Hopen Hdrop].
    assert (Hno : forallb (fun e => negb (is_open e)) evs = true).
    { rewrite forallb_forall in *. intros e He. specialize (Hq e He).
      unfold neutral in Hq. now destruct (is_open e). }
    cbv zeta.
    destruct (run_rejects sc), (getData_fails sc), (drop_fails sc),
      (drop_in_catch_fails sc); cbn [orb andb negb fst snd];
      unfold opens, drops; cbn [trace items];
      cbn [filter is_open is_drop];
      rewrite ?filter_app, ?Hopen, ?Hdrop;
      cbn [filter is_open is_drop app List.length];
      (split; [lia|]); (split; [lia|]); intros _;
      (split; [|split; [reflexivity|eauto]]).
    all: try (exists (evs ++ [ConsoleError (js "Crawling failed:") StorageError]);
              rewrite <- !app_assoc; split; [reflexivity|];
              rewrite forallb_app, Hno; reflexivity).
    all: try (exists (evs ++ [ConsoleError (js "Crawling failed:") CrawlerError]);
              rewrite <- !app_assoc; split; [reflexivity|];
              rewrite forallb_app, Hno; reflexivity).
    all: try (exists (evs ++ [DatasetGetData; DatasetDrop;
                              ConsoleError (js "Crawling failed:") StorageError]);
              rewrite <- !app_assoc; split; [reflexivity|];
              rewrite forallb_app, Hno; reflexivity).
    all: try (exists (evs ++ [DatasetGetData]);
              rewrite <- !app_assoc; split; [reflexivity|];
              rewrite forallb_app, Hno; reflexivity).
  - rewrite (run_unopened sc Hvo).
    destruct (playlistUrl sc) as [[|c url]|];
      try (cbn; repeat split; auto; lia).
    destruct (url_searchParams sc); [|cbn; repeat split; auto; lia].
    destruct (valid_locator sc); cbn; repeat split; auto; lia.
Qed.

Lemma dataset_dropped_on_every_path_witness :
  (1 <= opens (snd (run scenario_selector_timeout)))%nat /\
  drops (snd (run scenario_selector_timeout)) = 1%nat /\
  items (snd (run scenario_selector_timeout)) = [].
Proof.
  assert (H : (1 <= opens (snd (run scenario_selector_timeout)))%nat)
    by (vm_compute; lia).
  split; [exact H|].
  destruct (proj2 (proj2 (dataset_dropped_on_every_path scenario_selector_timeout)) H)
    as (_ & Hd & Hr).
  split; [exact Hd|exact (proj2 Hr)].
Defined.

(** An attempt on a failing page throws and leaves the dataset as it
    was. *)
Lemma failing_attempt_throws sc url page st :
  page_fails page = true ->
  exists e st',
    (emit (Navigate url) ;;
     (if navigation_fails page then throw NavigationError else ret tt) ;;
     requestHandler sc url page) st = (Threw e, st') /\
    items st' = items st.
Proof.
  unfold page_fails, requestHandler, bind, emit, emit_all, throw, ret,
    Dataset_pushData.
  destruct (navigation_fails page); cbn; [eauto|].
  destruct (selector_appears page); cbn; [|eauto].
  destruct (scroll_loop _ _ _) as [[evs k]|]; cbn; [|eauto].
  destruct (evaluate_fails page); cbn; [eauto|discriminate].
Qed.

(** When every attempt fails the crawler ends with
    [failedRequestHandler], resolves, and has committed nothing. *)
Lemma failing_attempts_commit_nothing sc url :
  (forall n, page_fails (attempt sc n) = true) ->
  forall retries n st, exists st',
    process_request sc url retries n st = (Returned tt, st') /\
    items st' = items st.
Proof.
  intros Hfail retries.
  induction retries as [|r IH]; intros n st; cbn [process_request];
    unfold try_catch;
    destruct (failing_attempt_throws sc url _ st (Hfail n)) as (e & st1 & -> & Hi).
  - unfold failedRequestHandler, emit. eexists. split; [reflexivity|exact Hi].
  - destruct (IH (S n) st1) as (st2 & -> & Hi2). eexists.
    split; [reflexivity|congruence].
Qed.

(** With a valid locator and an opened dataset, a run whose crawl
    resolves is the read-back of what the crawl left. *)
Lemma run_after_crawl sc c url params i id st1 :
  playlistUrl sc = Some (c :: url) ->
  url_searchParams sc = Some params ->
  searchParams_get (js "list") params = Some (i :: id) ->
  open_fails sc = false ->
  crawler_run sc (c :: url) (opened_state sc) = (Returned tt, st1) ->
  run sc = try_catch (respond sc) (on_error sc) st1.
Proof.
  intros Hu Hp Hl Ho Hc.
  unfold run, POST, new_URL, Dataset_open. rewrite Hu, Hp.
  cbn [bind ret]. rewrite Hl, Ho. cbn [bind].
  change {| items := []; trace := trace initial_state ++ [DatasetOpen (js "playlist-" ++ uuid sc)] |}
    with (opened_state sc).
  unfold try_catch, bind at 1. now rewrite Hc.
Qed.

Lemma respond_empty sc st :
  getData_fails sc = false ->
  items st = [] ->
  try_catch (respond sc) (on_error sc) st
  = if drop_fails sc
    then on_error sc StorageError
           {| items := []; trace := trace st ++ [DatasetGetData; DatasetDrop] |}
    else (Returned (Success {| videoList := []; graphData := [] |}),
          {| items := []; trace := trace st ++ [DatasetGetData; DatasetDrop] |}).
Proof.
  intros Hg Hi. rewrite after_crawl_cases, Hg, Hi. reflexivity.
Qed.

(** C9. When the locator is valid, the dataset opens, the crawl
    resolves and the read-back finds no item, the run answers 200 with
    an empty [videoList] and an empty [graphData] (and has dropped the
    dataset); it is no error response.  Only a drop that rejects after
    that read-back hands the run to the [catch] block. *)
Theorem empty_read_back_is_success sc c url params i id st1 :
  playlistUrl sc = Some (c :: url) ->
  url_searchParams sc = Some params ->
  searchParams_get (js "list") params = Some (i :: id) ->
  open_fails sc = false ->
  crawler_run sc (c :: url) (opened_state sc) = (Returned tt, st1) ->
  getData_fails sc = false ->
  items st1 = [] ->
  run sc = if drop_fails sc
           then on_error sc StorageError
                  {| items := [];
                     trace := trace st1 ++ [DatasetGetData; DatasetDrop] |}
           else (Returned (Success {| videoList := []; graphData := [] |}),
                 {| items := [];
                    trace := trace st1 ++ [DatasetGetData; DatasetDrop] |}).
Proof.
  intros Hu Hp Hl Ho Hc Hg Hi.
  rewrite (run_after_crawl sc c url params i id st1 Hu Hp Hl Ho Hc).
  now apply respond_empty.
Qed.

Lemma empty_read_back_is_success_witness :
  fst (run scenario_selector_timeout)
  = Returned (Success {| videoList := []; graphData := [] |}).
Proof.
  rewrite (empty_read_back_is_success scenario_selector_timeout
             104 (tl (js "https://www.youtube.com/playlist?list=PL123"))
             [(js "list", js "PL123")] 80 (js "L123")
             (snd (crawler_run scenario_selector_timeout
                     (js "https://www.youtube.com/playlist?list=PL123")
                     (opened_state scenario_selector_timeout))));
    reflexivity.
Defined.

(** What does reach the [catch] block: a [crawler.run] that rejects is
    answered with the 500 response, after the drop. *)
Lemma rejected_crawl_answers_500 sc c url params i id :
  playlistUrl sc = Some (c :: url) ->
  url_searchParams sc = Some params ->
  searchParams_get (js "list") params = Some (i :: id) ->
  open_fails sc = false ->
  run_rejects sc = true ->
  drop_in_catch_fails sc = false ->
  run sc = (Returned (ErrorResponse 500 scraping_message),
            {| items := [];
               trace := [DatasetOpen (js "playlist-" ++ uuid sc);
                         ConsoleError (js "Crawling failed:") CrawlerError;
                         DatasetDrop] |}).
Proof.
  intros Hu Hp Hl Ho Hr Hd.
  unfold run, POST, new_URL, Dataset_open. rewrite Hu, Hp.
  cbn [bind ret]. rewrite Hl, Ho. cbn [bind].
  unfold try_catch, bind at 1, crawler_run. rewrite Hr.
  unfold throw. rewrite on_error_cases, Hd. reflexivity.
Qed.

(** C6, where the code departs from it.  On a well-formed playlist URL
    whose every attempt fails in the browser (the page does not load,
    no item container shows up within the timeout, or the page context
    is lost under the in-page script) the crawler hands the request to
    [failedRequestHandler], which logs, and [crawler.run] resolves: the
    route answers 200 with empty lists, not the 500 response. *)
Theorem failed_crawl_answers_success (page : Page) :
  page_fails page = true ->
  fst (run (scenario_on_page page))
  = Returned (Success {| videoList := []; graphData := [] |}).
Proof.
  intros Hf.
  destruct (failing_attempts_commit_nothing (scenario_on_page page)
              (js "https://www.youtube.com/playlist?list=PL123")
              (fun _ => Hf) maxRequestRetries 0%nat
              (opened_state (scenario_on_page page))) as (st1 & Hr & Hi).
  rewrite (run_after_crawl (scenario_on_page page)
             104 (tl (js "https://www.youtube.com/playlist?list=PL123"))
             [(js "list", js "PL123")] 80 (js "L123") st1
             eq_refl eq_refl eq_refl eq_refl Hr).
  now rewrite respond_empty.
Qed.

Lemma failed_crawl_answers_success_witness :
  page_fails page_without_items = true /\
  run scenario_selector_timeout
  = (Returned (Success {| videoList := []; graphData := [] |}),
     snd (run scenario_selector_timeout)) /\
  List.length (filter (fun e => match e with WaitForSelector _ _ => true | _ => false end)
                      (trace (snd (run scenario_selector_timeout)))) = 4%nat.
Proof.
  split; [reflexivity|]. split; [|vm_compute; reflexivity].
  pose proof (failed_crawl_answers_success page_without_items eq_refl) as H.
  change (scenario_on_page page_without_items) with scenario_selector_timeout in H.
  destruct (run scenario_selector_timeout) as [o st]. cbn [fst snd] in *.
  now rewrite H.
Defined.

(** C10. The response is built from the first item of the read-back
    alone: with items [first :: rest] in the dataset the run answers
    with [first] as [videoList] and the graph of [first], whatever
    [rest] is.  (When the drop that follows rejects there is no answer
    from lines 116-135, whatever the items.) *)
Theorem response_uses_first_batch sc st first rest :
  getData_fails sc = false ->
  items st = first :: rest ->
  fst (respond sc st)
  = (if drop_fails sc then Threw StorageError
     else Returned (Success {| videoList := first;
                               graphData := graphData_of first |})) /\
  (forall st' rest', items st' = first :: rest' ->
                     fst (respond sc st') = fst (respond sc st)).
Proof.
  intros Hg Hi.
  assert (H : forall s r, items s = first :: r ->
              fst (respond sc s)
              = if drop_fails sc then Threw StorageError
                else Returned (Success {| videoList := first;
                                          graphData := graphData_of first |})).
  { intros s r Hs. unfold respond, Dataset_getData, bind, Dataset_drop, ret.
    rewrite Hg. cbn [items trace]. rewrite Hs. now destruct (drop_fails sc). }
  split; [apply (H st rest Hi)|].
  intros st' rest' Hs. now rewrite (H st' rest' Hs), (H st rest Hi).
Qed.

Lemma response_uses_first_batch_witness :
  fst (respond scenario_three_videos state_with_two_batches)
  = Returned (Success
      {| videoList := [ {| title := js "a"; views := of_Z 7; thumbnail := [] |} ];
         graphData := [ {| name := js "Video 1"; graph_views := of_Z 7 |} ] |}).
Proof.
  exact (proj1 (response_uses_first_batch scenario_three_videos
                  state_with_two_batches
                  [ {| title := js "a"; views := of_Z 7; thumbnail := [] |} ]
                  [ [ {| title := js "b"; views := of_Z 8; thumbnail := [] |};
                      {| title := js "c"; views := of_Z 9; thumbnail := [] |} ] ]
                  eq_refl eq_refl)).
Defined.

(** The end-to-end scenario: three containers with the texts
    "1,000,000 views", "500K views" and "10 views" on a page that
    settles after one round. *)
Lemma three_videos_end_to_end :
  fst (run scenario_three_videos) =
  Returned (Success
    {| videoList := [ {| title := []; views := of_Z 1000000; thumbnail := [] |};
                      {| title := []; views := of_Z 500000; thumbnail := [] |};
                      {| title := []; views := of_Z 10; thumbnail := [] |} ];
       graphData := [ {| name := js "Video 1"; graph_views := of_Z 1000000 |};
                      {| name := js "Video 2"; graph_views := of_Z 500000 |};
                      {| name := js "Video 3"; graph_views := of_Z 10 |} ] |}).
Proof. vm_compute. reflexivity. Qed.

(* ================================================================== *)
(** * The pattern, characterized *)
(* ================================================================== *)

Lemma literal_ci_sound {R : Type} (lit s : jsstring) (k : jsstring -> option R) r :
  literal_ci lit s k = Some r ->
  exists w rest, s = w ++ rest /\ map upper_unit w = lit /\ k rest = Some r.
Proof.
  revert s. induction lit as [|l lit IH]; intros s H; cbn in H.
  - now exists [], s.
  - destruct s as [|c t]; [discriminate|].
    destruct (upper_unit c =? l) eqn:Hc; [|discriminate].
    apply Z.eqb_eq in Hc. destruct (IH _ H) as (w & rest & -> & Hw & Hk).
    exists (c :: w), rest. cbn. now rewrite Hc, Hw.
Qed.

(** The pattern [/^([\d,.]+[KMB]?)\s*views?$/i] matches exactly the
    texts made of a non-empty run of digits, commas and dots, at most
    one of the letters K, M, B, any white space, and the word "view" or
    "views", the letters in either case; the first capture group is the
    run with its letter. *)
Theorem viewsMatch_characterized (text g : jsstring) :
  viewsMatch text = Some g <->
  exists ds sfx sp w tail,
    text = ds ++ sfx ++ sp ++ w ++ tail /\ g = ds ++ sfx /\
    ds <> [] /\ forallb is_count_char ds = true /\
    (sfx = [] \/ exists c, sfx = [c] /\ is_suffix_char c = true) /\
    forallb is_space sp = true /\
    map upper_unit w = js "VIEW" /\
    (tail = [] \/ exists c, tail = [c] /\ is_s_char c = true).
Proof.
  split.
  - unfold viewsMatch. intros H.
    apply class_plus_sound in H as (ds & r1 & -> & Hne & Hds & H).
    apply class_opt_sound in H as (sfx & r2 & -> & Hsfx & H).
    apply class_star_sound in H as (sp & r3 & -> & Hsp & H).
    apply literal_ci_sound in H as (w & r4 & -> & Hw & H).
    apply class_opt_sound in H as (tail & r5 & -> & Htail & H).
    destruct r5; [|discriminate]. injection H as <-.
    exists ds, sfx, sp, w, tail. rewrite app_nil_r. repeat split; auto.
  - intros (ds & sfx & sp & w & tail & -> & -> & Hne & Hds & Hsfx & Hsp & Hw & Htail).
    now apply viewsMatch_accepts.
Qed.

(* ================================================================== *)
(** * The case of the letters *)
(* ================================================================== *)

Lemma upper_unit_idempotent (c : code_unit) :
  upper_unit (upper_unit c) = upper_unit c.
Proof.
  unfold upper_unit.
  destruct ((97 <=? c) && (c <=? 122)) eqn:Hc; [|now rewrite Hc].
  destruct ((97 <=? c - 32) && (c - 32 <=? 122)) eqn:Hd; lia.
Qed.

Lemma toUpperCase_idempotent (s : jsstring) :
  toUpperCase (toUpperCase s) = toUpperCase s.
Proof.
  unfold toUpperCase. rewrite map_map. apply map_ext, upper_unit_idempotent.
Qed.

(** The classes of the pattern do not look at the case of a letter. *)
Lemma classes_ignore_case (c : code_unit) :
  is_count_char (upper_unit c) = is_count_char c /\
  is_suffix_char (upper_unit c) = is_suffix_char c /\
  is_space (upper_unit c) = is_space c /\
  is_s_char (upper_unit c) = is_s_char c.
Proof.
  unfold is_suffix_char, is_s_char. rewrite upper_unit_idempotent.
  unfold is_count_char, is_digit, is_space, upper_unit.
  destruct ((97 <=? c) && (c <=? 122)) eqn:Hc; repeat split; lia.
Qed.

Section RegexCase.
Let up : option jsstring -> option jsstring := option_map toUpperCase.

Lemma class_star_upper p acc s (k k' : jsstring -> jsstring -> option jsstring) :
  (forall c, p (upper_unit c) = p c) ->
  (forall a r, k' (toUpperCase a) (toUpperCase r) = up (k a r)) ->
  class_star p (toUpperCase acc) (toUpperCase s) k' = up (class_star p acc s k).
Proof.
  unfold toUpperCase. intros Hp Hk. revert acc.
  induction s as [|c t IH]; intros acc; cbn [map class_star].
  - apply (Hk acc []).
  - rewrite Hp. destruct (p c); [|apply (Hk acc (c :: t))].
    specialize (IH (acc ++ [c])). rewrite map_app in IH. cbn [map] in IH.
    rewrite IH. destruct (class_star p (acc ++ [c]) t k); [reflexivity|].
    apply (Hk acc (c :: t)).
Qed.

Lemma class_plus_upper p s (k k' : jsstring -> jsstring -> option jsstring) :
  (forall c, p (upper_unit c) = p c) ->
  (forall a r, k' (toUpperCase a) (toUpperCase r) = up (k a r)) ->
  class_plus p (toUpperCase s) k' = up (class_plus p s k).
Proof.
  intros Hp Hk. destruct s as [|c t]; [reflexivity|].
  cbn [toUpperCase map class_plus].
  rewrite Hp. destruct (p c); [|reflexivity].
  apply (class_star_upper p [c] t k k' Hp Hk).
Qed.

Lemma class_opt_upper p s (k k' : jsstring -> jsstring -> option jsstring) :
  (forall c, p (upper_unit c) = p c) ->
  (forall a r, k' (toUpperCase a) (toUpperCase r) = up (k a r)) ->
  class_opt p (toUpperCase s) k' = up (class_opt p s k).
Proof.
  intros Hp Hk. destruct s as [|c t]; cbn [toUpperCase map class_opt].
  - apply (Hk [] []).
  - rewrite Hp. destruct (p c); [|apply (Hk [] (c :: t))].
    pose proof (Hk [c] t) as H1. unfold toUpperCase in H1. cbn [map] in H1.
    unfold toUpperCase. rewrite H1.
    destruct (k [c] t); [reflexivity|].
    apply (Hk [] (c :: t)).
Qed.

Lemma literal_ci_upper lit s (k k' : jsstring -> option jsstring) :
  (forall r, k' (toUpperCase r) = up (k r)) ->
  literal_ci lit (toUpperCase s) k' = up (literal_ci lit s k).
Proof.
  intros Hk. revert s. induction lit as [|l lit IH]; intros s; cbn [literal_ci].
  - apply Hk.
  - destruct s as [|c t]; [reflexivity|]. cbn [toUpperCase map].
    rewrite upper_unit_idempotent.
    destruct (upper_unit c =? l); [apply IH|reflexivity].
Qed.
End RegexCase.

(** Matching the upper-cased text gives the upper-cased group. *)
Lemma viewsMatch_upper (text : jsstring) :
  viewsMatch (toUpperCase text) = option_map toUpperCase (viewsMatch text).
Proof.
  unfold viewsMatch.
  apply class_plus_upper; [apply classes_ignore_case|]. intros g1 r1.
  apply class_opt_upper; [apply classes_ignore_case|]. intros g2 r2.
  apply class_star_upper with (acc := []); [apply classes_ignore_case|]. intros sp r3.
  apply literal_ci_upper. intros r4.
  apply class_opt_upper; [apply classes_ignore_case|]. intros s r5.
  destruct r5; [|reflexivity]. cbn. unfold toUpperCase. now rewrite map_app.
Qed.

Lemma normalize_upper (text : jsstring) :
  normalize (toUpperCase text) = normalize text.
Proof.
  unfold normalize. rewrite viewsMatch_upper.
  destruct (viewsMatch text) as [g|]; [|reflexivity].
  cbn [option_map]. now rewrite toUpperCase_idempotent.
Qed.

(** The normalizer does not see the case of the letters: two texts that
    differ only in the case of ASCII letters get the same count. *)
Theorem normalize_ignores_case (a b : jsstring) :
  toUpperCase a = toUpperCase b -> normalize a = normalize b.
Proof.
  intros H. now rewrite <- (normalize_upper a), <- (normalize_upper b), H.
Qed.

Lemma normalize_ignores_case_witness :
  toUpperCase (js "12.5k Views") = toUpperCase (js "12.5K VIEWS") /\
  normalize (js "12.5k Views") = normalize (js "12.5K VIEWS").
Proof.
  split; [reflexivity|].
  exact (normalize_ignores_case (js "12.5k Views") (js "12.5K VIEWS") eq_refl).
Defined.

(* ================================================================== *)
(** * Counts read exactly *)
(* ================================================================== *)

Lemma radix_value_nonneg (ds : jsstring) : 0 <= radix_value 10 ds.
Proof.
  unfold radix_value.
  pose proof (fold_digits_lower ds 0 ltac:(lia)). lia.
Qed.

(** The Number of a non-negative integer, however it is parsed. *)
Lemma decimal_value_integer (n : Z) :
  0 <= n -> decimal_value false n 0 = of_Z n.
Proof.
  intros Hn. destruct n as [|p|p]; [reflexivity| |lia].
  unfold decimal_value, of_Z, binary_normalize.
  change (0 <=? 0) with true. cbv iota.
  change (Z.to_pos (10 ^ 0)) with 1%positive. now rewrite Pos.mul_1_r.
Qed.

Lemma endsWith_snoc (s : jsstring) (c x : code_unit) :
  endsWith (s ++ [c]) x = (c =? x).
Proof. unfold endsWith. now rewrite rev_app_distr. Qed.

Lemma endsWith_absent (s : jsstring) (x : code_unit) :
  (forall c, In c s -> (c =? x) = false) -> endsWith s x = false.
Proof.
  intros H. unfold endsWith. destruct (rev s) as [|d t] eqn:Hr; [reflexivity|].
  apply H, in_rev. rewrite Hr. now left.
Qed.

Lemma remove_commas_chars (ds : jsstring) (c : code_unit) :
  forallb is_count_char ds = true -> In c (remove_commas ds) ->
  is_digit c = true \/ c = 46.
Proof.
  intros Hds Hc. apply filter_In in Hc as [Hc Hcomma].
  rewrite forallb_forall in Hds. specialize (Hds c Hc).
  unfold is_count_char, is_digit in *. lia.
Qed.

(* ================================================================== *)
(** * Products of small integers *)
(* ================================================================== *)

(** Shifting out [k] zero bits leaves no remainder. *)
Lemma shr_exact (k : positive) :
  forall m, 0 <= m ->
    iter_pos shr_1 k {| shr_m := m * 2 ^ Zpos k; shr_r := false; shr_s := false |}
    = {| shr_m := m; shr_r := false; shr_s := false |}.
Proof.
  assert (H1 : forall m, 0 <= m ->
             shr_1 {| shr_m := m * 2; shr_r := false; shr_s := false |}
             = {| shr_m := m; shr_r := false; shr_s := false |}).
  { intros [|p|p] Hm; try lia; [reflexivity|].
    change (Zpos p * 2) with (Zpos (p * 2)). rewrite Pos.mul_comm. reflexivity. }
  induction k as [k IH|k IH|]; intros m Hm; cbn [iter_pos].
  - replace (m * 2 ^ Zpos k~1) with (m * 2 ^ Zpos k * 2 ^ Zpos k * 2)
      by (replace (Zpos k~1) with (Zpos k + Zpos k + 1) by lia;
          rewrite !Z.pow_add_r by lia; change (2 ^ 1) with 2; ring).
    assert (0 <= 2 ^ Zpos k) by (apply Z.pow_nonneg; lia).
    rewrite H1 by nia. rewrite IH by nia. now apply IH.
  - replace (m * 2 ^ Zpos k~0) with (m * 2 ^ Zpos k * 2 ^ Zpos k)
      by (replace (Zpos k~0) with (Zpos k + Zpos k) by lia;
          rewrite Z.pow_add_r by lia; ring).
    assert (0 <= 2 ^ Zpos k) by (apply Z.pow_nonneg; lia).
    rewrite IH by nia. now apply IH.
  - change (2 ^ 1) with 2. now apply H1.
Qed.

(** A value that fits the format is rounded to itself, however many
    zero bits its mantissa trails. *)
Lemma round_aux_exact s (m0 : positive) e0 (k : positive) :
  fexp prec emax (Zpos (digits2_pos m0) + e0) = e0 ->
  e0 <= emax - prec ->
  binary_round_aux prec emax s (Zpos m0 * 2 ^ Zpos k) (e0 - Zpos k) loc_Exact
  = S754_finite s m0 e0.
Proof.
  intros Hc He. unfold binary_round_aux, shr_fexp.
  rewrite <- iter_xO_value.
  change (Zdigits2 (Zpos (Pos.iter xO m0 k)))
    with (Zpos (digits2_pos (Pos.iter xO m0 k))).
  rewrite iter_xO_digits.
  replace (Zpos (digits2_pos m0) + Zpos k + (e0 - Zpos k))
    with (Zpos (digits2_pos m0) + e0) by lia.
  rewrite Hc. replace (e0 - (e0 - Zpos k)) with (Zpos k) by lia.
  cbn [shr shr_record_of_loc]. rewrite iter_xO_value, shr_exact by lia.
  cbn [shr_m loc_of_shr_record round_nearest_even].
  change (Zdigits2 (Zpos m0)) with (Zpos (digits2_pos m0)).
  replace (e0 - Zpos k + Zpos k) with e0 by lia.
  rewrite Hc, Z.sub_diag. cbn [shr shr_record_of_loc shr_m].
  apply Z.leb_le in He. now rewrite He.
Qed.

(** The Number of an integer below 2^53: its 53-bit mantissa and its
    exponent. *)
Lemma of_Z_small (p : positive) :
  Zpos (digits2_pos p) <= 53 ->
  exists m, of_Z (Zpos p) = S754_finite false m (Zpos (digits2_pos p) - 53) /\
            Zpos m = Zpos p * 2 ^ (53 - Zpos (digits2_pos p)) /\
            Zpos (digits2_pos m) = 53.
Proof.
  intros Hd. unfold of_Z, binary_normalize, binary_round, shl_align.
  assert (Hf : fexp prec emax (Zpos (digits2_pos p) + 0) = Zpos (digits2_pos p) - 53)
    by (unfold fexp, emin, prec, emax; lia).
  rewrite Hf.
  destruct (Zpos (digits2_pos p) - 53 - 0) as [|k|k] eqn:Hk; try lia.
  - exists p. replace (Zpos (digits2_pos p) - 53) with 0 by lia.
    split; [|split; [|lia]].
    + apply round_aux_canonical; unfold fexp, emin, prec, emax; lia.
    + replace (53 - Zpos (digits2_pos p)) with 0 by lia. lia.
  - exists (Pos.iter xO p k). split; [|split].
    + apply round_aux_canonical; [rewrite iter_xO_digits|];
        unfold fexp, emin, prec, emax; lia.
    + rewrite iter_xO_value. f_equal. f_equal. lia.
    + rewrite iter_xO_digits. lia.
Qed.

Lemma digits2_pos_small (p : positive) :
  Zpos p < 2 ^ 53 -> Zpos (digits2_pos p) <= 53.
Proof.
  intros Hp. pose proof (digits2_pos_bounds p) as [Hlo _].
  assert (H : 2 ^ (Zpos (digits2_pos p) - 1) < 2 ^ 53) by lia.
  apply Z.pow_lt_mono_r_iff in H; lia.
Qed.

(** Doubles multiply integers exactly as long as the product stays
    below 2^53. *)
Lemma mul_exact (a b : Z) :
  0 < a -> 0 < b -> a * b < 2 ^ 53 ->
  num_mul (of_Z a) (of_Z b) = of_Z (a * b).
Proof.
  intros Ha Hb Hab.
  destruct a as [|a|a]; try lia.
  destruct b as [|b|b]; try lia.
  change (Zpos a * Zpos b) with (Zpos (a * b)) in *.
  pose proof (digits2_pos_small (a * b) Hab) as HdN.
  assert (Hda : Zpos (digits2_pos a) <= Zpos (digits2_pos (a * b)))
    by (apply digits2_pos_monotone; nia).
  assert (Hdb : Zpos (digits2_pos b) <= Zpos (digits2_pos (a * b)))
    by (apply digits2_pos_monotone; nia).
  destruct (of_Z_small a ltac:(lia)) as (ma & -> & Hma & _).
  destruct (of_Z_small b ltac:(lia)) as (mb & -> & Hmb & _).
  destruct (of_Z_small (a * b) HdN) as (mN & -> & HmN & HdmN).
  unfold num_mul, SFmul. cbn [xorb].
  set (da := Zpos (digits2_pos a)) in *. set (db := Zpos (digits2_pos b)) in *.
  set (dN := Zpos (digits2_pos (a * b))) in *.
  assert (HdN2 : dN <= da + db).
  { pose proof (digits2_pos_bounds a) as [_ Ha2].
    pose proof (digits2_pos_bounds b) as [_ Hb2].
    pose proof (digits2_pos_bounds (a * b)) as [HN _].
    fold da in Ha2. fold db in Hb2. fold dN in HN.
    assert (H : 2 ^ (dN - 1) < 2 ^ (da + db)).
    { rewrite Z.pow_add_r by lia. rewrite Pos2Z.inj_mul in HN. nia. }
    apply Z.pow_lt_mono_r_iff in H; lia. }
  assert (HdN3 : da + db - 1 <= dN).
  { pose proof (digits2_pos_bounds a) as [Ha2 _].
    pose proof (digits2_pos_bounds b) as [Hb2 _].
    pose proof (digits2_pos_bounds (a * b)) as [_ HN].
    fold da in Ha2. fold db in Hb2. fold dN in HN.
    assert (H : 2 ^ (da - 1 + (db - 1)) < 2 ^ dN).
    { rewrite Z.pow_add_r by lia. rewrite Pos2Z.inj_mul in HN.
      assert (0 < 2 ^ (da - 1)) by (apply Z.pow_pos_nonneg; lia).
      assert (0 < 2 ^ (db - 1)) by (apply Z.pow_pos_nonneg; lia).
      nia. }
    apply Z.pow_lt_mono_r_iff in H; lia. }
  destruct (53 + dN - da - db) as [|k|k] eqn:Hk; try lia.
  replace (Zpos (ma * mb)) with (Zpos mN * 2 ^ Zpos k).
  - replace (da - 53 + (db - 53)) with (dN - 53 - Zpos k) by lia.
    apply round_aux_exact; [rewrite HdmN|]; unfold fexp, emin, prec, emax; lia.
  - rewrite Pos2Z.inj_mul, Hma, Hmb, HmN, Pos2Z.inj_mul.
    rewrite <- Hk.
    replace (53 + dN - da - db) with ((53 - da) + (53 - db) - (53 - dN)) by lia.
    assert (E : 2 ^ (53 - da) * 2 ^ (53 - db)
                = 2 ^ (53 - dN) * 2 ^ (53 - da + (53 - db) - (53 - dN))).
    { rewrite <- !Z.pow_add_r by lia. f_equal. lia. }
    nia.
Qed.

Lemma span_all_then (p : code_unit -> bool) (a : jsstring) (u : code_unit)
      (r : jsstring) :
  forallb p a = true -> p u = false -> span p (a ++ u :: r) = (a, u :: r).
Proof.
  intros Ha Hu. induction a as [|c a IH]; cbn [app span].
  - now rewrite Hu.
  - cbn [forallb] in Ha. apply andb_prop in Ha as [Hc Ha].
    now rewrite Hc, (IH Ha).
Qed.

Lemma grouped_digits_stripped (ds : jsstring) :
  forallb is_grouped_digit ds = true ->
  forallb is_count_char ds = true /\ forallb is_digit (remove_commas ds) = true.
Proof.
  induction ds as [|c ds IH]; [now split|]. cbn [forallb remove_commas filter].
  intros H. apply andb_prop in H as [Hc H]. destruct (IH H) as [H1 H2].
  fold (remove_commas ds). split.
  - rewrite H1, andb_true_r. unfold is_grouped_digit, is_count_char in *. lia.
  - destruct (negb (c =? 44)) eqn:Hn; [|exact H2]. cbn [forallb].
    rewrite H2, andb_true_r. unfold is_grouped_digit, is_digit in *. lia.
Qed.

(** A whole-number count with a suffix is scaled without error while
    the product stays below 2^53: the result is the integer
    [count * 1000], [count * 1000000] or [count * 1000000000]. *)
Theorem suffixed_count_exact (ds : jsstring) (c : code_unit) (sp w tail : jsstring) :
  forallb is_grouped_digit ds = true ->
  remove_commas ds <> [] ->
  is_suffix_char c = true ->
  forallb is_space sp = true ->
  map upper_unit w = js "VIEW" ->
  (tail = [] \/ exists s, tail = [s] /\ is_s_char s = true) ->
  radix_value 10 (remove_commas ds) * multiplier c < 2 ^ 53 ->
  normalize (ds ++ [c] ++ sp ++ w ++ tail)
  = of_Z (radix_value 10 (remove_commas ds) * multiplier c).
Proof.
  intros Hgd Hne Hc Hsp Hw Htail Hsmall.
  destruct (grouped_digits_stripped ds Hgd) as [Hds Hdg].
  assert (Hne' : ds <> []) by (intros ->; now apply Hne).
  pose proof (viewsMatch_accepts ds [c] sp w tail Hne' Hds
                (or_intror (ex_intro _ c (conj eq_refl Hc))) Hsp Hw Htail) as Hm.
  pose proof (viewString_alphabet _ _ Hm) as Hv.
  assert (Hvs : remove_commas (toUpperCase (ds ++ [c]))
                = remove_commas ds ++ [upper_unit c]).
  { unfold toUpperCase, remove_commas. rewrite map_app, filter_app.
    fold (toUpperCase ds). rewrite (count_chars_upper ds Hds). cbn [map filter].
    unfold is_suffix_char in Hc.
    destruct (negb (upper_unit c =? 44)) eqn:Hn; [reflexivity|lia]. }
  rewrite Hvs in Hv.
  assert (Hpf : parseFloat (remove_commas ds ++ [upper_unit c])
                = of_Z (radix_value 10 (remove_commas ds))).
  { rewrite (parseFloat_view _ Hv).
    rewrite span_all_then
      by (auto; unfold is_suffix_char, is_digit in *; lia).
    replace (upper_unit c =? 46) with false
      by (unfold is_suffix_char in Hc; lia).
    rewrite app_nil_r.
    rewrite (exponent_part_view [upper_unit c])
      by (intros x Hx; apply Hv, in_or_app; now right).
    destruct (remove_commas ds) as [|d z] eqn:Hz; [congruence|].
    apply decimal_value_integer, radix_value_nonneg. }
  unfold normalize. rewrite Hm, Hvs, !endsWith_snoc, Hpf.
  pose proof (radix_value_nonneg (remove_commas ds)) as Hn0.
  assert (Hmul : forall f, f = 1000 \/ f = 1000000 \/ f = 1000000000 ->
                 radix_value 10 (remove_commas ds) * f < 2 ^ 53 ->
                 num_mul (of_Z (radix_value 10 (remove_commas ds))) (of_Z f)
                 = of_Z (radix_value 10 (remove_commas ds) * f)).
  { intros f Hf Hs.
    destruct (Z.eq_dec (radix_value 10 (remove_commas ds)) 0) as [->|Hnz].
    - destruct Hf as [->|[->| ->]]; reflexivity.
    - apply mul_exact; lia. }
  unfold multiplier, is_suffix_char in *.
  destruct (upper_unit c =? 75); [apply Hmul; [auto|exact Hsmall]|].
  destruct (upper_unit c =? 77); [apply Hmul; [auto|exact Hsmall]|].
  destruct (upper_unit c =? 66); [apply Hmul; [auto|exact Hsmall]|].
  discriminate.
Qed.

Lemma suffixed_count_exact_witness :
  normalize (js "1,234K views") = of_Z 1234000.
Proof.
  exact (suffixed_count_exact (js "1,234") 75 (js " ") (js "view") (js "s")
           eq_refl ltac:(discriminate) eq_refl eq_refl eq_refl
           (or_intror (ex_intro _ 115 (conj eq_refl eq_refl))) eq_refl).
Defined.

(* ================================================================== *)
(** * When the count is NaN *)
(* ================================================================== *)

Lemma shr_fexp_nonneg m e l :
  0 <= m -> 0 <= shr_m (fst (shr_fexp prec emax m e l)).
Proof.
  intros Hm. unfold shr_fexp, shr.
  destruct (fexp prec emax (Zdigits2 m + e) - e) as [|n|n]; cbn [fst];
    rewrite ?shr_m_of_loc; try exact Hm.
  rewrite iter_shr_m by (rewrite shr_m_of_loc; exact Hm). rewrite shr_m_of_loc.
  apply Z.div_pos; [exact Hm|]. apply Z.pow_pos_nonneg; lia.
Qed.

(** Rounding a mantissa that is not negative never gives NaN. *)
Lemma round_aux_not_nan s m e l :
  0 <= m -> binary_round_aux prec emax s m e l <> NaN.
Proof.
  intros Hm. unfold binary_round_aux.
  pose proof (shr_fexp_nonneg m e l Hm) as H1.
  destruct (shr_fexp prec emax m e l) as [mrs' e1]. cbn [fst] in H1.
  pose proof (round_nearest_even_ge (shr_m mrs') (loc_of_shr_record mrs')) as Hr.
  pose proof (shr_fexp_nonneg
                (round_nearest_even (shr_m mrs') (loc_of_shr_record mrs'))
                e1 loc_Exact ltac:(lia)) as H2.
  destruct (shr_fexp prec emax _ e1 loc_Exact) as [mrs'' e2]. cbn [fst] in H2.
  destruct (shr_m mrs'') as [|m2|m2]; try lia; [discriminate|].
  destruct (e2 <=? emax - prec); discriminate.
Qed.

Lemma decimal_value_not_nan neg n k : decimal_value neg n k <> NaN.
Proof.
  unfold decimal_value. destruct n as [|p|p]; try discriminate.
  destruct (0 <=? k).
  - unfold binary_round.
    destruct (shl_align _ _ _) as [mz ez]. apply round_aux_not_nan. lia.
  - unfold SFdiv, SFdiv_core_binary.
    set (m' := match 0 - 0 - _ with
               | 0 => Zpos p
               | Zpos _ => Z.shiftl (Zpos p) _
               | Zneg _ => 0
               end).
    assert (Hm' : 0 <= m').
    { unfold m'. destruct (0 - 0 - _); try lia. apply Z.shiftl_nonneg. lia. }
    pose proof (Z_div_mod m' (Zpos (Z.to_pos (10 ^ (- k)))) ltac:(lia)) as Hdm.
    destruct (Z.div_eucl m' (Zpos (Z.to_pos (10 ^ (- k))))) as [q r].
    destruct Hdm as [Hdm Hr]. apply round_aux_not_nan. nia.
Qed.

Lemma num_mul_nan x m e :
  num_mul x (S754_finite false m e) = NaN <-> x = NaN.
Proof.
  split; [|now intros ->].
  destruct x as [b|b| |b mx ex]; try discriminate; [reflexivity|].
  unfold num_mul, SFmul. intros H. now apply round_aux_not_nan in H.
Qed.

Lemma span_fst_nil (p : code_unit -> bool) (s : jsstring) :
  fst (span p s) = [] <-> match s with c :: _ => p c = false | [] => True end.
Proof.
  destruct s as [|c t]; cbn [span]; [now split|].
  destruct (p c); [|now split].
  destruct (span p t) as [a b]. cbn [fst]. split; discriminate.
Qed.

Lemma parseInt_nan (v : jsstring) :
  (forall c, In c v -> is_view_char c = true) ->
  parseInt v = NaN <->
  match v with c :: _ => negb (is_digit c) | [] => true end = true.
Proof.
  intros Hv. rewrite (parseInt_view v Hv).
  rewrite (span_ext_in (is_radix_digit 10) is_digit)
    by (intros c Hc; apply radix_digit_view, Hv, Hc).
  pose proof (span_fst_nil is_digit v) as Hn.
  destruct (fst (span is_digit v)) as [|d z].
  - split; [intros _|reflexivity]. destruct v as [|c t]; [reflexivity|].
    now rewrite (proj1 Hn eq_refl).
  - split; [intros H; now apply decimal_value_not_nan in H|].
    intros H. destruct v as [|c t].
    + discriminate (proj2 Hn I).
    + apply negb_true_iff in H. discriminate (proj2 Hn H).
Qed.

Lemma parseFloat_nan (v : jsstring) :
  (forall c, In c v -> is_view_char c = true) ->
  parseFloat v = NaN <->
  match v with
  | c :: t =>
      negb (is_digit c) &&
      negb ((c =? 46) && match t with d :: _ => is_digit d | [] => false end)
  | [] => true
  end = true.
Proof.
  intros Hv. rewrite (parseFloat_view v Hv).
  destruct v as [|c t]; [cbn; now split|].
  cbn [span]. destruct (is_digit c) eqn:Hc.
  - destruct (span is_digit t) as [a r1].
    destruct (match r1 with
              | [] => ([], [])
              | c0 :: t0 => if c0 =? 46 then span is_digit t0 else ([], r1)
              end) as [fp r2].
    cbn [app negb andb]. split; [|discriminate].
    intros H. now apply decimal_value_not_nan in H.
  - cbn [negb andb]. destruct (c =? 46) eqn:Hdot; cbn [andb app].
    + pose proof (span_fst_nil is_digit t) as Hn.
      destruct (span is_digit t) as [fp r2]. cbn [fst] in Hn.
      destruct fp as [|d fp].
      * split; [intros _|reflexivity]. destruct t as [|d t']; [reflexivity|].
        now rewrite (proj1 Hn eq_refl).
      * split; [intros H; now apply decimal_value_not_nan in H|].
        intros H. destruct t as [|d' t'].
        -- discriminate (proj2 Hn I).
        -- apply negb_true_iff in H. discriminate (proj2 Hn H).
    + now split.
Qed.

(** The count is NaN exactly when the pattern matches and the numeral,
    commas stripped, has no digit where it is read: not at its head
    and, before a suffix, not right after a leading dot either. *)
Theorem normalize_nan_iff (text : jsstring) :
  normalize text = NaN <->
  exists g, viewsMatch text = Some g /\
            reads_no_number (remove_commas (toUpperCase g)) = true.
Proof.
  unfold normalize.
  destruct (viewsMatch text) as [g|] eqn:Hm.
  - pose proof (viewString_alphabet _ _ Hm) as Hv.
    set (v := remove_commas (toUpperCase g)) in *.
    assert (Hg : (exists g0, Some g = Some g0 /\
                    reads_no_number (remove_commas (toUpperCase g0)) = true)
                 <-> reads_no_number v = true).
    { split; [intros (g0 & [= <-] & H); exact H|intros H; now exists g]. }
    rewrite Hg. unfold reads_no_number.
    destruct of_Z_literals as (_ & -> & -> & ->).
    destruct (endsWith v 75);
      [cbn [orb]; rewrite num_mul_nan; apply (parseFloat_nan v Hv)|].
    destruct (endsWith v 77);
      [cbn [orb]; rewrite num_mul_nan; apply (parseFloat_nan v Hv)|].
    destruct (endsWith v 66);
      [cbn [orb]; rewrite num_mul_nan; apply (parseFloat_nan v Hv)|].
    cbn [orb]. apply (parseInt_nan v Hv).
  - split; [discriminate|]. intros (g & Hg & _). discriminate.
Qed.

(* ================================================================== *)
(** * What the scroll loop costs *)
(* ================================================================== *)

Lemma rounds_events_measures (height : Heights) (n k : nat) :
  List.length (filter is_scroll (rounds_events height k n)) = n /\
  slept (rounds_events height k n) = 2000 * Z.of_nat n /\
  last_scroll (rounds_events height k n)
  = match n with O => None | S m => Some (height (k + m)%nat) end.
Proof.
  revert k. induction n as [|n IH]; intros k; [now cbn|].
  destruct (IH (S k)) as (Hc & Hs & Hl).
  cbn [rounds_events scroll_round fst app filter is_scroll List.length slept
       last_scroll].
  rewrite Hc, Hs, Hl. repeat split; [lia|].
  destruct n; [now rewrite Nat.add_0_r|].
  f_equal. f_equal. lia.
Qed.

Lemma scroll_loop_rounds_bound (height : Heights) (fuel k : nat) evs n :
  scroll_loop fuel height k = Some (evs, n) -> (n <= k + fuel)%nat.
Proof.
  revert k evs n. induction fuel as [|fuel IH]; intros k evs n H; [discriminate|].
  cbn [scroll_loop] in H. unfold scroll_round in H.
  destruct (height (S k) =? height k).
  - injection H as _ <-. lia.
  - destruct (scroll_loop fuel height (S k)) as [[evs' n']|] eqn:Hl; [|discriminate].
    injection H as _ <-. apply IH in Hl. lia.
Qed.

(** A loop that ends after [n] rounds has scrolled [n] times and waited
    [n] times 2000 ms (so at least 2 s, also on a page that is complete
    from the start); its last scroll went to the height it measured
    last; and more time for the handler changes nothing. *)
Theorem scroll_loop_accounting (height : Heights) (fuel : nat) evs n :
  scroll_loop fuel height 0 = Some (evs, n) ->
  List.length (filter is_scroll evs) = n /\
  slept evs = 2000 * Z.of_nat n /\ 2000 <= slept evs /\
  last_scroll evs = Some (height n) /\
  (forall fuel', (fuel <= fuel')%nat -> scroll_loop fuel' height 0 = Some (evs, n)).
Proof.
  intros H. pose proof (scroll_loop_rounds_bound _ _ _ _ _ H) as Hb.
  destruct (scroll_loop_sound _ _ _ _ _ H) as (Hlt & Hst & Hne & ->).
  rewrite Nat.sub_0_r.
  destruct (rounds_events_measures height n 0) as (Hc & Hs & Hl).
  repeat split; try lia; auto.
  - rewrite Hl. destruct n as [|m]; [lia|].
    cbn [Nat.add]. replace (S m - 1)%nat with m in Hst by lia. now rewrite Hst.
  - intros fuel' Hf. destruct n as [|m]; [lia|].
    apply (scroll_loop_complete height m 0 fuel').
    + cbn [Nat.add]. now replace (S m - 1)%nat with m in Hst by lia.
    + intros i Hi. apply Hne; lia.
    + lia.
Qed.

Lemma scroll_loop_accounting_witness :
  scroll_loop 5 (ramp 2) 0 = Some (rounds_events (ramp 2) 0 3, 3%nat) /\
  slept (rounds_events (ramp 2) 0 3) = 6000.
Proof.
  split; [reflexivity|].
  exact (proj1 (proj2 (scroll_loop_accounting (ramp 2) 5 _ 3%nat eq_refl))).
Defined.

(* ================================================================== *)
(** * The route, answer by answer *)
(* ================================================================== *)

(** The answer to a request whose locator is valid. *)
Lemma run_valid sc :
  valid_locator sc = true ->
  fst (run sc) =
  if open_fails sc then Threw StorageError
  else if run_rejects sc || getData_fails sc || drop_fails sc
       then if drop_in_catch_fails sc then Threw StorageError
            else Returned (ErrorResponse 500 scraping_message)
       else Returned (Success {| videoList := crawled_videos sc;
                                 graphData := graphData_of (crawled_videos sc) |}).
Proof.
  intros Hv. destruct (open_fails sc) eqn:Ho.
  - rewrite run_unopened by (rewrite Hv, Ho; reflexivity).
    rewrite Hv. unfold valid_locator in Hv.
    destruct (playlistUrl sc) as [[|c url]|]; try discriminate.
    destruct (url_searchParams sc); [reflexivity|discriminate].
  - destruct (run_opened_table sc Hv Ho) as (evs & _ & _ & ->). cbv zeta.
    destruct (run_rejects sc), (getData_fails sc), (drop_fails sc),
      (drop_in_catch_fails sc); reflexivity.
Qed.

(** The answer to a request whose locator is not valid. *)
Lemma run_invalid sc :
  valid_locator sc = false ->
  run sc =
  match playlistUrl sc with
  | None | Some [] => (Returned (ErrorResponse 400 required_message), initial_state)
  | Some (_ :: _) =>
      match url_searchParams sc with
      | None => (Threw InvalidURL, initial_state)
      | Some _ => (Returned (ErrorResponse 400 invalid_message), initial_state)
      end
  end.
Proof.
  intros Hv. rewrite run_unopened by (rewrite Hv; reflexivity).
  now rewrite Hv.
Qed.



(** The 400 responses, for a body that is a JSON object whose
    [playlistUrl], when present, is a string: "Playlist URL is
    required" exactly when the body has no [playlistUrl] or an empty
    one, "Invalid playlist URL" exactly when the URL parses and its
    first [list] parameter is missing or empty; and a run that answers
    400 has touched nothing. *)
Theorem bad_request_iff sc :
  (fst (run sc) = Returned (ErrorResponse 400 required_message) <->
   playlistUrl sc = None \/ playlistUrl sc = Some []) /\
  (fst (run sc) = Returned (ErrorResponse 400 invalid_message) <->
   exists c url params,
     playlistUrl sc = Some (c :: url) /\ url_searchParams sc = Some params /\
     (searchParams_get (js "list") params = None \/
      searchParams_get (js "list") params = Some [])) /\
  (forall msg, fst (run sc) = Returned (ErrorResponse 400 msg) ->
               snd (run sc) = initial_state).
Proof.
  destruct (valid_locator sc) eqn:Hv.
  - pose proof (run_valid sc Hv) as Hr. pose proof Hv as Hv'.
    unfold valid_locator in Hv'.
    assert (Hno : forall msg, fst (run sc) <> Returned (ErrorResponse 400 msg)).
    { intros msg. rewrite Hr. destruct (open_fails sc); [discriminate|].
      destruct (run_rejects sc || getData_fails sc || drop_fails sc);
        [|discriminate].
      destruct (drop_in_catch_fails sc); discriminate. }
    split; [|split].
    + split; [intros H; now apply Hno in H|].
      intros [H|H]; rewrite H in Hv'; discriminate.
    + split; [intros H; now apply Hno in H|].
      intros (c & url & params & Hu & Hp & Hl). rewrite Hu, Hp in Hv'.
      destruct Hl as [Hl|Hl]; rewrite Hl in Hv'; discriminate.
    + intros msg H. now apply Hno in H.
  - rewrite (run_invalid sc Hv). unfold valid_locator in Hv.
    destruct (playlistUrl sc) as [[|c url]|]; cbn [fst snd].
    + split; [|split]; [split; auto| |reflexivity].
      split; [intros [= H]; now apply js_injective in H|].
      intros (c & url & params & Hu & _). discriminate.
    + destruct (url_searchParams sc) as [params|]; cbn [fst snd].
      * split; [|split]; [| |reflexivity].
        -- split; [intros [= H]; now apply js_injective in H|].
           intros [H|H]; discriminate.
        -- split; [|reflexivity]. intros _. exists c, url, params.
           repeat split.
           destruct (searchParams_get (js "list") params) as [[|i id]|];
             auto; discriminate.
      * split; [|split]; [| |discriminate].
        -- split; [discriminate|]. intros [H|H]; discriminate.
        -- split; [discriminate|].
           intros (c' & url' & params & _ & Hp & _). discriminate.
    + split; [|split]; [split; auto| |reflexivity].
      split; [intros [= H]; now apply js_injective in H|].
      intros (c & url & params & Hu & _). discriminate.
Qed.

(** The 500 response is sent exactly when, past the validation and
    with the dataset open, [crawler.run], [dataset.getData] or the
    [dataset.drop] after the read-back rejects and the drop of the
    [catch] block does not; what happens to the attempts inside the
    crawl never changes the status. *)
Theorem server_error_iff sc :
  fst (run sc) = Returned (ErrorResponse 500 scraping_message) <->
  valid_locator sc = true /\ open_fails sc = false /\
  (run_rejects sc = true \/ getData_fails sc = true \/ drop_fails sc = true) /\
  drop_in_catch_fails sc = false.
Proof.
  destruct (valid_locator sc) eqn:Hv.
  - rewrite (run_valid sc Hv).
    destruct (open_fails sc);
      [split; [discriminate|intros (_ & H & _); discriminate]|].
    destruct (run_rejects sc), (getData_fails sc), (drop_fails sc),
      (drop_in_catch_fails sc); cbn [orb];
      split; try discriminate; auto 6;
      try (intros (_ & _ & _ & H); discriminate);
      try (intros (_ & _ & [H|[H|H]] & _); discriminate).
  - rewrite (run_invalid sc Hv). split; [|intros (H & _); discriminate].
    destruct (playlistUrl sc) as [[|c url]|]; try discriminate.
    destruct (url_searchParams sc); discriminate.
Qed.

(** For a body that is a JSON object whose [playlistUrl], when
    present, is a string, the errors that leave [POST] are the
    [TypeError] of [new URL], the rejection of [Dataset.open] and the
    rejection of the [dataset.drop] of the [catch] block; the first two
    leave before anything was opened.  An error of [crawler.run], of
    [dataset.getData] or of the drop after the read-back leaves [POST]
    only through that drop of the [catch] block. *)
Theorem escaping_errors sc e :
  fst (run sc) = Threw e <->
  (e = InvalidURL /\ (exists c url, playlistUrl sc = Some (c :: url)) /\
   url_searchParams sc = None) \/
  (e = StorageError /\ valid_locator sc = true /\ open_fails sc = true) \/
  (e = StorageError /\ valid_locator sc = true /\ open_fails sc = false /\
   (run_rejects sc = true \/ getData_fails sc = true \/ drop_fails sc = true) /\
   drop_in_catch_fails sc = true).
Proof.
  destruct (valid_locator sc) eqn:Hv.
  - rewrite (run_valid sc Hv). pose proof Hv as Hv'. unfold valid_locator in Hv'.
    assert (Hurl : url_searchParams sc <> None).
    { intros Hp. rewrite Hp in Hv'.
      destruct (playlistUrl sc) as [[|? ?]|]; discriminate. }
    destruct (open_fails sc).
    + split.
      * intros [= <-]. right. left. auto.
      * intros [(_ & _ & Hp)|[(-> & _)|(_ & _ & H & _)]];
          [now apply Hurl in Hp|reflexivity|discriminate].
    + destruct (run_rejects sc), (getData_fails sc), (drop_fails sc),
        (drop_in_catch_fails sc); cbn [orb]; split;
        try discriminate;
        try (intros [= <-]; right; right; auto 8);
        try (intros [(_ & _ & Hp)|[(_ & _ & H)|(-> & _)]];
             [now apply Hurl in Hp|discriminate|reflexivity]);
        try (intros [(_ & _ & Hp)|[(_ & _ & H)|(_ & _ & _ & _ & H)]];
             [now apply Hurl in Hp|discriminate|discriminate]);
        try (intros [(_ & _ & Hp)|[(_ & _ & H)|(_ & _ & _ & [H|[H|H]] & _)]];
             [now apply Hurl in Hp|discriminate|discriminate..]).
  - rewrite (run_invalid sc Hv).
    destruct (playlistUrl sc) as [[|c url]|]; cbn [fst].
    + split; [discriminate|].
      intros [(_ & (c & url & H) & _)|[(_ & H & _)|(_ & H & _)]]; discriminate.
    + destruct (url_searchParams sc) as [params|]; cbn [fst].
      * split; [discriminate|].
        intros [(_ & _ & H)|[(_ & H & _)|(_ & H & _)]]; discriminate.
      * split.
        -- intros [= <-]. left. repeat split; eauto.
        -- intros [(-> & _)|[(_ & H & _)|(_ & H & _)]];
             [reflexivity|discriminate..].
    + split; [discriminate|].
      intros [(_ & (c & url & H) & _)|[(_ & H & _)|(_ & H & _)]]; discriminate.
Qed.

(* ================================================================== *)
(** * The page against the route *)
(* ================================================================== *)



(* ================================================================== *)
(** * How far a rounded quotient is from the quotient *)
(* ================================================================== *)

Lemma round_nearest_even_le m l : round_nearest_even m l <= m + 1.
Proof.
  destruct l as [|[| |]]; cbn; try lia. destruct (Z.even m); lia.
Qed.

Lemma digits2_pos_below (p : positive) (k : Z) :
  Zpos p < 2 ^ k -> Zpos (digits2_pos p) <= k.
Proof.
  intros H. pose proof (digits2_pos_bounds p) as [Hlo _].
  destruct (Z_le_gt_dec (Zpos (digits2_pos p)) k) as [|Hgt]; [assumption|].
  assert (2 ^ k <= 2 ^ (Zpos (digits2_pos p) - 1)).
  { apply Z.pow_le_mono_r; lia. }
  lia.
Qed.

(** What [shr_fexp] leaves: the mantissa cut down to the exponent of
    the format. *)
Lemma shr_fexp_value m e l :
  0 <= m ->
  let e1 := Z.max e (fexp prec emax (Zdigits2 m + e)) in
  snd (shr_fexp prec emax m e l) = e1 /\
  shr_m (fst (shr_fexp prec emax m e l)) = m / 2 ^ (e1 - e).
Proof.
  intros Hm e1. unfold shr_fexp, shr. subst e1.
  destruct (fexp prec emax (Zdigits2 m + e) - e) as [|p|p] eqn:Hs; cbn [fst snd].
  - replace (Z.max e (fexp prec emax (Zdigits2 m + e))) with e by lia.
    rewrite Z.sub_diag, shr_m_of_loc. cbn. now rewrite Z.div_1_r.
  - replace (Z.max e (fexp prec emax (Zdigits2 m + e))) with (e + Zpos p) by lia.
    rewrite iter_shr_m by (rewrite shr_m_of_loc; lia).
    rewrite shr_m_of_loc. split; [reflexivity|]. f_equal. f_equal. lia.
  - replace (Z.max e (fexp prec emax (Zdigits2 m + e))) with e by lia.
    rewrite Z.sub_diag, shr_m_of_loc. cbn. now rewrite Z.div_1_r.
Qed.

(** Rounding [m0 * 2^e0]: the mantissa [m] and the exponent [e] it
    ends with.  [m * 2^e] is not further from [m0 * 2^e0] than two
    units of its last place, and [e] is next to the exponent the
    format gives [m0 * 2^e0]. *)
Lemma round_aux_cases (m0 : positive) e0 l :
  exists m e,
    binary_round_aux prec emax false (Zpos m0) e0 l
    = match m with
      | Z0 => S754_zero false
      | Zpos p => if e <=? emax - prec then S754_finite false p e
                  else S754_infinity false
      | Zneg _ => S754_nan
      end /\
    e0 <= e <= Z.max e0 (fexp prec emax (Zpos (digits2_pos m0) + e0)) + 1 /\
    Zpos m0 - 2 * 2 ^ (e - e0) < m * 2 ^ (e - e0) <= Zpos m0 + 2 ^ (e - e0).
Proof.
  unfold binary_round_aux.
  pose proof (shr_fexp_value (Zpos m0) e0 l ltac:(lia)) as [He1 Hm1].
  destruct (shr_fexp prec emax (Zpos m0) e0 l) as [mrs1 e1'] eqn:H1.
  cbn [fst snd] in He1, Hm1.
  set (e1 := Z.max e0 (fexp prec emax (Zdigits2 (Zpos m0) + e0))) in *.
  set (m1 := shr_m mrs1) in *.
  set (m2 := round_nearest_even m1 (loc_of_shr_record mrs1)).
  assert (Hpos : 0 < 2 ^ (e1 - e0)) by (apply Z.pow_pos_nonneg; lia).
  assert (Hm1' : 0 <= m1) by (rewrite Hm1; apply Z.div_pos; lia).
  assert (Hm2 : m1 <= m2 <= m1 + 1).
  { split; [apply round_nearest_even_ge|apply round_nearest_even_le]. }
  pose proof (shr_fexp_value m2 e1' loc_Exact ltac:(lia)) as [He2 Hm3].
  destruct (shr_fexp prec emax m2 e1' loc_Exact) as [mrs2 e2] eqn:H2.
  cbn [fst snd] in He2, Hm3. subst e1'. rewrite <- He2 in Hm3.
  exists (shr_m mrs2), e2. split; [reflexivity|].
  assert (Hpos2 : 0 < 2 ^ (e2 - e1)) by (apply Z.pow_pos_nonneg; lia).
  assert (Hsplit : 2 ^ (e2 - e0) = 2 ^ (e1 - e0) * 2 ^ (e2 - e1)).
  { rewrite <- Z.pow_add_r by lia. f_equal. lia. }
  pose proof (Z.mul_div_le (Zpos m0) (2 ^ (e1 - e0)) Hpos) as Ha1.
  pose proof (Z.mul_succ_div_gt (Zpos m0) (2 ^ (e1 - e0)) Hpos) as Ha2.
  pose proof (Z.mul_div_le m2 (2 ^ (e2 - e1)) Hpos2) as Hb1.
  pose proof (Z.mul_succ_div_gt m2 (2 ^ (e2 - e1)) Hpos2) as Hb2.
  rewrite <- Hm1 in Ha1, Ha2. rewrite <- Hm3 in Hb1, Hb2.
  (* the mantissa kept by the first cut has at most 53 digits *)
  assert (H53 : m1 < 2 ^ 53).
  { rewrite Hm1. apply Z.div_lt_upper_bound; [lia|].
    pose proof (digits2_pos_bounds m0) as [_ Hhi].
    assert (2 ^ Zpos (digits2_pos m0) <= 2 ^ (e1 - e0) * 2 ^ 53).
    { rewrite <- Z.pow_add_r by lia. apply Z.pow_le_mono_r; [lia|].
      subst e1. unfold fexp, prec. cbn [Zdigits2]. lia. }
    lia. }
  assert (He : e2 <= e1 + 1).
  { rewrite He2. apply Z.max_lub; [lia|].
    unfold fexp, prec, emin, emax.
    assert (-1074 <= e1) by (subst e1; unfold fexp, prec, emin, emax; lia).
    destruct m2 as [|p2|p2]; cbn [Zdigits2]; try lia.
    pose proof (digits2_pos_below p2 54 ltac:(lia)). lia. }
  split; [split; [lia|exact He]|].
  rewrite Hsplit. split; nia.
Qed.

(** The Number of a whole count below 2^53: the count itself, on 53
    digits. *)
Lemma of_Z_form (a : positive) :
  Zpos a < 2 ^ 53 ->
  exists m, of_Z (Zpos a) = S754_finite false m (Zpos (digits2_pos a) - 53) /\
            Zpos m = Zpos a * 2 ^ (53 - Zpos (digits2_pos a)) /\
            Zpos (digits2_pos m) = 53.
Proof.
  intros H. apply of_Z_small, digits2_pos_small, H.
Qed.

(** Dividing a whole count [a] by a whole count [b <= a]: the quotient
    [m * 2^e] is within three units of its last place of [a / b]. *)
Lemma div_enclosure (a b : positive) :
  Zpos b <= Zpos a -> Zpos a < 2 ^ 53 ->
  Zpos (digits2_pos a) - Zpos (digits2_pos b) <= 50 ->
  exists m e,
    num_div (of_Z (Zpos a)) (of_Z (Zpos b)) = S754_finite false m e /\
    e < 0 /\
    Zpos (digits2_pos a) - Zpos (digits2_pos b) - 53 <= e
      <= Zpos (digits2_pos a) - Zpos (digits2_pos b) - 51 /\
    - 3 * Zpos b < Zpos b * Zpos m - Zpos a * 2 ^ (- e) <= Zpos b.
Proof.
  intros Hba Ha Hd.
  destruct (of_Z_form a Ha) as (ma & -> & Hma & Hda).
  destruct (of_Z_form b ltac:(lia)) as (mb & -> & Hmb & Hdb).
  set (da := Zpos (digits2_pos a)) in *. set (db := Zpos (digits2_pos b)) in *.
  assert (Hdab : 1 <= db <= da /\ da <= 53).
  { pose proof (digits2_pos_monotone b a ltac:(lia)).
    pose proof (digits2_pos_small a Ha). subst da db. lia. }
  unfold num_div, SFdiv, SFdiv_core_binary. cbn [Zdigits2 xorb].
  rewrite Hda, Hdb.
  replace (Z.min (fexp prec emax (53 + (da - 53) - (53 + (db - 53))))
                 (da - 53 - (db - 53))) with (da - db - 53)
    by (unfold fexp, prec, emin, emax; lia).
  replace (da - 53 - (db - 53) - (da - db - 53)) with 53 by lia.
  rewrite Z.shiftl_mul_pow2 by lia.
  pose proof (Z.div_eucl_eq (Zpos ma * 2 ^ 53) (Zpos mb) ltac:(lia)) as Hq.
  pose proof (Z.mod_pos_bound (Zpos ma * 2 ^ 53) (Zpos mb) ltac:(lia)) as Hr.
  unfold Z.modulo in Hr.
  destruct (Z.div_eucl (Zpos ma * 2 ^ 53) (Zpos mb)) as [q r].
  pose proof (digits2_pos_bounds ma) as Hba1. rewrite Hda in Hba1.
  pose proof (digits2_pos_bounds mb) as Hbb1. rewrite Hdb in Hbb1.
  assert (Hq54 : 0 < q < 2 ^ 54) by (split; nia).
  destruct q as [|q|q]; try lia.
  destruct (round_aux_cases q (da - db - 53) (new_location (Zpos mb) r))
    as (m & e & -> & He & Hv).
  assert (Hfe : fexp prec emax (Zpos (digits2_pos q) + (da - db - 53))
                <= da - db - 52).
  { pose proof (digits2_pos_below q 54 ltac:(lia)).
    unfold fexp, prec, emin, emax. lia. }
  assert (Hee : da - db - 53 <= e <= da - db - 51) by lia.
  assert (Hp : 0 < 2 ^ (e - (da - db - 53)) <= 4).
  { split; [apply Z.pow_pos_nonneg; lia|].
    change 4 with (2 ^ 2). apply Z.pow_le_mono_r; lia. }
  destruct m as [|m|m]; [nia| |nia].
  replace (e <=? emax - prec) with true by (unfold emax, prec; lia).
  exists m, e. split; [reflexivity|]. split; [lia|]. split; [exact Hee|].
  (* [q * b <= a * 2^(53 - da + db) < (q + 1) * b], on both sides of [m] *)
  assert (Hw : 2 ^ (- (da - db - 53)) = 2 ^ (e - (da - db - 53)) * 2 ^ (- e)).
  { rewrite <- Z.pow_add_r by lia. f_equal. lia. }
  assert (Hw' : 2 ^ (- (da - db - 53)) * 2 ^ (53 - db) = 2 ^ 53 * 2 ^ (53 - da)).
  { rewrite <- !Z.pow_add_r by lia. f_equal. lia. }
  assert (Hpe : 0 < 2 ^ (- e)) by (apply Z.pow_pos_nonneg; lia).
  assert (Hpb : 0 < 2 ^ (53 - db)) by (apply Z.pow_pos_nonneg; lia).
  set (K := 2 ^ (e - (da - db - 53))) in *.
  set (W := 2 ^ (- e)) in *.
  set (B := 2 ^ (53 - db)) in *.
  (* a * K * W * B = ma * 2^53 = mb * q + r and mb = b * B *)
  assert (Hmain : Zpos a * (K * W) * B = Zpos b * B * Zpos q + r).
  { rewrite <- Hw. rewrite <- Z.mul_assoc, Hw'.
    rewrite <- Hmb, <- Hq. rewrite Hma. ring. }
  assert (Hrb : 0 <= r < Zpos b * B) by (rewrite <- Hmb; exact Hr).
  assert (Hqb : Zpos b * Zpos q <= Zpos a * (K * W) < Zpos b * Zpos q + Zpos b).
  { split.
    - apply (Z.mul_le_mono_pos_r _ _ B Hpb). lia.
    - apply (Z.mul_lt_mono_pos_r B _ _ Hpb). lia. }
  assert (Hup : Zpos b * (Zpos m * K) <= Zpos b * (Zpos q + K))
    by (apply Z.mul_le_mono_nonneg_l; lia).
  assert (Hlo : Zpos b * (Zpos q - 2 * K) < Zpos b * (Zpos m * K))
    by (apply Z.mul_lt_mono_pos_l; lia).
  assert (HK : 1 <= K) by lia.
  clear - Hqb Hup Hlo HK.
  split.
  - apply (Z.mul_lt_mono_pos_l K); [lia|]. nia.
  - apply (Z.mul_le_mono_pos_l _ _ K); [lia|]. nia.
Qed.

(* ================================================================== *)
(** * Whole counts compared *)
(* ================================================================== *)

(** [>=] on the Numbers of two whole counts below 2^53 is [>=] on the
    counts. *)
Lemma num_ge_of_Z (a b : Z) :
  0 <= a < 2 ^ 53 -> 0 < b < 2 ^ 53 ->
  num_ge (of_Z a) (of_Z b) = (b <=? a).
Proof.
  intros Ha Hb. unfold num_ge, SFleb.
  destruct b as [|b|b]; try lia.
  destruct (of_Z_form b ltac:(lia)) as (mb & -> & Hmb & _).
  destruct a as [|a|a]; try lia.
  - cbn. lia.
  - destruct (of_Z_form a ltac:(lia)) as (ma & -> & Hma & _).
    pose proof (digits2_pos_bounds a) as Hda.
    pose proof (digits2_pos_bounds b) as Hdb.
    pose proof (digits2_pos_small a ltac:(lia)) as Hsa.
    pose proof (digits2_pos_small b ltac:(lia)) as Hsb.
    set (da := Zpos (digits2_pos a)) in *. set (db := Zpos (digits2_pos b)) in *.
    cbn [SFcompare].
    destruct (Z.compare_spec (db - 53) (da - 53)) as [He|He|He].
    + assert (Hd : db = da) by lia. rewrite Hd in *.
      assert (Hp : 0 < 2 ^ (53 - da)) by (apply Z.pow_pos_nonneg; lia).
      change (Pos.compare_cont Eq mb ma) with (Pos.compare mb ma).
      destruct (Pos.compare_spec mb ma) as [Hc|Hc|Hc].
      * assert (Zpos mb = Zpos ma) by (now f_equal). nia.
      * assert (Zpos mb < Zpos ma) by lia. nia.
      * assert (Zpos ma < Zpos mb) by lia. nia.
    + assert (2 ^ db <= 2 ^ (da - 1)) by (apply Z.pow_le_mono_r; lia). lia.
    + assert (2 ^ da <= 2 ^ (db - 1)) by (apply Z.pow_le_mono_r; lia). lia.
Qed.

(* ================================================================== *)
(** * Decimal digits *)
(* ================================================================== *)

Lemma digits_from_app (fuel : nat) :
  forall n acc, digits_from fuel n acc = digits_from fuel n [] ++ acc.
Proof.
  induction fuel as [|fuel IH]; intros n acc; cbn [digits_from]; [reflexivity|].
  destruct (n <? 10); [reflexivity|].
  rewrite (IH _ (_ :: acc)), (IH _ [_]), <- app_assoc. reflexivity.
Qed.

(** More fuel than digits changes nothing. *)
Lemma digits_from_fuel (f1 : nat) :
  forall f2 n acc,
    (1 <= f1)%nat -> (1 <= f2)%nat ->
    0 <= n < 2 ^ Z.of_nat f1 -> n < 2 ^ Z.of_nat f2 ->
    digits_from f1 n acc = digits_from f2 n acc.
Proof.
  induction f1 as [|f1 IH]; intros f2 n acc H1 H2 Hn1 Hn2; [lia|].
  destruct f2 as [|f2]; [lia|]. cbn [digits_from].
  destruct (n <? 10) eqn:Hs; [reflexivity|].
  assert (Hq : 0 <= n / 10 /\ 2 * (n / 10) <= n).
  { pose proof (Z.mul_div_le n 10 ltac:(lia)).
    pose proof (Z.div_pos n 10 ltac:(lia) ltac:(lia)). lia. }
  rewrite !Nat2Z.inj_succ, !Z.pow_succ_r in * by lia.
  assert (f1 <> 0%nat) by (intros ->; cbn in Hn1; lia).
  assert (f2 <> 0%nat) by (intros ->; cbn in Hn2; lia).
  apply IH; lia.
Qed.

Lemma digits_of_digit (n : Z) : 0 <= n < 10 -> digits_of n = [48 + n].
Proof.
  intros Hn. unfold digits_of. cbn [digits_from].
  rewrite Z.mod_small by lia. now replace (n <? 10) with true by lia.
Qed.

Lemma digits_of_step (n : Z) :
  10 <= n -> digits_of n = digits_of (n / 10) ++ [48 + n mod 10].
Proof.
  intros Hn. unfold digits_of.
  set (fuel := S (Z.to_nat (Z.log2 (n / 10)))).
  cbn [digits_from]. replace (n <? 10) with false by lia.
  rewrite digits_from_app. f_equal. subst fuel.
  pose proof (Z.log2_spec n ltac:(lia)) as Hl.
  pose proof (Z.log2_nonneg n) as Hl0.
  pose proof (Z.log2_nonneg (n / 10)) as Hl1.
  pose proof (Z.mul_div_le n 10 ltac:(lia)) as Hd.
  pose proof (Z.div_pos n 10 ltac:(lia) ltac:(lia)) as Hd0.
  assert (Hq : 1 <= n / 10).
  { apply Z.div_le_lower_bound; lia. }
  pose proof (Z.log2_spec (n / 10) ltac:(lia)) as Hl2.
  assert (Hlog : 1 <= Z.log2 n).
  { apply Z.log2_le_pow2; [lia|]. cbn. lia. }
  apply digits_from_fuel.
  - lia.
  - lia.
  - rewrite Z2Nat.id by lia.
    rewrite Z.pow_succ_r in Hl by lia. lia.
  - rewrite Nat2Z.inj_succ, Z2Nat.id by lia. lia.
Qed.

Lemma digits_of_nonempty (n : Z) : digits_of n <> [].
Proof.
  unfold digits_of. cbn [digits_from].
  destruct (n <? 10); [discriminate|].
  rewrite digits_from_app. now destruct (digits_from _ _ []).
Qed.

(** One digit after the point: the tenths [t] are written as the
    digits of [t / 10], a point, and the digit [t mod 10]. *)
Lemma point_before_one (t : Z) :
  0 <= t ->
  point_before 1 t = digits_of (t / 10) ++ js "." ++ digits_of (t mod 10).
Proof.
  intros Ht. unfold point_before. cbn [Z.eqb].
  pose proof (Z.mod_pos_bound t 10 ltac:(lia)) as Hm.
  rewrite (digits_of_digit (t mod 10)) by lia.
  destruct (Z_lt_ge_dec t 10) as [Hs|Hs].
  - rewrite (digits_of_digit t) by lia.
    rewrite Z.div_small, Z.mod_small by lia.
    rewrite (digits_of_digit 0) by lia. reflexivity.
  - rewrite (digits_of_step t) by lia.
    set (d := digits_of (t / 10)).
    assert (Hl : (1 <= List.length d)%nat).
    { pose proof (digits_of_nonempty (t / 10)). fold d in H.
      destruct d; [congruence|cbn; lia]. }
    rewrite length_app. cbn [List.length].
    replace (Z.of_nat (List.length d + 1) <=? 1) with false by lia.
    rewrite !length_app. cbn [List.length].
    replace (Z.to_nat (Z.of_nat (List.length d + 1) - 1)) with (List.length d) by lia.
    rewrite firstn_app, Nat.sub_diag, firstn_all, firstn_O, app_nil_r.
    rewrite skipn_app, Nat.sub_diag, skipn_all. reflexivity.
Qed.

(* ================================================================== *)
(** * Counts in thousands and in millions *)
(* ================================================================== *)

(** [toFixed(1)] of a positive Number below 10^21 with a fraction part:
    its tenths, rounded to the nearest, the larger of two. *)
Lemma toFixed_one (m : positive) (e : Z) :
  e < 0 -> Zpos m < 10 ^ 21 * 2 ^ (- e) ->
  toFixed 1 (S754_finite false m e)
  = point_before 1 ((20 * Zpos m + 2 ^ (- e)) / (2 * 2 ^ (- e))).
Proof.
  intros He Hm. unfold toFixed, nearest_scaled, scaled.
  replace (Z.max e 0) with 0 by lia. replace (Z.max (- e) 0) with (- e) by lia.
  change (Z.max (- 21) 0) with 0. change (Z.max 21 0) with 21.
  change (Z.max (- - 1) 0) with 1. change (Z.max (- 1) 0) with 0.
  rewrite !Z.pow_0_r, !Z.mul_1_r, Z.pow_1_r.
  replace (2 ^ (- e) * 10 ^ 21 <=? Zpos m) with false by lia.
  cbn [app]. f_equal. f_equal. lia.
Qed.

(** A whole count [a] divided by a whole unit [b] and shown with one
    decimal: the tenths shown are within half a tenth of [a / b]. *)
Lemma tenths_of_quotient (a b : positive) :
  Zpos b <= Zpos a -> Zpos a < 2 ^ 53 ->
  Zpos (digits2_pos a) - Zpos (digits2_pos b) <= 50 ->
  60 * Zpos b <= 2 ^ (51 + Zpos (digits2_pos b) - Zpos (digits2_pos a)) ->
  exists t,
    toFixed 1 (num_div (of_Z (Zpos a)) (of_Z (Zpos b)))
    = digits_of (t / 10) ++ js "." ++ digits_of (t mod 10) /\
    0 <= t /\
    - Zpos b <= 2 * (Zpos b * t - 10 * Zpos a) <= Zpos b.
Proof.
  intros Hba Ha Hd Hw.
  destruct (div_enclosure a b Hba Ha Hd) as (m & e & -> & He & Hee & Hv).
  assert (Hp : 0 < 2 ^ (- e)) by (apply Z.pow_pos_nonneg; lia).
  assert (HW : 60 * Zpos b <= 2 ^ (- e)).
  { etransitivity; [exact Hw|]. apply Z.pow_le_mono_r; lia. }
  set (W := 2 ^ (- e)) in *.
  assert (Hm : Zpos m < 10 ^ 21 * W).
  { assert (Zpos a < 10 ^ 21) by lia. nia. }
  rewrite (toFixed_one m e He Hm). fold W.
  set (t := (20 * Zpos m + W) / (2 * W)).
  pose proof (Z.mul_div_le (20 * Zpos m + W) (2 * W) ltac:(lia)) as Ht1.
  pose proof (Z.mul_succ_div_gt (20 * Zpos m + W) (2 * W) ltac:(lia)) as Ht2.
  fold t in Ht1, Ht2.
  assert (Ht0 : 0 <= t) by (apply Z.div_pos; lia).
  exists t. split; [apply point_before_one, Ht0|]. split; [exact Ht0|].
  split.
  - (* W * (2 b t - 20 a + b) > - 60 b *)
    assert (- 60 * Zpos b < W * (2 * Zpos b * t - 20 * Zpos a + Zpos b)) by nia.
    nia.
  - assert (W * (2 * Zpos b * t - 20 * Zpos a - Zpos b) <= 20 * Zpos b) by nia.
    nia.
Qed.

(** A whole count from 1000 up to 999999 is shown in thousands with one
    decimal and the letter K, and the tenths shown are the nearest
    ones: they differ from the count by 50 at most (a count halfway
    between two tenths goes to either).  So counts from 999950 on are
    shown as "1000.0K". *)
Theorem formatViews_thousands (n : Z) :
  1000 <= n < 1000000 ->
  exists t,
    Home.formatViews (Some (of_Z n))
    = Some (digits_of (t / 10) ++ js "." ++ digits_of (t mod 10) ++ js "K") /\
    - 50 <= 100 * t - n <= 50.
Proof.
  intros Hn. unfold Home.formatViews, Home.to_number.
  rewrite (num_ge_of_Z n 1000000) by lia.
  rewrite (num_ge_of_Z n 1000) by lia.
  replace (1000000 <=? n) with false by lia.
  replace (1000 <=? n) with true by lia.
  destruct n as [|a|a]; try lia.
  pose proof (digits2_pos_below a 20 ltac:(lia)) as Hda.
  pose proof (digits2_pos_bounds a) as Hdb.
  destruct (tenths_of_quotient a 1000) as (t & -> & Ht & Hb).
  - lia.
  - lia.
  - change (Zpos (digits2_pos 1000)) with 10. lia.
  - change (Zpos (digits2_pos 1000)) with 10.
    etransitivity; [|apply (Z.pow_le_mono_r 2 41); lia]. lia.
  - exists t. rewrite <- !app_assoc. split; [reflexivity|lia].
Qed.

Lemma formatViews_thousands_witness :
  exists t,
    Home.formatViews (Some (of_Z 999999))
    = Some (digits_of (t / 10) ++ js "." ++ digits_of (t mod 10) ++ js "K") /\
    - 50 <= 100 * t - 999999 <= 50.
Proof.
  apply formatViews_thousands. lia.
Defined.

(** A whole count from one million up to ten trillion is shown in
    millions with one decimal and the letter M, and the tenths shown
    are the nearest ones: they differ from the count by 50000 at
    most. *)
Theorem formatViews_millions (n : Z) :
  1000000 <= n < 10 ^ 13 ->
  exists t,
    Home.formatViews (Some (of_Z n))
    = Some (digits_of (t / 10) ++ js "." ++ digits_of (t mod 10) ++ js "M") /\
    - 50000 <= 100000 * t - n <= 50000.
Proof.
  intros Hn. unfold Home.formatViews, Home.to_number.
  rewrite (num_ge_of_Z n 1000000) by lia.
  replace (1000000 <=? n) with true by lia.
  destruct n as [|a|a]; try lia.
  pose proof (digits2_pos_below a 44 ltac:(lia)) as Hda.
  pose proof (digits2_pos_bounds a) as Hdb.
  destruct (tenths_of_quotient a 1000000) as (t & -> & Ht & Hb).
  - lia.
  - lia.
  - change (Zpos (digits2_pos 1000000)) with 20. lia.
  - change (Zpos (digits2_pos 1000000)) with 20.
    etransitivity; [|apply (Z.pow_le_mono_r 2 27); lia]. lia.
  - exists t. rewrite <- !app_assoc. split; [reflexivity|lia].
Qed.

Lemma formatViews_millions_witness :
  exists t,
    Home.formatViews (Some (of_Z 1500000))
    = Some (digits_of (t / 10) ++ js "." ++ digits_of (t mod 10) ++ js "M") /\
    - 50000 <= 100000 * t - 1500000 <= 50000.
Proof.
  apply formatViews_millions. lia.
Defined.

(** A whole count below 1000 is shown by its decimal digits. *)
Theorem formatViews_units (n : Z) :
  0 <= n < 1000 -> Home.formatViews (Some (of_Z n)) = Some (digits_of n).
Proof.
  intros Hn.
  assert (Hall : forallb (fun k => match Home.formatViews (Some (of_Z (Z.of_nat k))) with
                                   | Some s => jsstring_eqb s (digits_of (Z.of_nat k))
                                   | None => false
                                   end) (seq 0 1000) = true)
    by (vm_compute; reflexivity).
  rewrite forallb_forall in Hall.
  specialize (Hall (Z.to_nat n)). rewrite Z2Nat.id in Hall by lia.
  assert (Hin : In (Z.to_nat n) (seq 0 1000)) by (apply in_seq; lia).
  specialize (Hall Hin).
  destruct (Home.formatViews (Some (of_Z n))) as [s|]; [|discriminate].
  unfold jsstring_eqb in Hall.
  destruct (list_eq_dec Z.eq_dec s (digits_of n)); [now subst|discriminate].
Qed.

Lemma formatViews_units_witness :
  Home.formatViews (Some (of_Z 999)) = Some (digits_of 999).
Proof.
  apply formatViews_units. lia.
Defined.

(** What the formatter shows at the edges of its ranges: the last
    thousands roll over to "1000.0K", not to millions, and of two
    counts halfway between tenths one goes up and one goes down. *)
Example formatViews_examples :
  Home.formatViews (Some (of_Z 999)) = Some (js "999") /\
  Home.formatViews (Some (of_Z 1000)) = Some (js "1.0K") /\
  Home.formatViews (Some (of_Z 1050)) = Some (js "1.1K") /\
  Home.formatViews (Some (of_Z 1150)) = Some (js "1.1K") /\
  Home.formatViews (Some (of_Z 999949)) = Some (js "999.9K") /\
  Home.formatViews (Some (of_Z 999950)) = Some (js "1000.0K") /\
  Home.formatViews (Some (of_Z 1234567)) = Some (js "1.2M").
Proof.
  vm_compute. repeat split.
Qed.

(* ================================================================== *)
(** * From the count text to the list *)
(* ================================================================== *)

Lemma formatViews_number (x : number) : Home.formatViews (Some x) <> None.
Proof.
  unfold Home.formatViews.
  destruct (num_ge _ _); [discriminate|].
  destruct (num_ge _ _); discriminate.
Qed.

(** The list cannot show an item exactly when its count text was read
    as NaN or as Infinity: the count then travels as [null], and
    [formatViews] throws on it.  Every other item is shown. *)
Theorem unreadable_count_breaks_render (el : Container) :
  Home.formatViews (Home.views (receive_video (extract_video el))) = None <->
  normalize (or_empty (option_map trim (video_info_text el))) = NaN \/
  normalize (or_empty (option_map trim (video_info_text el)))
  = S754_infinity false.
Proof.
  unfold receive_video, extract_video. cbn [Home.views views].
  pose proof (normalize_sign (or_empty (option_map trim (video_info_text el))))
    as Hs.
  destruct (normalize _) as [b|b| |b m e]; cbn [json_number has_sign] in *.
  - split; [intros H; now apply formatViews_number in H|].
    intros [H|H]; discriminate.
  - subst b. split; [now right|reflexivity].
  - split; [now left|reflexivity].
  - split; [intros H; now apply formatViews_number in H|].
    intros [H|H]; discriminate.
Qed.

Lemma unreadable_count_breaks_render_witness :
  Home.formatViews
    (Home.views
       (receive_video
          (extract_video {| video_title_text := Some (js "A video");
                            video_info_text := Some (js ". views");
                            img_src := None |}))) = None.
Proof.
  apply unreadable_count_breaks_render. left. reflexivity.
Defined.
(* ================================================================== *)
(** * Counts above zero *)
(* ================================================================== *)

(** A value of at least 2^-1074 does not round to zero. *)
Lemma round_aux_positive_digits (m0 : positive) e0 l :
  -1074 < Zpos (digits2_pos m0) + e0 ->
  positive_above (-1074) (binary_round_aux prec emax false (Zpos m0) e0 l).
Proof.
  intros Hd. unfold binary_round_aux.
  pose proof (shr_fexp_value (Zpos m0) e0 l ltac:(lia)) as [He1 Hm1].
  destruct (shr_fexp prec emax (Zpos m0) e0 l) as [mrs1 e1'] eqn:H1.
  cbn [fst snd] in He1, Hm1.
  set (e1 := Z.max e0 (fexp prec emax (Zdigits2 (Zpos m0) + e0))) in *.
  set (m1 := shr_m mrs1) in *.
  set (m2 := round_nearest_even m1 (loc_of_shr_record mrs1)).
  assert (Hlo1 : -1074 <= e1) by (subst e1; unfold fexp, emin, prec, emax; lia).
  assert (Hm1' : 1 <= m1).
  { rewrite Hm1. apply Z.div_le_lower_bound; [apply Z.pow_pos_nonneg; lia|].
    rewrite Z.mul_1_r. pose proof (digits2_pos_bounds m0) as [Hlo _].
    etransitivity; [|exact Hlo]. apply Z.pow_le_mono_r; [lia|].
    subst e1. unfold fexp, emin, prec, emax. cbn [Zdigits2]. lia. }
  assert (Hm2 : 1 <= m2).
  { pose proof (round_nearest_even_ge m1 (loc_of_shr_record mrs1)). subst m2. lia. }
  pose proof (shr_fexp_value m2 e1' loc_Exact ltac:(lia)) as [He2 Hm3].
  destruct (shr_fexp prec emax m2 e1' loc_Exact) as [mrs2 e2] eqn:H2.
  cbn [fst snd] in He2, Hm3. subst e1'. rewrite <- He2 in Hm3.
  assert (Hm3' : 1 <= shr_m mrs2).
  { rewrite Hm3. apply Z.div_le_lower_bound; [apply Z.pow_pos_nonneg; lia|].
    rewrite Z.mul_1_r. destruct m2 as [|p2|p2]; try lia.
    pose proof (digits2_pos_bounds p2) as [Hlo _].
    etransitivity; [|exact Hlo]. apply Z.pow_le_mono_r; [lia|].
    rewrite He2. unfold fexp, emin, prec, emax. cbn [Zdigits2]. lia. }
  destruct (shr_m mrs2) as [|m3|m3]; try lia.
  destruct (e2 <=? emax - prec); [right|now left].
  exists m3, e2. split; [reflexivity|lia].
Qed.

Lemma positive_above_weaken lo lo' x :
  lo' <= lo -> positive_above lo x -> positive_above lo' x.
Proof.
  intros Hl [->|(m & e & -> & He)]; [now left|right].
  exists m, e. split; [reflexivity|lia].
Qed.

Lemma pow10_even (f : nat) : (1 <= f)%nat -> Z.even (10 ^ Z.of_nat f) = true.
Proof.
  intros Hf. replace (Z.of_nat f) with (Z.succ (Z.of_nat (f - 1))) by lia.
  rewrite Z.pow_succ_r by lia. now rewrite Z.even_mul.
Qed.

(** A count divided by a power of ten: the quotient rounds to zero
    exactly when it is 2^-1075 or less. *)
Lemma tiny_quotient (p : positive) (f : nat) :
  (1 <= f)%nat ->
  let x := SFdiv prec emax (S754_finite false p 0)
                 (S754_finite false (Z.to_pos (10 ^ Z.of_nat f)) 0) in
  if 10 ^ Z.of_nat f <? Zpos p * 2 ^ 1075
  then positive_above (-1074) x
  else x = S754_zero false.
Proof.
  intros Hf. cbv zeta.
  assert (HT : 0 < 10 ^ Z.of_nat f) by (apply Z.pow_pos_nonneg; lia).
  unfold SFdiv, SFdiv_core_binary. cbn [xorb Zdigits2].
  rewrite (Z2Pos.id _ HT).
  set (T := 10 ^ Z.of_nat f) in *.
  set (d1 := Zpos (digits2_pos p)).
  set (d2 := Zpos (digits2_pos (Z.to_pos T))).
  pose proof (digits2_pos_bounds p) as Hp. fold d1 in Hp.
  pose proof (digits2_pos_bounds (Z.to_pos T)) as Ht.
  rewrite (Z2Pos.id _ HT) in Ht. fold d2 in Ht.
  rewrite !Z.add_0_r, Z.sub_diag.
  set (e' := Z.min (fexp prec emax (d1 - d2)) 0).
  assert (He' : -1074 <= e' <= 0) by (subst e'; unfold fexp, emin, prec, emax; lia).
  replace (0 - e') with (- e') by lia.
  set (m' := match - e' with
             | 0 => Zpos p
             | Zpos _ => Z.shiftl (Zpos p) (- e')
             | Zneg _ => 0
             end).
  assert (Hm' : m' = Zpos p * 2 ^ (- e')).
  { subst m'. destruct (- e') as [|s|s] eqn:Hs; try lia.
    rewrite Z.shiftl_mul_pow2 by lia. reflexivity. }
  (* unless the exponent is the least one, the quotient has a digit *)
  assert (Hbig : e' = -1074 \/ T <= m').
  { destruct (Z.eq_dec e' (-1074)) as [|Hne]; [now left|right].
    rewrite Hm'. subst e'. unfold fexp, emin, prec, emax in *.
    destruct (Z_le_gt_dec (d1 - d2 - 53) 0) as [Hle|Hgt].
    - replace (Z.min (Z.max (d1 - d2 - 53) (3 - 1024 - 53)) 0)
        with (d1 - d2 - 53) in * by lia.
      assert (2 ^ d2 <= 2 ^ (d1 - 1) * 2 ^ (- (d1 - d2 - 53))).
      { rewrite <- Z.pow_add_r by lia. apply Z.pow_le_mono_r; lia. }
      assert (0 < 2 ^ (- (d1 - d2 - 53))) by (apply Z.pow_pos_nonneg; lia).
      nia.
    - replace (Z.min (Z.max (d1 - d2 - 53) (3 - 1024 - 53)) 0) with 0 by lia.
      cbn [Z.opp]. rewrite Z.pow_0_r, Z.mul_1_r.
      assert (2 ^ d2 <= 2 ^ (d1 - 1)) by (apply Z.pow_le_mono_r; lia).
      lia. }
  assert (Hpow : 2 ^ (- e') <= 2 ^ 1074) by (apply Z.pow_le_mono_r; lia).
  assert (Hpow0 : 0 < 2 ^ (- e')) by (apply Z.pow_pos_nonneg; lia).
  pose proof (Z.div_eucl_eq m' T ltac:(lia)) as Hq.
  pose proof (Z.mod_pos_bound m' T ltac:(lia)) as Hr.
  unfold Z.modulo in Hr.
  destruct (Z.div_eucl m' T) as [q r].
  assert (Hq0 : 0 <= q) by nia.
  destruct q as [|q|q]; try lia.
  - (* nothing before the point: the remainder decides *)
    assert (Hrm : r = m') by lia.
    destruct Hbig as [He|Hbig]; [|lia].
    rewrite He in *. change (- -1074) with 1074 in *.
    pose proof (pow10_even f Hf) as Hev. fold T in Hev.
    unfold new_location. rewrite Hev. unfold new_location_even.
    replace (r =? 0) with false by lia.
    replace (Zpos p * 2 ^ 1075) with (2 * r)
      by (rewrite Hrm, Hm'; change 1075 with (Z.succ 1074);
          rewrite Z.pow_succ_r by lia; ring).
    destruct (Z.compare_spec (2 * r) T) as [Hc|Hc|Hc].
    + replace (T <? 2 * r) with false by lia. reflexivity.
    + replace (T <? 2 * r) with false by lia. reflexivity.
    + replace (T <? 2 * r) with true by lia.
      right. exists 1%positive, (-1074). split; [reflexivity|lia].
  - replace (T <? Zpos p * 2 ^ 1075) with true.
    + apply round_aux_positive_digits. lia.
    + symmetry. apply Z.ltb_lt.
      assert (2 ^ 1075 = 2 * 2 ^ 1074) by (change 1075 with (Z.succ 1074);
                                          rewrite Z.pow_succ_r by lia; ring).
      nia.
Qed.

(** The Number read from the digits [n] with [f] of them after the
    point: above zero when [n / 10^f] exceeds 2^-1075, zero if not. *)
Lemma decimal_value_reading (n : Z) (f : nat) :
  0 <= n ->
  if 10 ^ Z.of_nat f <? n * 2 ^ 1075
  then positive_above (-1074) (decimal_value false n (- Z.of_nat f))
  else decimal_value false n (- Z.of_nat f) = S754_zero false.
Proof.
  intros Hn.
  assert (HT : 0 < 10 ^ Z.of_nat f) by (apply Z.pow_pos_nonneg; lia).
  assert (H2 : 0 < 2 ^ 1075) by (apply Z.pow_pos_nonneg; lia).
  destruct n as [|p|p]; try lia.
  - replace (10 ^ Z.of_nat f <? 0 * 2 ^ 1075) with false by lia. reflexivity.
  - unfold decimal_value. destruct f as [|f].
    + change (Z.of_nat 0) with 0. change (- 0) with 0.
      change (0 <=? 0) with true. cbn iota. change (10 ^ 0) with 1 in *.
      replace (1 <? Zpos p * 2 ^ 1075) with true by nia.
      apply (positive_above_weaken (-52)); [lia|].
      apply round_positive_integer.
    + replace (0 <=? - Z.of_nat (S f)) with false by lia.
      rewrite Z.opp_involutive.
      apply (tiny_quotient p (S f)). lia.
Qed.

Lemma all_zero_digits (z : jsstring) :
  forallb is_digit z = true -> existsb is_nonzero_digit z = false ->
  radix_value 10 z = 0.
Proof.
  unfold radix_value. intros Hd Hz.
  assert (H : forall acc, acc = 0 ->
              fold_left (fun a c => 10 * a + digit_of c) z acc = 0).
  { induction z as [|c z IH]; intros acc ->; [reflexivity|].
    cbn [forallb existsb fold_left] in *.
    apply andb_prop in Hd as [Hc Hd]. apply orb_false_iff in Hz as [Hn Hz].
    apply IH; auto. unfold digit_of. rewrite Hc.
    unfold is_digit, is_nonzero_digit in *. lia. }
  now apply H.
Qed.

Lemma span_fst_all (p : code_unit -> bool) (s : jsstring) :
  forallb p (fst (span p s)) = true.
Proof.
  induction s as [|c t IH]; [reflexivity|]. cbn [span].
  destruct (p c) eqn:Hc; [|reflexivity].
  destruct (span p t) as [a b]. cbn [fst forallb] in *. now rewrite Hc.
Qed.

(** [parseFloat] on a view string, by what its digits say. *)
Lemma parseFloat_reading (v : jsstring) :
  (forall c, In c v -> is_view_char c = true) ->
  let '(ip, r1) := span is_digit v in
  let fp := match r1 with
            | c :: t => if c =? 46 then fst (span is_digit t) else []
            | [] => []
            end in
  if 10 ^ Z.of_nat (List.length fp) <? radix_value 10 (ip ++ fp) * 2 ^ 1075
  then positive_above (-1074) (parseFloat v)
  else parseFloat v = NaN \/ parseFloat v = S754_zero false.
Proof.
  intros Hv. rewrite (parseFloat_view v Hv).
  pose proof (span_app is_digit v) as Happ.
  destruct (span is_digit v) as [ip r1]. cbn [fst snd] in *.
  assert (Hr1 : forall c, In c r1 -> is_view_char c = true).
  { intros c Hc. apply Hv. rewrite <- Happ. apply in_or_app. now right. }
  assert (Hshape : forall fp r2,
             (forall c, In c r2 -> is_view_char c = true) ->
             if 10 ^ Z.of_nat (List.length fp) <? radix_value 10 (ip ++ fp) * 2 ^ 1075
             then positive_above (-1074)
                    match ip ++ fp with
                    | [] => NaN
                    | ds => decimal_value false (radix_value 10 ds)
                              (exponent_part r2 - Z.of_nat (List.length fp))
                    end
             else match ip ++ fp with
                  | [] => NaN
                  | ds => decimal_value false (radix_value 10 ds)
                            (exponent_part r2 - Z.of_nat (List.length fp))
                  end = NaN \/
                  match ip ++ fp with
                  | [] => NaN
                  | ds => decimal_value false (radix_value 10 ds)
                            (exponent_part r2 - Z.of_nat (List.length fp))
                  end = S754_zero false).
  { intros fp r2 Hr2. rewrite (exponent_part_view r2 Hr2). rewrite Z.sub_0_l.
    pose proof (decimal_value_reading (radix_value 10 (ip ++ fp)) (List.length fp)
                  (radix_value_nonneg _)) as Hd.
    assert (HT : 0 < 10 ^ Z.of_nat (List.length fp))
      by (apply Z.pow_pos_nonneg; lia).
    destruct (ip ++ fp) as [|d ds] eqn:Hds.
    - change (radix_value 10 []) with 0.
      replace (10 ^ Z.of_nat (List.length fp) <? 0 * 2 ^ 1075) with false by lia.
      now left.
    - destruct (10 ^ Z.of_nat (List.length fp) <? radix_value 10 (d :: ds) * 2 ^ 1075);
        [exact Hd|now right]. }
  destruct r1 as [|c t].
  - apply (Hshape [] []). intros c [].
  - destruct (c =? 46).
    + pose proof (span_app is_digit t) as Ht.
      destruct (span is_digit t) as [fp r2]. cbn [fst snd] in *.
      apply Hshape. intros d Hd. apply Hr1. right. rewrite <- Ht.
      apply in_or_app. now right.
    + apply (Hshape [] (c :: t)). exact Hr1.
Qed.

(** A Number of at least 2^-1074 times a unit of the source stays
    above zero. *)
Lemma mul_unit_positive x (my : positive) ey :
  positive_above (-1074) x ->
  Zpos (digits2_pos my) = 53 -> -53 < ey ->
  positive_number (num_mul x (S754_finite false my ey)) = true.
Proof.
  intros [->|(mx & ex & -> & Hx)] Hd He; [reflexivity|].
  unfold num_mul, SFmul. cbn [xorb].
  apply (positive_above_positive (-1074)), round_aux_positive_digits.
  pose proof (digits2_pos_monotone my (mx * my) ltac:(nia)). lia.
Qed.

(** The count of a matching text is above zero exactly when its
    numeral is read as a Number above zero. *)
Lemma normalize_reading (text g : jsstring) :
  viewsMatch text = Some g ->
  positive_number (normalize text)
  = reads_positive (remove_commas (toUpperCase g)).
Proof.
  intros Hg. unfold normalize, reads_positive. rewrite Hg.
  pose proof (viewString_alphabet _ _ Hg) as Hv.
  set (v := remove_commas (toUpperCase g)) in *.
  pose proof (parseFloat_reading v Hv) as Hf.
  assert (Hmul : forall (my : positive) ey,
             Zpos (digits2_pos my) = 53 -> -53 < ey ->
             positive_number (num_mul (parseFloat v) (S754_finite false my ey))
             = let '(ip, r1) := span is_digit v in
               let fp := match r1 with
                         | c :: t => if c =? 46 then fst (span is_digit t) else []
                         | [] => []
                         end in
               10 ^ Z.of_nat (List.length fp) <? radix_value 10 (ip ++ fp) * 2 ^ 1075).
  { intros my ey Hd He. destruct (span is_digit v) as [ip r1].
    cbv zeta in *.
    destruct (10 ^ Z.of_nat _ <? _).
    - now apply mul_unit_positive.
    - destruct Hf as [-> | ->]; reflexivity. }
  destruct of_Z_literals as (_ & -> & -> & ->).
  destruct (endsWith v 75); [apply Hmul; [reflexivity|lia]|].
  destruct (endsWith v 77); [apply Hmul; [reflexivity|lia]|].
  destruct (endsWith v 66); [apply Hmul; [reflexivity|lia]|].
  cbn [orb]. rewrite (parseInt_view v Hv).
  rewrite (span_ext_in (is_radix_digit 10) is_digit v)
    by (intros c Hc; apply radix_digit_view, Hv, Hc).
  pose proof (span_fst_all is_digit v) as Hall.
  destruct (fst (span is_digit v)) as [|d z] eqn:Hz; [reflexivity|].
  destruct (existsb is_nonzero_digit (d :: z)) eqn:Hnz.
  - assert (Hp : 0 < radix_value 10 (d :: z))
      by (apply fold_digits_positive; [lia|now right]).
    destruct (radix_value 10 (d :: z)) as [|p|p]; try lia.
    apply (positive_above_positive (-53)).
    apply (decimal_value_positive p 0). cbn. lia.
  - now rewrite (all_zero_digits (d :: z) Hall Hnz).
Qed.

(** A non-zero digit among the leading digits is enough. *)
Lemma leading_digit_reads_positive (v : jsstring) :
  existsb is_nonzero_digit (fst (span is_digit v)) = true ->
  reads_positive v = true.
Proof.
  intros Hnz. unfold reads_positive.
  destruct (endsWith v 75 || endsWith v 77 || endsWith v 66); [|exact Hnz].
  destruct (span is_digit v) as [ip r1]. cbn [fst] in Hnz.
  set (fp := match r1 with
             | c :: t => if c =? 46 then fst (span is_digit t) else []
             | [] => []
             end).
  apply Z.ltb_lt.
  assert (Hip : 0 < radix_value 10 ip)
    by (apply fold_digits_positive; [lia|now right]).
  assert (Hn : 10 ^ Z.of_nat (List.length fp) <= radix_value 10 (ip ++ fp)).
  { unfold radix_value in *. rewrite fold_left_app.
    pose proof (fold_digits_lower fp (fold_left (fun a c => 10 * a + digit_of c) ip 0)
                  ltac:(lia)) as Hlow.
    assert (0 <= 10 ^ Z.of_nat (List.length fp)) by (apply Z.pow_nonneg; lia).
    nia. }
  assert (H2 : 2 <= 2 ^ 1075) by (apply (Z.pow_le_mono_r 2 1 1075); lia).
  assert (0 < 10 ^ Z.of_nat (List.length fp)) by (apply Z.pow_pos_nonneg; lia).
  nia.
Qed.

(** C7, amended.  The callback returns one record per matched
    container, in the order of the containers, nothing filtered and
    nothing merged; the title, the views text and the thumbnail source
    of a record are each read from their own node, trimmed (the texts)
    and replaced by the empty string when the node is absent, so an
    absent node touches neither the other fields nor the other
    records; and a record with no title and no thumbnail whose trimmed
    views text matches the pattern has views > 0 exactly when its
    numeral is read as a Number above zero: without a suffix, when a
    non-zero digit stands among its leading digits; with K, M or B,
    when its digits, with those after a dot, make a decimal above
    2^-1075 (so "0.5K views" counts, and so does every numeral with a
    non-zero digit among its leading digits).  Only numerals read as
    0 or as NaN give no positive count. *)
Theorem extraction_keeps_every_container :
  (forall elements,
      List.length (extract_videos elements) = List.length elements /\
      (forall i el,
          nth_error elements i = Some el ->
          nth_error (extract_videos elements) i = Some (extract_video el))) /\
  (forall el,
      title (extract_video el) = or_empty (option_map trim (video_title_text el)) /\
      views (extract_video el)
        = normalize (or_empty (option_map trim (video_info_text el))) /\
      thumbnail (extract_video el) = or_empty (img_src el)) /\
  (forall el,
      (video_title_text el = None -> title (extract_video el) = []) /\
      (video_info_text el = None -> views (extract_video el) = of_Z 0) /\
      (img_src el = None -> thumbnail (extract_video el) = [])) /\
  (forall text g,
      viewsMatch (trim text) = Some g ->
      let video := extract_video {| video_title_text := None;
                                    video_info_text := Some text;
                                    img_src := None |} in
      title video = [] /\ thumbnail video = [] /\
      positive_number (views video)
      = reads_positive (remove_commas (toUpperCase g)) /\
      (positive_number (views video) = false ->
       views video = of_Z 0 \/ views video = NaN)) /\
  (forall v,
      existsb is_nonzero_digit (fst (span is_digit v)) = true ->
      reads_positive v = true) /\
  (forall ds sfx sp w tail,
      ds <> [] ->
      forallb is_count_char ds = true ->
      (sfx = [] \/ exists c, sfx = [c] /\ is_suffix_char c = true) ->
      forallb is_space sp = true ->
      map upper_unit w = js "VIEW" ->
      (tail = [] \/ exists c, tail = [c] /\ is_s_char c = true) ->
      let video := extract_video {| video_title_text := None;
                                    video_info_text := Some (ds ++ sfx ++ sp ++ w ++ tail);
                                    img_src := None |} in
      title video = [] /\ thumbnail video = [] /\
      positive_number (views video)
      = reads_positive (remove_commas (toUpperCase (ds ++ sfx)))).
Proof.
  split; [|split; [|split; [|split; [|split]]]].
  - intros elements. unfold extract_videos. split; [apply length_map|].
    intros i el H. now rewrite nth_error_map, H.
  - intros el. repeat split.
  - intros el. unfold extract_video. cbn [title views thumbnail].
    repeat split; intros ->; reflexivity.
  - intros text g Hg. unfold extract_video.
    cbn [title views thumbnail video_title_text video_info_text img_src
         option_map or_empty].
    split; [reflexivity|]. split; [reflexivity|].
    destruct (trim text) as [|c t] eqn:Ht; [discriminate|].
    split; [now apply normalize_reading|].
    intros Hnp. pose proof (normalize_sign (c :: t)) as Hs.
    destruct (normalize (c :: t)) as [b|b| |b m e]; cbn [has_sign] in Hs;
      try subst b; try discriminate; auto.
  - exact leading_digit_reads_positive.
  - intros ds sfx sp w tail Hne Hds Hsfx Hsp Hw Htail. unfold extract_video.
    cbn [title views thumbnail video_title_text video_info_text img_src
         option_map or_empty].
    rewrite (trim_count_text ds sfx sp w tail Hne Hds Hw Htail).
    split; [reflexivity|]. split; [reflexivity|].
    destruct (ds ++ sfx ++ sp ++ w ++ tail) as [|c t] eqn:Ht.
    + destruct ds; [congruence|discriminate].
    + rewrite <- Ht. apply normalize_reading. now apply viewsMatch_accepts.
Qed.

Lemma extraction_keeps_every_container_witness :
  viewsMatch (trim (js "  0.5K views ")) = Some (js "0.5K") /\
  positive_number
    (views (extract_video {| video_title_text := None;
                             video_info_text := Some (js "  0.5K views ");
                             img_src := None |})) = true /\
  positive_number
    (views (extract_video {| video_title_text := None;
                             video_info_text := Some (js "0.0K views");
                             img_src := None |})) = false.
Proof.
  split; [reflexivity|]. split.
  - rewrite (proj1 (proj2 (proj2
               (proj1 (proj2 (proj2 (proj2 extraction_keeps_every_container)))
                  (js "  0.5K views ") (js "0.5K") eq_refl)))).
    vm_compute. reflexivity.
  - rewrite (proj1 (proj2 (proj2
               (proj1 (proj2 (proj2 (proj2 extraction_keeps_every_container)))
                  (js "0.0K views") (js "0.0K") eq_refl)))).
    vm_compute. reflexivity.
Defined.

(* ================================================================== *)
(** * Plain counts *)
(* ================================================================== *)

(** Below 2^53 the Number of a whole count is the count. *)
Lemma of_Z_exact (n : Z) : 0 <= n < 2 ^ 53 -> number_is (of_Z n) n = true.
Proof.
  intros Hn. destruct n as [|p|p]; try lia; [reflexivity|].
  pose proof (digits2_pos_small p ltac:(lia)) as Hd.
  destruct (of_Z_small p Hd) as (m & -> & Hm & _).
  unfold number_is.
  replace (Z.max (- (Zpos (digits2_pos p) - 53)) 0)
    with (53 - Zpos (digits2_pos p)) by lia.
  replace (Z.max (Zpos (digits2_pos p) - 53) 0) with 0 by lia.
  rewrite Z.pow_0_r, Z.mul_1_r, Hm. apply Z.eqb_refl.
Qed.

(** Without a suffix the count is what [parseInt] reads: NaN when no
    digit comes first, and if not the Number of the integer that the
    digits before the first dot write, the grouping commas dropped
    wherever they stand.  That Number is the integer itself as long as
    the integer is below 2^53; beyond, it is a rounded one. *)
Theorem plain_count_reading (ds sp w tail : jsstring) :
  ds <> [] -> forallb is_count_char ds = true ->
  forallb is_space sp = true ->
  map upper_unit w = js "VIEW" ->
  (tail = [] \/ exists c, tail = [c] /\ is_s_char c = true) ->
  normalize (ds ++ sp ++ w ++ tail) =
    match fst (span is_digit (remove_commas ds)) with
    | [] => NaN
    | z => of_Z (radix_value 10 z)
    end /\
  (fst (span is_digit (remove_commas ds)) <> [] ->
   radix_value 10 (fst (span is_digit (remove_commas ds))) < 2 ^ 53 ->
   number_is (normalize (ds ++ sp ++ w ++ tail))
             (radix_value 10 (fst (span is_digit (remove_commas ds)))) = true).
Proof.
  intros Hne Hds Hsp Hw Htail.
  assert (Hread : normalize (ds ++ sp ++ w ++ tail) =
                  match fst (span is_digit (remove_commas ds)) with
                  | [] => NaN
                  | z => of_Z (radix_value 10 z)
                  end).
  { pose proof (viewsMatch_accepts ds [] sp w tail Hne Hds (or_introl eq_refl)
                  Hsp Hw Htail) as Hm.
    cbn [app] in Hm. rewrite app_nil_r in Hm.
    pose proof (viewString_alphabet _ _ Hm) as Hv.
    unfold normalize. rewrite Hm. rewrite (count_chars_upper ds Hds) in *.
    assert (He : forall x, x = 75 \/ x = 77 \/ x = 66 ->
                           endsWith (remove_commas ds) x = false).
    { intros x Hx. apply endsWith_absent. intros c Hc.
      destruct (remove_commas_chars ds c Hds Hc) as [H|H];
        unfold is_digit in *; lia. }
    rewrite !He by auto.
    rewrite (parseInt_view _ Hv).
    rewrite (span_ext_in (is_radix_digit 10) is_digit)
      by (intros c Hc; apply radix_digit_view, Hv, Hc).
    destruct (fst (span is_digit (remove_commas ds))) as [|d z]; [reflexivity|].
    apply decimal_value_integer, radix_value_nonneg. }
  split; [exact Hread|]. intros Hz Hsmall. rewrite Hread.
  destruct (fst (span is_digit (remove_commas ds))) as [|d z]; [congruence|].
  apply of_Z_exact. split; [apply radix_value_nonneg|exact Hsmall].
Qed.

Lemma plain_count_reading_witness :
  normalize (js "1,2,34.56 views") = of_Z 1234 /\
  number_is (normalize (js "1,2,34.56 views")) 1234 = true.
Proof.
  pose proof (plain_count_reading (js "1,2,34.56") (js " ") (js "view") (js "s")
                ltac:(discriminate) eq_refl eq_refl eq_refl
                (or_intror (ex_intro _ 115 (conj eq_refl eq_refl)))) as [H1 H2].
  split; [exact H1|].
  exact (H2 ltac:(discriminate) eq_refl).
Defined.

(** Beyond 2^53 the count is rounded: 9007199254740993 is read as
    9007199254740992. *)
Example plain_count_rounded :
  normalize (js "9007199254740993 views") = of_Z 9007199254740992 /\
  number_is (normalize (js "9007199254740993 views")) 9007199254740993 = false.
Proof. vm_compute. split; reflexivity. Qed.
